(** * Suggestion reconciliation engine of the audit worker

    A shallow embedding of [src/utils/data-access.js]: the suggestion
    synchronizer ([handleOutdatedSuggestions], [syncSuggestions]), the
    disappearance reconciler ([reconcileDisappearedSuggestions]), the fix
    publication pipeline ([publishDeployedFixEntities]) and the orchestrator
    ([syncSuggestionsWithPublishDetection]).

    JavaScript objects that the code mutates in place (suggestions, fix
    entities) live in a heap and are passed around by reference; every call
    that leaves the module (store operations, injected callbacks, the logger)
    is recorded in a trace. *)

From Stdlib Require Import ZArith String List Lia.
From stdpp Require Import base option list strings gmap.
From stdpp Require Import pretty.

Local Open Scope string_scope.

(** ** JavaScript values and data payloads *)

Inductive value :=
| VUndefined
| VNull
| VBool (b : bool)
| VNum (n : Z)
| VNaN
| VStr (s : string)
| VObj (r : nat).

#[global] Instance value_eq_dec : EqDecision value.
Proof. solve_decision. Defined.

(** [Boolean(v)], the test behind [if (v)], [!v], [a || b] and [a && b]. *)
Definition truthy (v : value) : bool :=
  match v with
  | VUndefined | VNull | VNaN => false
  | VBool b => b
  | VNum n => negb (n =? 0)%Z
  | VStr s => negb (String.eqb s "")
  | VObj _ => true
  end.

(** The opaque [data] payload of a finding or of a suggestion: an object with
    string property names. *)
Abbreviation Data := (gmap string value).

(** [data.name], and [data?.name] on a payload that is present. *)
Definition prop (d : Data) (name : string) : value :=
  default VUndefined (d !! name).

(** [set.has(v)] on a [Set] of strings. *)
Definition has_value (set : gset string) (v : value) : bool :=
  match v with
  | VStr s => bool_decide (s ∈ set)
  | _ => false
  end.

(** ** Statuses: [Suggestion.STATUSES] and [FixEntity.STATUSES] *)

Inductive Status :=
| NEW | APPROVED | IN_PROGRESS | SKIPPED | FIXED | ERROR
| OUTDATED | PENDING_VALIDATION | REJECTED.

#[global] Instance Status_eq_dec : EqDecision Status.
Proof. solve_decision. Defined.

Inductive FixStatus := PENDING | DEPLOYED | PUBLISHED | FAILED | ROLLED_BACK.

#[global] Instance FixStatus_eq_dec : EqDecision FixStatus.
Proof. solve_decision. Defined.

(** [array.includes(x)] *)
Definition includes {A} `{EqDecision A} (l : list A) (x : A) : bool :=
  bool_decide (x ∈ l).

(** ** Records of the store *)

Record suggestion := Suggestion {
  sid : string;
  status : Status;
  data : gmap string value;
  updatedBy : option string;
}.

#[global] Instance suggestion_inhabited : Inhabited suggestion :=
  populate (Suggestion "" NEW ∅ None).

Definition with_status (st : Status) (s : suggestion) : suggestion :=
  Suggestion (sid s) st (data s) (updatedBy s).
Definition with_data (d : Data) (s : suggestion) : suggestion :=
  Suggestion (sid s) (status s) d (updatedBy s).
Definition with_updatedBy (who : string) (s : suggestion) : suggestion :=
  Suggestion (sid s) (status s) (data s) (Some who).

Record fix_entity := FixEntity {
  fid : string;
  fixStatus : FixStatus;
  suggestionIds : option (list string);  (* [getSuggestionIds?.()] *)
}.

#[global] Instance fix_entity_inhabited : Inhabited fix_entity :=
  populate (FixEntity "" PENDING None).

Definition with_fixStatus (st : FixStatus) (f : fix_entity) : fix_entity :=
  FixEntity (fid f) st (suggestionIds f).

(** What [mapNewSuggestion] builds and [addSuggestions] receives. *)
Record new_suggestion := NewSuggestion {
  ns_opportunityId : string;
  ns_type : string;
  ns_rank : Z;
  ns_data : gmap string value;
  ns_status : option Status;
}.

Record error_item := ErrorItem {
  item : new_suggestion;
  error : option string;  (* the text of [errorItem.error], if it has one *)
}.

(** The answer of [opportunity.addSuggestions]; the code reads both fields
    with [?.], so either may be missing. *)
Record batch_reply := BatchReply {
  createdItems : option (list suggestion);
  errorItems : option (list error_item);
}.

Record fix_payload := FixPayload {
  fp_opportunityId : string;
  fp_status : FixStatus;
  fp_suggestions : list string;
}.

(** ** Logger and trace *)

Inductive level := Debug | Info | Warn | Error.

Inductive log_message :=
| MsgFinalCount (target : Status) (n : nat)
| MsgOutdatedSample (sample : list nat)
| MsgExisting (n : nat)
| MsgUpdatedExisting (n : nat)
| MsgRejectedPreserved
| MsgPossibleRegression
| MsgAdding (n : nat) (siteId : string)
| MsgNewSuggestions
| MsgContainsErrors (siteId : string) (errors total : nat)
| MsgErrorDetail (index total : nat) (text : option string)
| MsgFailedItemData (it : new_suggestion)
| MsgMoreErrors (n : nat)
| MsgErrorItems (items : list error_item)
| MsgPartialSuccess (created failed : nat)
| MsgCreated (siteId : string)
| MsgMarkingFixed (id : string)
| MsgFailedMarkFixed (id : string) (message : string)
| MsgFailedBuildFix (id : string) (message : string)
| MsgAddedFixEntities (n : nat) (opportunityId : string)
| MsgFailedAddFixEntities (opportunityId : string) (message : string)
| MsgFailedReconciliation (message : string)
| MsgFixApisUnavailable
| MsgPublished (id : string)
| MsgFailedSaveFix (message : string)
| MsgFailedPublish (message : string)
| MsgSkippingPublish.

Inductive event :=
| EvLog (lvl : level) (msg : log_message)
| EvGetSuggestions
| EvBulkUpdateStatus (refs : list nat) (st : Status)
| EvSave (r : nat)
| EvAddSuggestions (items : list new_suggestion)
| EvAddFixEntities (items : list fix_payload)
| EvIsIssueFixedWithAISuggestion (r : nat)
| EvBuildFixEntityPayload (r : nat)
| EvAllByOpportunityIdAndStatus (opportunityId : string) (st : FixStatus)
| EvGetFixEntitiesBySuggestionId (id : string)
| EvIsIssueResolvedOnProduction (s : suggestion)
| EvSaveFix (f : nat).

(** ** The world: object heaps, the opportunity's stored suggestions, trace *)

Record world := World {
  heap : list suggestion;      (* suggestion objects, by reference *)
  stored : list nat;           (* what [opportunity.getSuggestions()] yields *)
  fixHeap : list fix_entity;   (* fix entity objects, by reference *)
  trace : list event;          (* calls and log lines, oldest first *)
}.

Definition set_heap (h : list suggestion) (w : world) : world :=
  World h (stored w) (fixHeap w) (trace w).
Definition set_stored (l : list nat) (w : world) : world :=
  World (heap w) l (fixHeap w) (trace w).
Definition set_fixHeap (h : list fix_entity) (w : world) : world :=
  World (heap w) (stored w) h (trace w).
Definition set_trace (t : list event) (w : world) : world :=
  World (heap w) (stored w) (fixHeap w) t.

(** ** A state and exception monad

    A thrown value is an [Error] carrying a [message]. *)

Inductive outcome (A : Type) :=
| Ok (a : A)
| Throw (message : string).
Arguments Ok {A} a.
Arguments Throw {A} message.

Definition M (A : Type) : Type := world → outcome A * world.

Definition ret {A} (a : A) : M A := λ w, (Ok a, w).

Definition bind {A B} (m : M A) (k : A → M B) : M B :=
  λ w, match m w with
       | (Ok a, w') => k a w'
       | (Throw e, w') => (Throw e, w')
       end.

Definition throw {A} (e : string) : M A := λ w, (Throw e, w).

(** [try { m } catch (e) { handler(e.message) }] *)
Definition tryCatch {A} (m : M A) (handler : string → M A) : M A :=
  λ w, match m w with
       | (Ok a, w') => (Ok a, w')
       | (Throw e, w') => handler e w'
       end.

Definition gets {A} (f : world → A) : M A := λ w, (Ok (f w), w).
Definition modify (f : world → world) : M unit := λ w, (Ok tt, f w).

#[global] Instance M_ret : MRet M := @ret.
#[global] Instance M_bind : MBind M := λ A B k m, bind m k.

Definition emit (e : event) : M unit :=
  modify (λ w, set_trace (trace w ++ [e]) w).

Definition log (lvl : level) (msg : log_message) : M unit :=
  emit (EvLog lvl msg).

(** The outcome of an asynchronous call that either resolves or rejects. *)
Definition settle (rejects : option string) : M unit :=
  match rejects with
  | Some e => throw e
  | None => ret tt
  end.

Definition lift {A} (o : outcome A) : M A := λ w, (o, w).

(** Run the computations of a list in order, collecting the results; the
    first exception stops the run. *)
Fixpoint mapM {A B} (f : A → M B) (l : list A) : M (list B) :=
  match l with
  | [] => ret []
  | x :: l' => y ← f x; ys ← mapM f l'; ret (y :: ys)
  end.

(** ** Suggestion objects *)

Definition getObject (h : list suggestion) (r : nat) : suggestion := h !!! r.
Definition getData (h : list suggestion) (r : nat) : Data := data (getObject h r).
Definition getStatus (h : list suggestion) (r : nat) : Status :=
  status (getObject h r).
Definition getId (h : list suggestion) (r : nat) : string := sid (getObject h r).

Definition update (f : suggestion → suggestion) (r : nat) : M unit :=
  modify (λ w, set_heap (alter f r (heap w)) w).

Definition setStatus (r : nat) (st : Status) : M unit := update (with_status st) r.
Definition setData (r : nat) (d : Data) : M unit := update (with_data d) r.
Definition setUpdatedBy (r : nat) (who : string) : M unit :=
  update (with_updatedBy who) r.

(** ** The store and its answers

    The persistence layer is an external collaborator. Its effect on the
    objects is fixed below; whether a call rejects, how far a rejected bulk
    update got, and what the queries and the batch create answer, is left to
    a [Backend]. *)

Record Backend := {
  getSuggestions_rejects : option string;
  bulkUpdateStatus_rejects : list nat → Status → option string;
  bulkUpdateStatus_partial : list nat → Status → nat → bool;
  save_rejects : suggestion → option string;
  addSuggestions_reply : list new_suggestion → outcome batch_reply;
  addFixEntities_rejects : list fix_payload → option string;
  allByOpportunityIdAndStatus_reply :
    string → FixStatus → outcome (option (list nat));
  getFixEntitiesBySuggestionId_reply :
    string → outcome (option (list suggestion));
  saveFix_rejects : fix_entity → option string;
}.

Record Site := { requiresValidation : value }.

Record DataAccess := {
  hasAllByOpportunityIdAndStatus : bool;
  hasGetFixEntitiesBySuggestionId : bool;
}.

Record Context := {
  dataAccess : option DataAccess;
  site : option Site;
}.

Record Opportunity := {
  opportunityId : string;          (* [getId()] *)
  opportunityType : option string; (* [getType?.()] *)
  siteId : option string;          (* [getSiteId?.()] *)
  hasAddFixEntities : bool;        (* [typeof addFixEntities === 'function'] *)
}.

Section Store.
Variable be : Backend.

(** Modelled from the spec: [opportunity.getSuggestions()] of the external
    store, the suggestions that belong to the opportunity. *)
Definition getSuggestions : M (list nat) :=
  emit EvGetSuggestions;;
  settle (getSuggestions_rejects be);;
  gets stored.

(** Modelled from the spec: [Suggestion.bulkUpdateStatus(records, status)]
    of the external store, which transitions the given records. The call is
    not transactional: when it rejects, the records that
    [bulkUpdateStatus_partial] picks, any part of the given ones, have been
    transitioned all the same. *)
Definition bulkUpdateStatus (refs : list nat) (st : Status) : M unit :=
  emit (EvBulkUpdateStatus refs st);;
  match bulkUpdateStatus_rejects be refs st with
  | Some e =>
      let transitioned :=
        List.filter (bulkUpdateStatus_partial be refs st) refs in
      modify (λ w,
        set_heap (foldr (alter (with_status st)) (heap w) transitioned) w);;
      throw e
  | None =>
      modify (λ w, set_heap (foldr (alter (with_status st)) (heap w) refs) w)
  end.

(** Modelled from the spec: [suggestion.save()] of the external store. An
    object and its persisted record are one; the call is recorded and may
    reject. *)
Definition save (r : nat) : M unit :=
  emit (EvSave r);;
  h ← gets heap;
  settle (save_rejects be (getObject h r)).

(** Modelled from the spec: [opportunity.addSuggestions(records)] of the
    external store. The created records become suggestions of the
    opportunity. *)
Definition addSuggestions (records : list new_suggestion) : M batch_reply :=
  emit (EvAddSuggestions records);;
  reply ← lift (addSuggestions_reply be records);
  let created := default [] (createdItems reply) in
  modify (λ w,
    set_stored (stored w ++ seq (length (heap w)) (length created))
      (set_heap (heap w ++ created) w));;
  ret reply.
End Store.

(** ** [handleOutdatedSuggestions] *)

Definition isNonEmptyArray {A} (l : list A) : bool :=
  match l with [] => false | _ => true end.

Definition notOutdatable : list Status :=
  [OUTDATED; FIXED; ERROR; SKIPPED; REJECTED; APPROVED; IN_PROGRESS;
   PENDING_VALIDATION].

Section Outdated.
Variable be : Backend.
Variable buildKey : Data → string.

(** The four filters, over the objects as they are when the call starts. *)
Definition existingOutdatedSuggestions (h : list suggestion)
    (existingSuggestions : list nat) (newDataKeys : gset string)
    (scrapedUrlsSet : option (gset string)) : list nat :=
  List.filter (λ existing,
      match scrapedUrlsSet with
      | Some urls =>
          let suggestionUrl := prop (getData h existing) "url" in
          truthy suggestionUrl && has_value urls suggestionUrl
      | None => true
      end)
    (List.filter (λ existing,
        let d := getData h existing in
        negb (truthy (prop d "tokowakaDeployed")
              || truthy (prop d "edgeDeployed")))
      (List.filter (λ existing,
          negb (includes notOutdatable (getStatus h existing)))
        (List.filter (λ existing,
            negb (bool_decide (buildKey (getData h existing) ∈ newDataKeys)))
          existingSuggestions))).

Definition handleOutdatedSuggestions (ctx : Context)
    (existingSuggestions : list nat) (newDataKeys : gset string)
    (statusToSetForOutdated : option Status)
    (scrapedUrlsSet : option (gset string)) : M unit :=
  match dataAccess ctx with
  | None => throw "Cannot destructure property 'Suggestion' of 'context.dataAccess' as it is undefined."
  | Some _ =>
      let target := default OUTDATED statusToSetForOutdated in
      h ← gets heap;
      let selected :=
        existingOutdatedSuggestions h existingSuggestions newDataKeys
          scrapedUrlsSet in
      let n := length selected in
      log Info (MsgFinalCount target n);;
      (if (0 <? n)%nat && (n <=? 10)%nat then log Debug (MsgOutdatedSample selected)
       else if (10 <? n)%nat then log Debug (MsgOutdatedSample (take 10 selected))
       else ret tt);;
      if isNonEmptyArray selected then bulkUpdateStatus be selected target
      else ret tt
  end.
End Outdated.

(** ** Merge policies *)

Definition keepSameDataFunction (existingData : Data) (newData : option Data)
    : Data :=
  existingData.

Definition keepLatestMergeDataFunction (existingData : Data)
    (newData : option Data) : Data :=
  default ∅ newData.

(** [{ ...existingData, ...newData }]: a property of [newData] wins. *)
Definition defaultMergeDataFunction (existingData : Data)
    (newData : option Data) : Data :=
  default ∅ newData ∪ existingData.

(** [Boolean(site?.requiresValidation)] *)
Definition siteRequiresValidation (ctx : Context) : bool :=
  match site ctx with
  | Some s => truthy (requiresValidation s)
  | None => false
  end.

Definition defaultMergeStatusFunction (existing : nat)
    (newDataItem : option Data) (ctx : Context) : M (option Status) :=
  h ← gets heap;
  let currentStatus := getStatus h existing in
  if decide (currentStatus = REJECTED) then
    log Debug MsgRejectedPreserved;;
    ret None
  else if decide (currentStatus = OUTDATED) then
    log Warn MsgPossibleRegression;;
    let requiresValidation := siteRequiresValidation ctx in
    ret (Some (if requiresValidation then PENDING_VALIDATION else NEW))
  else ret None.

(** ** Promises *)

(** A call that hands back a promise: its effects happen at the call, its
    rejection stays in the promise until it is awaited. *)
Definition promise {A} (m : M A) : M (outcome A) :=
  λ w, let '(o, w') := m w in (Ok o, w').

(** [await Promise.all(promises)] *)
Fixpoint awaitAll {A} (promises : list (outcome A)) : M (list A) :=
  match promises with
  | [] => ret []
  | Ok a :: rest => others ← awaitAll rest; ret (a :: others)
  | Throw e :: _ => throw e
  end.

Definition MAX_CONCURRENT_CHECKS : nat := 5.

(** Modelled from the spec: [limitConcurrencyAllSettled] of
    [src/support/utils.js], the bounded concurrency executor, which is not
    among the sources. It runs every task and returns the results in the
    order of the tasks, each the value of its task or a failure marker; a
    rejected task never aborts the batch. Tasks are run one after the other
    here: the cap bounds how many are in flight, not what they compute. *)
Definition limitConcurrencyAllSettled {A} (tasks : list (M A))
    (maxConcurrent : nat) : M (list (option A)) :=
  mapM (λ task w,
          match task w with
          | (Ok a, w') => (Ok (Some a), w')
          | (Throw _, w') => (Ok None, w')
          end) tasks.

(** ** [syncSuggestions] *)

Record SyncParams := {
  context : option Context;
  opportunity : Opportunity;
  newData : list Data;
  buildKey : Data → string;
  mapNewSuggestion : Data → new_suggestion;
  mergeDataFunction : option (Data → option Data → Data);
  mergeStatusFunction :
    option (suggestion → option Data → Context → option Status);
  statusToSetForOutdated : option Status;
  scrapedUrlsSet : option (gset string);
  existingSuggestions : option (list nat);
}.

(** [new Map(entries)]: a later entry replaces an earlier one with its key. *)
Definition js_Map {V} (entries : list (string * V)) : gmap string V :=
  foldl (λ m e, <[e.1 := e.2]> m) ∅ entries.

Definition with_ns_status (st : Status) (n : new_suggestion) : new_suggestion :=
  NewSuggestion (ns_opportunityId n) (ns_type n) (ns_rank n) (ns_data n)
    (Some st).

(** [x || fallback] on a string that may be missing. *)
Definition orElse (x : option string) (fallback : string) : string :=
  match x with
  | Some s => if String.eqb s "" then fallback else s
  | None => fallback
  end.

Definition createFailedMessage (siteId sampleError : string) : string :=
  "Failed to create suggestions for siteId " +:+ siteId
    +:+ ". Sample error: " +:+ sampleError.

Section Sync.
Variable be : Backend.

(** The body of the [.map] callback over the matched suggestions. *)
Definition updateExisting (p : SyncParams) (ctx : Context)
    (newDataByKey : gmap string Data) (existing : nat) : M (outcome unit) :=
  h ← gets heap;
  let existingKey := buildKey p (getData h existing) in
  let newDataItem := newDataByKey !! existingKey in
  setData existing
    (default defaultMergeDataFunction (mergeDataFunction p)
       (getData h existing) newDataItem);;
  newStatus ←
    match mergeStatusFunction p with
    | Some f => h' ← gets heap; ret (f (getObject h' existing) newDataItem ctx)
    | None => defaultMergeStatusFunction existing newDataItem ctx
    end;
  match newStatus with
  | Some st => setStatus existing st
  | None => ret tt
  end;;
  setUpdatedBy existing "system";;
  promise (save be existing).

(** What follows [opportunity.addSuggestions] when it reported errors. *)
Definition reportCreateErrors (siteId : string) (total : nat)
    (suggestions : batch_reply) (errors : list error_item) : M unit :=
  log Error (MsgContainsErrors siteId (length errors) total);;
  mapM (λ '(index, errorItem),
          log Error (MsgErrorDetail (index + 1) (length errors)
                                    (error errorItem));;
          log Error (MsgFailedItemData (item errorItem)))
       (imap (λ index errorItem, (index, errorItem)) (take 5 errors));;
  (if (5 <? length errors)%nat
   then log Error (MsgMoreErrors (length errors - 5))
   else ret tt);;
  match createdItems suggestions with
  | Some [] =>
      let sampleError := orElse (head errors ≫= error) "Unknown error" in
      log Error (MsgErrorItems errors);;
      throw (createFailedMessage siteId sampleError)
  | Some created =>
      log Warn (MsgPartialSuccess (length created) (length errors))
  | None =>
      throw "Cannot read properties of undefined (reading 'length')"
  end.

(** The records for the findings that match no existing suggestion. *)
Definition newSuggestions (p : SyncParams) (ctx : Context)
    (existingSuggestionKeys : gset string) : list new_suggestion :=
  let requiresValidation := siteRequiresValidation ctx in
  List.map (λ d,
      with_ns_status
        (if requiresValidation then PENDING_VALIDATION else NEW)
        (mapNewSuggestion p d))
    (List.filter (λ d,
        negb (bool_decide (buildKey p d ∈ existingSuggestionKeys)))
      (newData p)).

Definition createNew (p : SyncParams) (ctx : Context)
    (existingSuggestionKeys : gset string) : M unit :=
  let newSuggestions := newSuggestions p ctx existingSuggestionKeys in
  if (0 <? length newSuggestions)%nat then
    let siteId := orElse (siteId (opportunity p)) "unknown" in
    log Info (MsgAdding (length newSuggestions) siteId);;
    suggestions ← addSuggestions be newSuggestions;
    log Debug MsgNewSuggestions;;
    match errorItems suggestions with
    | Some (e :: es) =>
        reportCreateErrors siteId (length newSuggestions) suggestions
          (e :: es)
    | _ => log Debug (MsgCreated siteId)
    end
  else ret tt.

Definition syncSuggestions (p : SyncParams) : M unit :=
  match context p with
  | None => ret tt
  | Some ctx =>
      let newDataKeys : gset string :=
        list_to_set (List.map (buildKey p) (newData p)) in
      existingSuggestions ←
        match existingSuggestions p with
        | Some prefetched => ret prefetched
        | None => getSuggestions be
        end;
      let newDataByKey :=
        js_Map (List.map (λ d, (buildKey p d, d)) (newData p)) in
      h0 ← gets heap;
      let existingSuggestionKeys : gset string :=
        list_to_set
          (List.map (λ s, buildKey p (getData h0 s)) existingSuggestions) in
      handleOutdatedSuggestions be (buildKey p) ctx existingSuggestions
        newDataKeys (statusToSetForOutdated p) (scrapedUrlsSet p);;
      log Debug (MsgExisting (length existingSuggestions));;
      h1 ← gets heap;
      promises ←
        mapM (updateExisting p ctx newDataByKey)
          (List.filter (λ existing,
              bool_decide (buildKey p (getData h1 existing) ∈ newDataKeys))
            existingSuggestions);
      awaitAll promises;;
      log Debug (MsgUpdatedExisting (length existingSuggestions));;
      createNew p ctx existingSuggestionKeys
  end.
End Sync.

(** ** [getDisappearedSuggestions] *)

Definition getDisappearedSuggestions (h : list suggestion)
    (existingSuggestions : list nat) (newDataKeys : gset string)
    (buildKey : Data → string) : list nat :=
  List.filter (λ suggestion,
      negb (bool_decide (buildKey (getData h suggestion) ∈ newDataKeys)))
    existingSuggestions.

(** ** [reconcileDisappearedSuggestions] *)

Record ReconcileParams := {
  r_opportunity : Opportunity;
  disappearedSuggestions : list nat;
  isIssueFixedWithAISuggestion : option (suggestion → outcome value);
  buildFixEntityPayload :
    option (suggestion → Opportunity → bool → outcome (option fix_payload));
  isAuthorOnly : bool;
}.

Section Reconcile.
Variable be : Backend.

(** Modelled from the spec: [opportunity.addFixEntities(records)] of the
    external store. *)
Definition addFixEntities (records : list fix_payload) : M unit :=
  emit (EvAddFixEntities records);;
  settle (addFixEntities_rejects be records).

(** [await isIssueFixedWithAISuggestion?.(suggestion)] *)
Definition callIsIssueFixed (p : ReconcileParams) (suggestion : nat)
    : M value :=
  match isIssueFixedWithAISuggestion p with
  | None => ret VUndefined
  | Some f =>
      emit (EvIsIssueFixedWithAISuggestion suggestion);;
      h ← gets heap;
      lift (f (getObject h suggestion))
  end.

(** One turn of the loop over the fixed suggestions; [fixEntityObjects] is
    the array the loop pushes to. *)
Definition markFixed (p : ReconcileParams)
    (fixEntityObjects : list fix_payload) (suggestion : nat)
    : M (list fix_payload) :=
  h ← gets heap;
  log Debug (MsgMarkingFixed (getId h suggestion));;
  suggestionMarkedFixed ←
    tryCatch
      (setStatus suggestion FIXED;;
       setUpdatedBy suggestion "system";;
       save be suggestion;;
       ret true)
      (λ e,
         log Warn (MsgFailedMarkFixed (getId h suggestion) e);;
         ret false);
  match suggestionMarkedFixed, buildFixEntityPayload p with
  | true, Some build =>
      tryCatch
        (emit (EvBuildFixEntityPayload suggestion);;
         h' ← gets heap;
         fixEntity ←
           lift (build (getObject h' suggestion) (r_opportunity p)
                   (isAuthorOnly p));
         match fixEntity with
         | Some payload => ret (fixEntityObjects ++ [payload])%list
         | None => ret fixEntityObjects
         end)
        (λ e,
           log Warn (MsgFailedBuildFix (getId h suggestion) e);;
           ret fixEntityObjects)
  | _, _ => ret fixEntityObjects
  end.

Fixpoint foldM {A B} (f : B → A → M B) (acc : B) (l : list A) : M B :=
  match l with
  | [] => ret acc
  | x :: l' => acc' ← f acc x; foldM f acc' l'
  end.

Definition reconcileDisappearedSuggestions (p : ReconcileParams) : M unit :=
  tryCatch
    (h ← gets heap;
     let candidates :=
       List.filter (λ s, bool_decide (getStatus h s = NEW))
         (disappearedSuggestions p) in
     if (length candidates =? 0)%nat then ret tt
     else
       let checkTasks :=
         List.map (λ suggestion,
             isFixed ← callIsIssueFixed p suggestion;
             ret (suggestion, isFixed)) candidates in
       checkResults ←
         limitConcurrencyAllSettled checkTasks MAX_CONCURRENT_CHECKS;
       let fixedSuggestions :=
         List.map fst
           (List.filter (λ r, truthy r.2) (omap id checkResults)) in
       fixEntityObjects ← foldM (markFixed p) [] fixedSuggestions;
       if (0 <? length fixEntityObjects)%nat
          && hasAddFixEntities (r_opportunity p)
       then
         tryCatch
           (addFixEntities fixEntityObjects;;
            log Info (MsgAddedFixEntities (length fixEntityObjects)
                        (opportunityId (r_opportunity p))))
           (λ e,
              log Warn (MsgFailedAddFixEntities
                          (opportunityId (r_opportunity p)) e))
       else ret tt)
    (λ e, log Warn (MsgFailedReconciliation e)).
End Reconcile.

(** ** [publishDeployedFixEntities] *)

Record PublishParams := {
  p_opportunityId : string;
  p_context : option Context;
  isIssueResolvedOnProduction : option (suggestion → outcome value);
  currentAuditData : option (list Data);
  p_buildKey : option (Data → string);
}.

Section Publish.
Variable be : Backend.

(** Modelled from the spec: [FixEntity.allByOpportunityIdAndStatus] of the
    external store. *)
Definition allByOpportunityIdAndStatus (id : string) (st : FixStatus)
    : M (option (list nat)) :=
  emit (EvAllByOpportunityIdAndStatus id st);;
  lift (allByOpportunityIdAndStatus_reply be id st).

(** Modelled from the spec: [Suggestion.getFixEntitiesBySuggestionId] of the
    external store; the answer's [data] may be missing. *)
Definition getFixEntitiesBySuggestionId (id : string)
    : M (option (list suggestion)) :=
  emit (EvGetFixEntitiesBySuggestionId id);;
  lift (getFixEntitiesBySuggestionId_reply be id).

Definition setFixStatus (f : nat) (st : FixStatus) : M unit :=
  modify (λ w, set_fixHeap (alter (with_fixStatus st) f (fixHeap w)) w).

(** Modelled from the spec: [fixEntity.save()] of the external store. *)
Definition saveFix (f : nat) : M unit :=
  emit (EvSaveFix f);;
  fh ← gets fixHeap;
  settle (saveFix_rejects be (fh !!! f)).

(** [await isIssueResolvedOnProduction?.(suggestion)] *)
Definition callIsIssueResolved (p : PublishParams) (suggestion : suggestion)
    : M value :=
  match isIssueResolvedOnProduction p with
  | None => ret VUndefined
  | Some f =>
      emit (EvIsIssueResolvedOnProduction suggestion);;
      lift (f suggestion)
  end.

(** The [for] loop of the fast path: [true] when it returns early with
    "not resolved". *)
Definition fastPathStops (p : PublishParams)
    (currentDataKeys : option (gset string))
    (suggestionResults : list (option suggestion)) : bool :=
  existsb (λ suggestion,
      match suggestion with
      | None => true
      | Some s =>
          match currentDataKeys, p_buildKey p with
          | Some keys, Some buildKey =>
              bool_decide (buildKey (data s) ∈ keys)
          | _, _ => false
          end
      end) suggestionResults.

Definition checkFixEntity (p : PublishParams)
    (currentDataKeys : option (gset string)) (fixEntity : nat)
    : M (nat * bool) :=
  fh ← gets fixHeap;
  let suggestionIds := default [] (suggestionIds (fh !!! fixEntity)) in
  if (length suggestionIds =? 0)%nat then ret (fixEntity, false)
  else
    promises ←
      mapM (λ suggestionId,
          promise (suggestions ← getFixEntitiesBySuggestionId suggestionId;
                   ret (head (default [] suggestions))))
        suggestionIds;
    suggestionResults ← awaitAll promises;
    if fastPathStops p currentDataKeys suggestionResults
    then ret (fixEntity, false)
    else
      (* past the loop every fetched suggestion is present *)
      let httpCheckTasks :=
        List.map (callIsIssueResolved p) (omap id suggestionResults) in
      httpResults ←
        limitConcurrencyAllSettled httpCheckTasks MAX_CONCURRENT_CHECKS;
      let allResolved :=
        forallb (λ r, bool_decide (r = Some (VBool true))) httpResults in
      ret (fixEntity, allResolved).

(** One turn of the loop that updates the resolved fix entities. *)
Definition publishResult (result : option (nat * bool)) : M unit :=
  match result with
  | Some (fixEntity, true) =>
      tryCatch
        (setFixStatus fixEntity PUBLISHED;;
         saveFix fixEntity;;
         fh ← gets fixHeap;
         log Info (MsgPublished (fid (fh !!! fixEntity))))
        (λ e, log Debug (MsgFailedSaveFix e))
  | _ => ret tt
  end.

(** The keys of the current findings, when the findings and the key
    function are both given. *)
Definition currentDataKeys (p : PublishParams) : option (gset string) :=
  match currentAuditData p, p_buildKey p with
  | Some findings, Some buildKey =>
      Some (list_to_set (List.map buildKey findings))
  | _, _ => None
  end.

Definition publishDeployedFixEntities (p : PublishParams) : M unit :=
  match p_context p with
  | None => ret tt
  | Some ctx =>
      tryCatch
        (let available :=
           match dataAccess ctx with
           | Some da =>
               hasAllByOpportunityIdAndStatus da
               && hasGetFixEntitiesBySuggestionId da
           | None => false
           end in
         if negb available then log Debug MsgFixApisUnavailable
         else
           deployedFixEntities ←
             allByOpportunityIdAndStatus (p_opportunityId p) DEPLOYED;
           match deployedFixEntities with
           | None | Some [] => ret tt
           | Some deployed =>
               let fixEntityTasks :=
                 List.map (checkFixEntity p (currentDataKeys p)) deployed in
               results ←
                 limitConcurrencyAllSettled fixEntityTasks
                   MAX_CONCURRENT_CHECKS;
               mapM publishResult results;;
               ret tt
           end)
        (λ e, log Warn (MsgFailedPublish e))
  end.
End Publish.

(** ** [syncSuggestionsWithPublishDetection] *)

Definition AUTHOR_ONLY_OPPORTUNITY_TYPES : list string :=
  ["security-permissions-redundant"; "security-permissions"].

Record DetectionParams := {
  sync : SyncParams;
  d_isIssueFixedWithAISuggestion : option (suggestion → outcome value);
  d_buildFixEntityPayload :
    option (suggestion → Opportunity → bool → outcome (option fix_payload));
  d_isIssueResolvedOnProduction : option (suggestion → outcome value);
}.

Definition with_existingSuggestions (l : list nat) (p : SyncParams)
    : SyncParams :=
  {| context := context p; opportunity := opportunity p;
     newData := newData p; buildKey := buildKey p;
     mapNewSuggestion := mapNewSuggestion p;
     mergeDataFunction := mergeDataFunction p;
     mergeStatusFunction := mergeStatusFunction p;
     statusToSetForOutdated := statusToSetForOutdated p;
     scrapedUrlsSet := scrapedUrlsSet p;
     existingSuggestions := Some l |}.

Section Detection.
Variable be : Backend.

Definition syncSuggestionsWithPublishDetection (p : DetectionParams)
    : M unit :=
  match context (sync p) with
  | None => ret tt
  | Some ctx =>
      let opportunityType := opportunityType (opportunity (sync p)) in
      let isAuthorOnly :=
        match opportunityType with
        | Some t => includes AUTHOR_ONLY_OPPORTUNITY_TYPES t
        | None => false
        end in
      let newDataKeys : gset string :=
        list_to_set (List.map (buildKey (sync p)) (newData (sync p))) in
      existingSuggestions ← getSuggestions be;
      h ← gets heap;
      let disappearedSuggestions :=
        getDisappearedSuggestions h existingSuggestions newDataKeys
          (buildKey (sync p)) in
      match d_isIssueFixedWithAISuggestion p, d_buildFixEntityPayload p with
      | Some isFixed, Some build =>
          reconcileDisappearedSuggestions be
            {| r_opportunity := opportunity (sync p);
               disappearedSuggestions := disappearedSuggestions;
               isIssueFixedWithAISuggestion := Some isFixed;
               buildFixEntityPayload := Some build;
               isAuthorOnly := isAuthorOnly |}
      | _, _ => ret tt
      end;;
      (if isAuthorOnly then log Debug MsgSkippingPublish
       else
         match d_isIssueResolvedOnProduction p with
         | Some isResolved =>
             publishDeployedFixEntities be
               {| p_opportunityId := opportunityId (opportunity (sync p));
                  p_context := Some ctx;
                  isIssueResolvedOnProduction := Some isResolved;
                  currentAuditData := Some (newData (sync p));
                  p_buildKey := Some (buildKey (sync p)) |}
         | None => ret tt
         end);;
      syncSuggestions be (with_existingSuggestions existingSuggestions (sync p))
  end.
End Detection.

(** * Guidance handler for semantic value visibility

    A shallow embedding of the [handler] of
    [src/semantic-value-visibility/guidance-handler.js], which receives the
    suggestions of an analysis and hands the valid ones to [syncSuggestions].

    The handler's own log lines and calls are recorded apart from the trace
    of the synchronizer, in the order in which the handler makes them. *)

(** ** Messages *)

(** An entry of [data.suggestions], by what [s?.data] has: the properties of
    the entry's [data], or nothing when the entry or its [data] is missing or
    has no properties. *)
Definition entry : Type := option Data.

(** [data.suggestions]: missing or falsy, an array, or another truthy
    value. *)
Inductive suggestions_field :=
| NoSuggestions
| SuggestionArray (entries : list entry)
| NotAnArray.

Record MessageData := {
  md_suggestions : suggestions_field;
  md_url : value;
}.

Record Message := {
  m_siteId : string;
  m_auditId : string;
  m_data : option MessageData;
  m_url : value;
}.

(** The responses of [@adobe/spacecat-shared-http-utils]. *)
Inductive response :=
| ok
| notFound (message : string)
| badRequest (message : string).

(** ** Opportunities and services *)

(** An opportunity object as the handler reads and writes it. *)
Record opportunity_entity := OpportunityEntity {
  o_id : string;
  o_type : string;
  o_status : string;
  o_updatedBy : option string;
}.

#[global] Instance opportunity_entity_inhabited : Inhabited opportunity_entity :=
  populate (OpportunityEntity "" "" "" None).

Inductive guidance_message :=
| GSiteNotFound (siteId : string)
| GInvalidFormat (siteId : string)
| GSkipping
| GReceived (n : nat) (siteId : string)
| GNoImages (siteId : string)
| GRemovingStale (id siteId : string)
| GFailedCreate (siteId : string)
| GReady (id siteId : string)
| GSynced (n : nat) (id : string).

Inductive guidance_event :=
| GLog (lvl : level) (msg : guidance_message)
| GFindSite (siteId : string)
| GAllBySiteIdAndStatus (siteId status : string)
| GSaveOpportunity (o : nat)
| GConvertToOpportunity (url : value) (siteId auditId : string).

(** The collaborators of the handler. The answers of the store are left
    open, the site lookup by whether what it resolves to is truthy.
    [convertToOpportunity] (of [src/common/opportunity.js], which is not
    among the sources) creates or updates the opportunity of the audit: what
    it makes of the opportunities and what it resolves to, an opportunity or
    nothing, are left open too. It works on opportunities, so it is taken to
    leave the suggestions alone. *)
Record Services := {
  Site_findById : string → outcome bool;
  Opportunity_allBySiteIdAndStatus : string → string → outcome (list nat);
  opportunity_save_rejects : opportunity_entity → option string;
  convertToOpportunity_effect :
    value → string → string →
    list opportunity_entity → list opportunity_entity;
  convertToOpportunity_reply :
    value → string → string → outcome (option Opportunity);
  suggestions_store : Backend;
}.

(** The handler's world: the suggestions of the opportunity and their store
    trace, the opportunity objects, and the handler's own calls and log
    lines. *)
Record hworld := HWorld {
  base : world;
  opportunities : list opportunity_entity;
  calls : list guidance_event;
}.

Definition set_base (w : world) (hw : hworld) : hworld :=
  HWorld w (opportunities hw) (calls hw).
Definition set_opportunities (l : list opportunity_entity) (hw : hworld)
    : hworld :=
  HWorld (base hw) l (calls hw).
Definition set_calls (l : list guidance_event) (hw : hworld) : hworld :=
  HWorld (base hw) (opportunities hw) l.

Definition HM (A : Type) : Type := hworld → outcome A * hworld.

#[global] Instance HM_ret : MRet HM := λ A a hw, (Ok a, hw).
#[global] Instance HM_bind : MBind HM := λ A B k m hw,
  match m hw with
  | (Ok a, hw') => k a hw'
  | (Throw e, hw') => (Throw e, hw')
  end.

Definition record (e : guidance_event) : HM unit :=
  λ hw, (Ok tt, set_calls (calls hw ++ [e]) hw).

Definition glog (lvl : level) (msg : guidance_message) : HM unit :=
  record (GLog lvl msg).

(** The outcome of an awaited call. *)
Definition answer {A} (o : outcome A) : HM A := λ hw, (o, hw).

Definition getOpportunities : HM (list opportunity_entity) :=
  λ hw, (Ok (opportunities hw), hw).

Definition updateOpportunities
    (f : list opportunity_entity → list opportunity_entity) : HM unit :=
  λ hw, (Ok tt, set_opportunities (f (opportunities hw)) hw).

Definition updateOpportunity (f : opportunity_entity → opportunity_entity)
    (o : nat) : HM unit :=
  λ hw, (Ok tt, set_opportunities (alter f o (opportunities hw)) hw).

(** A computation of the synchronizer, run on the suggestions. *)
Definition onSuggestions {A} (m : M A) : HM A :=
  λ hw, let '(o, w') := m (base hw) in (o, set_base w' hw).

(** ** The handler *)

(** The key of a [Set] or [Map] entry: two values are the same key when they
    are the same value, which the rendering keeps. *)
Definition valueKey (v : value) : string :=
  match v with
  | VUndefined => "undefined"
  | VNull => "null"
  | VBool true => "true"
  | VBool false => "false"
  | VNum n => "number " +:+ pretty n
  | VNaN => "NaN"
  | VStr s => "string " +:+ s
  | VObj r => "object " +:+ pretty r
  end.

(** [s?.data?.imageUrl && s?.data?.semanticHtml], as a condition. *)
Definition hasRequiredFields (s : entry) : bool :=
  match s with
  | Some d => truthy (prop d "imageUrl") && truthy (prop d "semanticHtml")
  | None => false
  end.

(** [suggestions.filter(...)], with the warning of each entry it drops, and
    then [.map((s) => s.data)]. *)
Fixpoint validSuggestions (suggestions : list entry) : HM (list Data) :=
  match suggestions with
  | [] => mret []
  | s :: rest =>
      match s with
      | Some data =>
          if hasRequiredFields s then
            others ← validSuggestions rest;
            mret (data :: others)
          else
            glog Warn GSkipping;;
            validSuggestions rest
      | None =>
          glog Warn GSkipping;;
          validSuggestions rest
      end
  end.

(** [existing.find((oppty) => oppty.getType() === OPPORTUNITY_TYPE)] *)
Definition staleOpportunity (OPPORTUNITY_TYPE : string)
    (objects : list opportunity_entity) (existing : list nat) : option nat :=
  List.find (λ oppty, String.eqb (o_type (objects !!! oppty)) OPPORTUNITY_TYPE)
    existing.

Definition resolve (o : opportunity_entity) : opportunity_entity :=
  OpportunityEntity (o_id o) (o_type o) "RESOLVED" (Some "system").

(** The parameters of the handler's [syncSuggestions] call. *)
Definition guidanceSync (context : Context) (opportunity : Opportunity)
    (newData : list Data) : SyncParams := {|
  context := Some context;
  opportunity := opportunity;
  newData := newData;
  buildKey := λ suggestionData, valueKey (prop suggestionData "imageUrl");
  mapNewSuggestion := λ suggestionData,
    NewSuggestion (opportunityId opportunity) "SUGGESTION_CODE" 0
      suggestionData None;
  mergeDataFunction := None;
  mergeStatusFunction := None;
  statusToSetForOutdated := None;
  scrapedUrlsSet := None;
  existingSuggestions := None |}.

Section Guidance.
Variable sv : Services.
(** [OPPORTUNITY_TYPE] of [./constants.js], which is not among the
    sources. *)
Variable OPPORTUNITY_TYPE : string.

(** The branch of the handler without valid suggestions: the stale
    opportunity, if there is one, is resolved. *)
Definition removeStaleOpportunity (siteId : string) : HM response :=
  glog Info (GNoImages siteId);;
  record (GAllBySiteIdAndStatus siteId "NEW");;
  existing ← answer (Opportunity_allBySiteIdAndStatus sv siteId "NEW");
  objects ← getOpportunities;
  match staleOpportunity OPPORTUNITY_TYPE objects existing with
  | Some stale =>
      glog Info (GRemovingStale (o_id (objects !!! stale)) siteId);;
      updateOpportunity resolve stale;;
      record (GSaveOpportunity stale);;
      answer (match opportunity_save_rejects sv
                      (resolve (objects !!! stale)) with
              | Some e => Throw e
              | None => Ok tt
              end);;
      mret ok
  | None => mret ok
  end.

(** The branch of the handler with valid suggestions: the opportunity is
    created or updated and the suggestions are synchronized. *)
Definition syncValidSuggestions (context : Context) (url : value)
    (siteId auditId : string) (valid : list Data) : HM response :=
  record (GConvertToOpportunity url siteId auditId);;
  updateOpportunities (convertToOpportunity_effect sv url siteId auditId);;
  opportunity ← answer (convertToOpportunity_reply sv url siteId auditId);
  match opportunity with
  | None =>
      glog Error (GFailedCreate siteId);;
      mret (badRequest "Failed to create opportunity")
  | Some opportunity =>
      glog Info (GReady (opportunityId opportunity) siteId);;
      onSuggestions
        (syncSuggestions (suggestions_store sv)
           (guidanceSync context opportunity valid));;
      glog Info (GSynced (length valid) (opportunityId opportunity));;
      mret ok
  end.

Definition handler (message : Message) (context : Context) : HM response :=
  match dataAccess context with
  | None =>
      answer (Throw "Cannot destructure property 'Opportunity' of 'dataAccess' as it is undefined.")
  | Some _ =>
      let siteId := m_siteId message in
      let auditId := m_auditId message in
      record (GFindSite siteId);;
      site ← answer (Site_findById sv siteId);
      if negb site then
        glog Error (GSiteNotFound siteId);;
        mret (notFound "Site not found")
      else
        let suggestions :=
          match m_data message with
          | Some data => md_suggestions data
          | None => NoSuggestions
          end in
        let url :=
          match m_data message with
          | Some data =>
              if truthy (md_url data) then md_url data else m_url message
          | None => m_url message
          end in
        match suggestions with
        | NotAnArray =>
            glog Error (GInvalidFormat siteId);;
            mret (badRequest "Suggestions must be an array")
        | _ =>
            let entries :=
              match suggestions with
              | SuggestionArray entries => entries
              | _ => []
              end in
            valid ← validSuggestions entries;
            glog Info (GReceived (length valid) siteId);;
            if (length valid =? 0)%nat then removeStaleOpportunity siteId
            else syncValidSuggestions context url siteId auditId valid
        end
  end.
End Guidance.

(** * Sample runs

    A store that accepts every call, the key function and the builders of the
    repository's tests, and small worlds to run the functions on. *)

(** A store that accepts every call and creates every record it is given. *)
Definition healthy : Backend := {|
  getSuggestions_rejects := None;
  bulkUpdateStatus_rejects := λ _ _, None;
  bulkUpdateStatus_partial := λ _ _ _, false;
  save_rejects := λ _, None;
  addSuggestions_reply := λ records,
    Ok (BatchReply
          (Some (List.map
                   (λ n, Suggestion "new" (default NEW (ns_status n))
                           (ns_data n) None) records))
          (Some []));
  addFixEntities_rejects := λ _, None;
  allByOpportunityIdAndStatus_reply := λ _ _, Ok (Some []);
  getFixEntitiesBySuggestionId_reply := λ _, Ok (Some []);
  saveFix_rejects := λ _, None |}.

(** [buildKey = (data) => `${data.key}`] of the tests, on string keys. *)
Definition keyOf (d : Data) : string :=
  match d !! "key" with
  | Some (VStr s) => s
  | _ => "undefined"
  end.

Definition sample_context : Context := {|
  dataAccess := Some {| hasAllByOpportunityIdAndStatus := true;
                        hasGetFixEntitiesBySuggestionId := true |};
  site := None |}.

Definition sample_opportunity (type : string) : Opportunity := {|
  opportunityId := "opportunity-id";
  opportunityType := Some type;
  siteId := Some "site-id";
  hasAddFixEntities := true |}.

(** The builder of the tests: it keeps the key of the finding only. *)
Definition keyOnly (d : Data) : new_suggestion :=
  NewSuggestion "123" "TYPE" 123 {[ "key" := prop d "key" ]} None.

(** A builder that keeps the whole finding. *)
Definition wholeFinding (d : Data) : new_suggestion :=
  NewSuggestion "123" "TYPE" 123 d None.

Definition sample_finding : Data :=
  {[ "key" := VStr "1"; "title" := VStr "same title" ]}.

Definition sample_params (type : string) (findings : list Data)
    (builder : Data → new_suggestion) (urls : option (gset string))
    : SyncParams := {|
  context := Some sample_context;
  opportunity := sample_opportunity type;
  newData := findings;
  buildKey := keyOf;
  mapNewSuggestion := builder;
  mergeDataFunction := None;
  mergeStatusFunction := None;
  statusToSetForOutdated := None;
  scrapedUrlsSet := urls;
  existingSuggestions := None |}.

Definition empty_world : world := World [] [] [] [].

(** A world whose store holds the given suggestions. *)
Definition world_of (l : list suggestion) : world :=
  World l (seq 0 (length l)) [] [].

(** A store that creates nothing and reports every record as an error. *)
Definition creating_nothing : Backend := {|
  getSuggestions_rejects := None;
  bulkUpdateStatus_rejects := λ _ _, None;
  bulkUpdateStatus_partial := λ _ _ _, false;
  save_rejects := λ _, None;
  addSuggestions_reply := λ records,
    Ok (BatchReply (Some [])
          (Some (List.map (λ n, ErrorItem n (Some "Validation error"))
                   records)));
  addFixEntities_rejects := λ _, None;
  allByOpportunityIdAndStatus_reply := λ _ _, Ok (Some []);
  getFixEntitiesBySuggestionId_reply := λ _, Ok (Some []);
  saveFix_rejects := λ _, None |}.

(** A store that creates the first record and reports the others as
    errors. *)
Definition creating_first : Backend := {|
  getSuggestions_rejects := None;
  bulkUpdateStatus_rejects := λ _ _, None;
  bulkUpdateStatus_partial := λ _ _ _, false;
  save_rejects := λ _, None;
  addSuggestions_reply := λ records,
    Ok (BatchReply
          (Some (List.map
                   (λ n, Suggestion "new" (default NEW (ns_status n))
                           (ns_data n) None) (take 1 records)))
          (Some (List.map (λ n, ErrorItem n (Some "Validation error"))
                   (drop 1 records))));
  addFixEntities_rejects := λ _, None;
  allByOpportunityIdAndStatus_reply := λ _ _, Ok (Some []);
  getFixEntitiesBySuggestionId_reply := λ _, Ok (Some []);
  saveFix_rejects := λ _, None |}.

(** A store with one deployed fix entity, whose suggestions have the key of
    their identifier, and which accepts or refuses every save. *)
Definition with_deployed_fix (refusal : option string) : Backend := {|
  getSuggestions_rejects := None;
  bulkUpdateStatus_rejects := λ _ _, None;
  bulkUpdateStatus_partial := λ _ _ _, false;
  save_rejects := λ _, refusal;
  addSuggestions_reply := λ _, Ok (BatchReply (Some []) (Some []));
  addFixEntities_rejects := λ _, None;
  allByOpportunityIdAndStatus_reply := λ _ _, Ok (Some [0]);
  getFixEntitiesBySuggestionId_reply := λ id,
    Ok (Some [Suggestion id NEW {[ "key" := VStr id ]} None]);
  saveFix_rejects := λ _, refusal |}.

Definition deployed_fix : fix_entity :=
  FixEntity "fix-1" DEPLOYED (Some ["1"]).

Definition world_with_fix : world := World [] [] [deployed_fix] [].

Definition publish_params (findings : option (list Data)) : PublishParams := {|
  p_opportunityId := "opportunity-id";
  p_context := Some sample_context;
  isIssueResolvedOnProduction := Some (λ _, Ok (VBool true));
  currentAuditData := findings;
  p_buildKey := Some keyOf |}.

Definition reconcile_params : ReconcileParams := {|
  r_opportunity := sample_opportunity "broken-backlinks";
  disappearedSuggestions := [0];
  isIssueFixedWithAISuggestion := Some (λ _, Ok (VBool true));
  buildFixEntityPayload := None;
  isAuthorOnly := false |}.

Definition detection_params (type : string) : DetectionParams := {|
  sync := sample_params type [sample_finding] wholeFinding None;
  d_isIssueFixedWithAISuggestion := Some (λ _, Ok (VBool true));
  d_buildFixEntityPayload := None;
  d_isIssueResolvedOnProduction := Some (λ _, Ok (VBool true)) |}.

Definition sample_suggestion (st : Status) (d : Data) : suggestion :=
  Suggestion "suggestion-1" st d None.

(** A suggestion of a finding that is gone, marked as deployed. *)
Definition deployed_suggestion : suggestion :=
  sample_suggestion NEW
    {[ "key" := VStr "gone"; "tokowakaDeployed" := VBool true ]}.

(** A suggestion of a finding that is gone, without a [url]. *)
Definition no_url_suggestion : suggestion :=
  sample_suggestion NEW {[ "key" := VStr "gone" ]}.

Definition scraped : gset string := {[ "https://example.com/a" ]}.

Definition suggestion_a : suggestion :=
  Suggestion "suggestion-a" NEW
    {[ "key" := VStr "a"; "url" := VStr "https://example.com/a" ]} None.

Definition suggestion_b : suggestion :=
  Suggestion "suggestion-b" NEW
    {[ "key" := VStr "b"; "url" := VStr "https://example.com/b" ]} None.

Definition other_finding : Data :=
  {[ "key" := VStr "2"; "title" := VStr "other title" ]}.

(** A store that rejects every status update, after it has transitioned
    the records, and accepts the other calls. *)
Definition refusing_status_updates : Backend := {|
  getSuggestions_rejects := None;
  bulkUpdateStatus_rejects := λ _ _, Some "bulk update failed";
  bulkUpdateStatus_partial := λ _ _ _, true;
  save_rejects := λ _, None;
  addSuggestions_reply := λ _, Ok (BatchReply (Some []) (Some []));
  addFixEntities_rejects := λ _, None;
  allByOpportunityIdAndStatus_reply := λ _ _, Ok (Some []);
  getFixEntitiesBySuggestionId_reply := λ _, Ok (Some []);
  saveFix_rejects := λ _, None |}.

(** A suggestion of a finding that is gone, already fixed. *)
Definition fixed_suggestion : suggestion :=
  sample_suggestion FIXED {[ "key" := VStr "gone" ]}.

(** A suggestion of the sample finding, with a title of its own. *)
Definition titled_suggestion : suggestion :=
  sample_suggestion NEW {[ "key" := VStr "1"; "title" := VStr "old title" ]}.

(** A builder of fix entity payloads, for the suggestion it is given. *)
Definition sample_payload (s : suggestion) (o : Opportunity)
    (isAuthorOnly : bool) : outcome (option fix_payload) :=
  Ok (Some (FixPayload (opportunityId o)
              (if isAuthorOnly then DEPLOYED else PUBLISHED) [sid s])).

Definition reconcile_params_with_builder : ReconcileParams := {|
  r_opportunity := sample_opportunity "broken-backlinks";
  disappearedSuggestions := [0];
  isIssueFixedWithAISuggestion := Some (λ _, Ok (VBool true));
  buildFixEntityPayload := Some sample_payload;
  isAuthorOnly := false |}.

(** The orchestrator's parameters with the callbacks of the reconciler and
    without the production check. *)
Definition reconciling_params : DetectionParams := {|
  sync := sample_params "broken-backlinks" [sample_finding] wholeFinding None;
  d_isIssueFixedWithAISuggestion := Some (λ _, Ok (VBool true));
  d_buildFixEntityPayload := Some sample_payload;
  d_isIssueResolvedOnProduction := None |}.

(** The orchestrator's parameters without callbacks. *)
Definition plain_params : DetectionParams := {|
  sync := sample_params "broken-backlinks" [sample_finding] wholeFinding None;
  d_isIssueFixedWithAISuggestion := None;
  d_buildFixEntityPayload := None;
  d_isIssueResolvedOnProduction := None |}.

(** A store with one deployed fix entity whose suggestion is missing. *)
Definition missing_linked_suggestion : Backend := {|
  getSuggestions_rejects := None;
  bulkUpdateStatus_rejects := λ _ _, None;
  bulkUpdateStatus_partial := λ _ _ _, false;
  save_rejects := λ _, None;
  addSuggestions_reply := λ _, Ok (BatchReply (Some []) (Some []));
  addFixEntities_rejects := λ _, None;
  allByOpportunityIdAndStatus_reply := λ _ _, Ok (Some [0]);
  getFixEntitiesBySuggestionId_reply := λ _, Ok (Some []);
  saveFix_rejects := λ _, None |}.

(** A store with two deployed fix entities; the lookup of a linked
    identifier gives a suggestion whose key is the identifier. *)
Definition with_two_deployed_fixes : Backend := {|
  getSuggestions_rejects := None;
  bulkUpdateStatus_rejects := λ _ _, None;
  bulkUpdateStatus_partial := λ _ _ _, false;
  save_rejects := λ _, None;
  addSuggestions_reply := λ _, Ok (BatchReply (Some []) (Some []));
  addFixEntities_rejects := λ _, None;
  allByOpportunityIdAndStatus_reply := λ _ _, Ok (Some [0; 1]);
  getFixEntitiesBySuggestionId_reply := λ id,
    Ok (Some [Suggestion id NEW {[ "key" := VStr id ]} None]);
  saveFix_rejects := λ _, None |}.

Definition second_deployed_fix : fix_entity :=
  FixEntity "fix-2" DEPLOYED (Some ["2"]).

Definition world_with_two_fixes : world :=
  World [] [] [deployed_fix; second_deployed_fix] [].


(** ** Sample messages for the guidance handler *)

(** Services that accept every call: the site lookup gives [site], the NEW
    opportunities of the site are [existing], and [convertToOpportunity]
    gives [opportunity]. *)
Definition sample_services (site : bool) (existing : list nat)
    (opportunity : option Opportunity) : Services := {|
  Site_findById := λ _, Ok site;
  Opportunity_allBySiteIdAndStatus := λ _ _, Ok existing;
  opportunity_save_rejects := λ _, None;
  convertToOpportunity_effect := λ _ _ _ objects, objects;
  convertToOpportunity_reply := λ _ _ _, Ok opportunity;
  suggestions_store := healthy |}.

(** An entry with an image and its semantic HTML. *)
Definition hero_entry : Data :=
  {[ "imageUrl" := VStr "https://example.com/hero.png";
     "semanticHtml" := VStr "<section>Sale</section>" ]}.

(** An entry without semantic HTML. *)
Definition bare_entry : Data :=
  {[ "imageUrl" := VStr "https://example.com/banner.png" ]}.

Definition sample_message (entries : list entry) : Message := {|
  m_siteId := "site-id";
  m_auditId := "audit-id";
  m_data := Some {| md_suggestions := SuggestionArray entries;
                    md_url := VStr "https://example.com" |};
  m_url := VUndefined |}.

(** Two NEW opportunities of the site, the second of the audit's type. *)
Definition two_opportunities : list opportunity_entity :=
  [OpportunityEntity "oppty-1" "broken-backlinks" "NEW" None;
   OpportunityEntity "oppty-2" "semantic-value-visibility" "NEW" None].

Definition handler_world (objects : list opportunity_entity) : hworld :=
  HWorld empty_world objects [].

(** Services whose [convertToOpportunity] adds an opportunity of the audit's
    type and resolves to nothing. *)
Definition failing_conversion : Services := {|
  Site_findById := λ _, Ok true;
  Opportunity_allBySiteIdAndStatus := λ _ _, Ok [];
  opportunity_save_rejects := λ _, None;
  convertToOpportunity_effect := λ _ _ _ objects,
    (objects
     ++ [OpportunityEntity "oppty-3" "semantic-value-visibility" "NEW"
           None])%list;
  convertToOpportunity_reply := λ _ _ _, Ok None;
  suggestions_store := healthy |}.

(** A message whose [data.suggestions] is not an array. *)
Definition malformed_message : Message := {|
  m_siteId := "site-id";
  m_auditId := "audit-id";
  m_data := Some {| md_suggestions := NotAnArray;
                    md_url := VStr "https://example.com" |};
  m_url := VUndefined |}.

(** * Vocabulary of the properties *)

(** [I] is an invariant of [m]: it holds after [m] when it held before,
    whether [m] returns or throws. *)
Definition pres {A} (I : world → Prop) (m : M A) : Prop :=
  ∀ w, I w → I (m w).2.

(** An invariant that does not look at the trace survives every log line and
    every recorded call. *)
Definition trace_blind (I : world → Prop) : Prop :=
  ∀ w t, I w → I (set_trace t w).

(** The object behind a reference stays as it is. *)
Definition keeps (r : nat) (s : suggestion) (w : world) : Prop :=
  heap w !! r = Some s.

(** The four filters as one test. *)
Definition outdatable (buildKey : Data → string) (h : list suggestion)
    (keys : gset string) (urls : option (gset string)) (r : nat) : bool :=
  negb (bool_decide (buildKey (getData h r) ∈ keys))
  && negb (includes notOutdatable (getStatus h r))
  && negb (truthy (prop (getData h r) "tokowakaDeployed")
           || truthy (prop (getData h r) "edgeDeployed"))
  && match urls with
     | Some set =>
         truthy (prop (getData h r) "url")
         && has_value set (prop (getData h r) "url")
     | None => true
     end.

(** The status of a matched suggestion under the default policy. *)
Definition defaultStatus (ctx : Context) (st : Status) : Status :=
  match st with
  | OUTDATED => if siteRequiresValidation ctx then PENDING_VALIDATION else NEW
  | _ => st
  end.

(** The suggestions a call works on: the ones handed in, or else the ones
    the store returns. *)
Definition works_on (be : Backend) (p : SyncParams) (w : world)
    (l : list nat) : Prop :=
  match existingSuggestions p with
  | Some prefetched => l = prefetched
  | None => getSuggestions_rejects be = None ∧ l = stored w
  end.

(** An invariant that survives any change to the suggestion objects. *)
Definition heap_blind (I : world → Prop) : Prop :=
  ∀ w h, I w → I (set_heap h w).

(** An invariant that survives any change to the suggestions, new ones
    included. *)
Definition suggestions_blind (I : world → Prop) : Prop :=
  ∀ w h l, I w → I (set_stored l (set_heap h w)).

(** An invariant that survives the recording of [e]. *)
Definition accepts (I : world → Prop) (e : event) : Prop :=
  ∀ w, I w → I (set_trace (trace w ++ [e]) w).

(** Since the trace was [t0], only events that satisfy [Q] were added. *)
Definition emitted (Q : event → Prop) (t0 : list event) (w : world) : Prop :=
  ∃ t, trace w = (t0 ++ t)%list ∧ Forall Q t.

(** [text] occurs in [s]: [s.includes(text)]. *)
Definition includes_text (text s : string) : Prop :=
  ∃ before after, s = before +:+ text +:+ after.

(** An event other than a batch create. *)
Definition not_addSuggestions (e : event) : Prop :=
  ∀ records, e ≠ EvAddSuggestions records.

(** If the event is a batch create, it is the one of [records]. *)
Definition addSuggestions_only (records : list new_suggestion) (e : event)
    : Prop :=
  ∀ records', e = EvAddSuggestions records' → records' = records.

(** The events of the fix publication pipeline. *)
Definition publication_event (e : event) : bool :=
  match e with
  | EvAllByOpportunityIdAndStatus _ _ | EvGetFixEntitiesBySuggestionId _
  | EvIsIssueResolvedOnProduction _ | EvSaveFix _ => true
  | _ => false
  end.

(** No fix entity changed and no event of the pipeline was recorded. *)
Definition publication_idle (w0 w : world) : Prop :=
  fixHeap w = fixHeap w0
  ∧ emitted (λ e, publication_event e = false) (trace w0) w.

(** What awaiting the fetch of one linked suggestion gives. *)
Definition fetched (be : Backend) (id : string)
    : outcome (option suggestion) :=
  match getFixEntitiesBySuggestionId_reply be id with
  | Ok suggestions => Ok (head (default [] suggestions))
  | Throw e => Throw e
  end.

(** What awaiting the production check of one suggestion gives. *)
Definition resolvedAnswer (p : PublishParams) (s : suggestion) : outcome value :=
  match isIssueResolvedOnProduction p with
  | None => Ok VUndefined
  | Some isResolved => isResolved s
  end.

(** The failure marker of the executor. *)
Definition settled {A} (o : outcome A) : option A :=
  match o with
  | Ok a => Some a
  | Throw _ => None
  end.

(** A deployed fix entity that the checks find resolved. *)
Definition resolved_on_production (be : Backend) (p : PublishParams)
    (x : fix_entity) : Prop :=
  ∃ ids,
    suggestionIds x = Some ids ∧ ids ≠ []
    ∧ ∀ id, id ∈ ids →
        ∃ s rest isResolved,
          getFixEntitiesBySuggestionId_reply be id = Ok (Some (s :: rest))
          ∧ isIssueResolvedOnProduction p = Some isResolved
          ∧ isResolved s = Ok (VBool true).

(** Every fix entity is as it was, or was found resolved and is now
    [PUBLISHED]. *)
Definition published_if_resolved (be : Backend) (p : PublishParams)
    (fh0 : list fix_entity) (w : world) : Prop :=
  ∀ f x, fh0 !! f = Some x →
    fixHeap w !! f = Some x
    ∨ (resolved_on_production be p x
       ∧ fixHeap w !! f = Some (with_fixStatus PUBLISHED x)).

(** Since the trace was [t0], [e] was recorded. *)
Definition recorded (e : event) (t0 : list event) (w : world) : Prop :=
  ∃ t, trace w = (t0 ++ t)%list ∧ e ∈ t.

(** The object behind [r] is marked as fixed. *)
Definition marked_fixed (r : nat) (w : world) : Prop :=
  ∃ s', heap w !! r = Some s' ∧ status s' = FIXED.

(** What awaiting the check of one candidate gives. *)
Definition fixedAnswer (p : ReconcileParams) (h : list suggestion) (x : nat)
    : outcome (nat * value) :=
  match isIssueFixedWithAISuggestion p with
  | None => Ok (x, VUndefined)
  | Some isFixed =>
      match isFixed (getObject h x) with
      | Ok v => Ok (x, v)
      | Throw e => Throw e
      end
  end.

(** The last three filters of the outdating step, on the object itself. *)
Definition object_outdatable (urls : option (gset string)) (s : suggestion)
    : bool :=
  negb (includes notOutdatable (status s))
  && negb (truthy (prop (data s) "tokowakaDeployed")
           || truthy (prop (data s) "edgeDeployed"))
  && match urls with
     | Some set =>
         truthy (prop (data s) "url") && has_value set (prop (data s) "url")
     | None => true
     end.

(** Same identifier, status and data: all but the actor stamp. *)
Definition same_content (s1 s2 : suggestion) : Prop :=
  sid s2 = sid s1 ∧ status s2 = status s1 ∧ data s2 = data s1.

(** The store creates every record it is given, as given. *)
Definition creates_as_given (be : Backend) : Prop :=
  ∀ records reply,
    addSuggestions_reply be records = Ok reply →
    ∃ created,
      createdItems reply = Some created
      ∧ Forall2 (λ c n, data c = ns_data n
                      ∧ ∀ st, ns_status n = Some st → status c = st)
          created records.

(** The builder keeps the finding: the data it builds has the key of the
    finding and every property of the finding. *)
Definition builder_keeps_finding (p : SyncParams) : Prop :=
  ∀ d, d ∈ newData p →
    buildKey p (ns_data (mapNewSuggestion p d)) = buildKey p d
    ∧ d ⊆ ns_data (mapNewSuggestion p d).

(** Merging a finding into data of the same key does not change the key. *)
Definition key_stable (p : SyncParams) : Prop :=
  ∀ e d, d ∈ newData p → buildKey p e = buildKey p d →
    buildKey p (d ∪ e) = buildKey p d.

(** A log line. *)
Definition is_log (e : event) : Prop := ∃ lvl msg, e = EvLog lvl msg.

(** The log lines of the outdating step. *)
Definition outdatingLogs (st : Status) (selected : list nat) : list event :=
  EvLog Info (MsgFinalCount st (length selected))
  :: (if (0 <? length selected)%nat && (length selected <=? 10)%nat
      then [EvLog Debug (MsgOutdatedSample selected)]
      else if (10 <? length selected)%nat
           then [EvLog Debug (MsgOutdatedSample (take 10 selected))]
           else []).

(** An event that is neither a save of a suggestion nor a batch create. *)
Definition writes_nothing (e : event) : Prop :=
  (∀ r, e ≠ EvSave r) ∧ (∀ records, e ≠ EvAddSuggestions records).

(** What the turn of a matched suggestion makes of its object. *)
Definition merged_from (p : SyncParams) (ctx : Context) (s : suggestion)
    (item : option Data) (s' : suggestion) : Prop :=
  data s' = default defaultMergeDataFunction (mergeDataFunction p) (data s) item
  ∧ updatedBy s' = Some "system"
  ∧ sid s' = sid s
  ∧ ∀ f, mergeStatusFunction p = Some f →
         status s' = default (status s) (f (with_data (data s') s) item ctx).

Definition is_addSuggestions (e : event) : bool :=
  match e with
  | EvAddSuggestions _ => true
  | _ => false
  end.

(** An invariant that survives any change to the fix entity objects. *)
Definition fixHeap_blind (I : world → Prop) : Prop :=
  ∀ w fh, I w → I (set_fixHeap fh w).

(** What a [save] promise holds: it is resolved, or rejected with an error of
    the store. *)
Definition save_promise (be : Backend) (o : outcome unit) : Prop :=
  o = Ok tt ∨ ∃ s' e', save_rejects be s' = Some e' ∧ o = Throw e'.

(** The object behind [r] has the identifier [id]. *)
Definition has_sid (r : nat) (id : string) (w : world) : Prop :=
  ∃ s, heap w !! r = Some s ∧ sid s = id.

(** The check of the reconciler finds the suggestion fixed. *)
Definition found_fixed (p : ReconcileParams) (s : suggestion) : Prop :=
  status s = NEW
  ∧ ∃ isFixed answer,
      isIssueFixedWithAISuggestion p = Some isFixed
      ∧ isFixed s = Ok answer
      ∧ truthy answer = true.

Definition is_addFixEntities (e : event) : bool :=
  match e with
  | EvAddFixEntities _ => true
  | _ => false
  end.

(** The events of the disappearance reconciler. *)
Definition reconcile_event (e : event) : bool :=
  match e with
  | EvLog _ _ | EvIsIssueFixedWithAISuggestion _ | EvSave _
  | EvBuildFixEntityPayload _ | EvAddFixEntities _ => true
  | _ => false
  end.

(** The events of the fix publication pipeline, and log lines. *)
Definition publish_event (e : event) : bool :=
  match e with
  | EvLog _ _ => true
  | _ => publication_event e
  end.

(** The opportunity's type is not one of the author-only types. *)
Definition publishes (o : Opportunity) : Prop :=
  ∀ type, opportunityType o = Some type →
          type ∉ AUTHOR_ONLY_OPPORTUNITY_TYPES.

(** The store has no suggestion for the identifier: the lookup rejects, or its
    answer has no [data] or an empty one. *)
Definition no_suggestion (be : Backend) (id : string) : Prop :=
  (∃ e, getFixEntitiesBySuggestionId_reply be id = Throw e)
  ∨ getFixEntitiesBySuggestionId_reply be id = Ok None
  ∨ getFixEntitiesBySuggestionId_reply be id = Ok (Some []).

(** The data of the valid entries, in their order. *)
Definition validData (entries : list entry) : list Data :=
  omap (λ s, if hasRequiredFields s then s else None) entries.

(** The entries of the message, when [data.suggestions] is an array. *)
Definition entriesOf (message : Message) : list entry :=
  match m_data message with
  | Some data =>
      match md_suggestions data with
      | SuggestionArray entries => entries
      | _ => []
      end
  | None => []
  end.

(** A record that the handler makes of a valid entry of the message. *)
Definition from_valid_entry (message : Message) (n : new_suggestion) : Prop :=
  Some (ns_data n) ∈ entriesOf message
  ∧ truthy (prop (ns_data n) "imageUrl") = true
  ∧ truthy (prop (ns_data n) "semanticHtml") = true
  ∧ ns_type n = "SUGGESTION_CODE"
  ∧ ns_rank n = 0%Z
  ∧ (ns_status n = Some NEW ∨ ns_status n = Some PENDING_VALIDATION).

(** The handler's url for the opportunity: [data?.url || message.url]. *)
Definition urlOf (message : Message) : value :=
  match m_data message with
  | Some data => if truthy (md_url data) then md_url data else m_url message
  | None => m_url message
  end.

(** [data.suggestions] is missing or an array. *)
Definition well_formed (message : Message) : Prop :=
  ∀ data, m_data message = Some data → md_suggestions data ≠ NotAnArray.

(** A call of [convertToOpportunity]. *)
Definition is_convertToOpportunity (e : guidance_event) : Prop :=
  ∃ url siteId auditId, e = GConvertToOpportunity url siteId auditId.

(** From [hw] to [hw'] no opportunity changed and [convertToOpportunity] was
    not called. *)
Definition opportunities_kept (hw hw' : hworld) : Prop :=
  opportunities hw' = opportunities hw
  ∧ ∃ t, calls hw' = (calls hw ++ t)%list
         ∧ Forall (λ e, ¬ is_convertToOpportunity e) t.

(** ** The stages, call by call

    What the reconciler and the publication pipeline record and build, as
    functions of the objects at the start of the run; the runs of the two
    stages are shown below to record exactly this. *)

(** The object that the reconciler marks as fixed. *)
Definition fixedObject (s : suggestion) : suggestion :=
  with_updatedBy "system" (with_status FIXED s).

(** The object behind [x] after the setters of its turn. *)
Definition markedObject (h : list suggestion) (x : nat) : suggestion :=
  getObject (alter fixedObject x h) x.

(** The calls and log lines of the turn of [x] in the loop over the fixed
    suggestions, on the objects [h] of the start. *)
Definition markFixedTrace (be : Backend) (p : ReconcileParams)
    (h : list suggestion) (x : nat) : list event :=
  EvLog Debug (MsgMarkingFixed (getId h x)) :: EvSave x ::
  match save_rejects be (markedObject h x) with
  | Some e => [EvLog Warn (MsgFailedMarkFixed (getId h x) e)]
  | None =>
      match buildFixEntityPayload p with
      | Some build =>
          EvBuildFixEntityPayload x ::
          match build (markedObject h x) (r_opportunity p) (isAuthorOnly p) with
          | Throw e => [EvLog Warn (MsgFailedBuildFix (getId h x) e)]
          | Ok _ => []
          end
      | None => []
      end
  end.

(** The payload that the turn of [x] pushes, if any. *)
Definition markFixedPayload (be : Backend) (p : ReconcileParams)
    (h : list suggestion) (x : nat) : option fix_payload :=
  match save_rejects be (markedObject h x), buildFixEntityPayload p with
  | None, Some build =>
      match build (markedObject h x) (r_opportunity p) (isAuthorOnly p) with
      | Ok (Some payload) => Some payload
      | _ => None
      end
  | _, _ => None
  end.

(** The suggestions in status NEW among the disappeared ones. *)
Definition candidatesOf (p : ReconcileParams) (h : list suggestion)
    : list nat :=
  List.filter (λ s, bool_decide (getStatus h s = NEW))
    (disappearedSuggestions p).

(** The candidates that the fix check finds fixed. *)
Definition fixedSuggestionsOf (p : ReconcileParams) (h : list suggestion)
    : list nat :=
  List.map fst
    (List.filter (λ r : nat * value, truthy r.2)
       (omap id (List.map (λ x, settled (fixedAnswer p h x))
                   (candidatesOf p h)))).

(** The calls of the fix check. *)
Definition fixCheckCalls (p : ReconcileParams) (candidates : list nat)
    : list event :=
  match isIssueFixedWithAISuggestion p with
  | Some _ => List.map EvIsIssueFixedWithAISuggestion candidates
  | None => []
  end.

(** The batch of fix entities and its log line. *)
Definition addFixEntitiesTrace (be : Backend) (p : ReconcileParams)
    (payloads : list fix_payload) : list event :=
  if (0 <? length payloads)%nat && hasAddFixEntities (r_opportunity p) then
    [EvAddFixEntities payloads;
     match addFixEntities_rejects be payloads with
     | Some e =>
         EvLog Warn
           (MsgFailedAddFixEntities (opportunityId (r_opportunity p)) e)
     | None =>
         EvLog Info
           (MsgAddedFixEntities (length payloads)
              (opportunityId (r_opportunity p)))
     end]
  else [].

(** Everything the reconciler records, on the objects [h] of the start. *)
Definition reconcileTrace (be : Backend) (p : ReconcileParams)
    (h : list suggestion) : list event :=
  if (length (candidatesOf p h) =? 0)%nat then []
  else
    fixCheckCalls p (candidatesOf p h)
    ++ concat (List.map (markFixedTrace be p h) (fixedSuggestionsOf p h))
    ++ addFixEntitiesTrace be p
         (omap (markFixedPayload be p h) (fixedSuggestionsOf p h)).

(** The object behind [x] is as it was at the start, or marked. *)
Definition at_start_or_fixed (h0 : list suggestion) (x : nat) (w : world)
    : Prop :=
  heap w !! x = h0 !! x ∨ heap w !! x = fixedObject <$> h0 !! x.

(** What [await Promise.all(promises)] gives. *)
Fixpoint awaited {A} (promises : list (outcome A)) : outcome (list A) :=
  match promises with
  | [] => Ok []
  | Ok a :: rest =>
      match awaited rest with
      | Ok others => Ok (a :: others)
      | Throw e => Throw e
      end
  | Throw e :: _ => Throw e
  end.

(** The calls of the production check. *)
Definition resolvedCheckCalls (p : PublishParams) (l : list suggestion)
    : list event :=
  match isIssueResolvedOnProduction p with
  | Some _ => List.map EvIsIssueResolvedOnProduction l
  | None => []
  end.

(** The calls made by the check of the fix entity [x]. *)
Definition checkTrace (be : Backend) (p : PublishParams)
    (keys : option (gset string)) (x : fix_entity) : list event :=
  let ids := default [] (suggestionIds x) in
  if (length ids =? 0)%nat then []
  else
    (List.map EvGetFixEntitiesBySuggestionId ids
     ++ match awaited (List.map (fetched be) ids) with
        | Ok suggestionResults =>
            if fastPathStops p keys suggestionResults then []
            else resolvedCheckCalls p (omap id suggestionResults)
        | Throw _ => []
        end)%list.

(** What the check of the fix entity [x], behind [f], gives. *)
Definition checkOutcome (be : Backend) (p : PublishParams)
    (keys : option (gset string)) (f : nat) (x : fix_entity)
    : outcome (nat * bool) :=
  let ids := default [] (suggestionIds x) in
  if (length ids =? 0)%nat then Ok (f, false)
  else
    match awaited (List.map (fetched be) ids) with
    | Ok suggestionResults =>
        if fastPathStops p keys suggestionResults then Ok (f, false)
        else
          Ok (f,
              forallb (λ r, bool_decide (r = Some (VBool true)))
                (List.map (λ s, settled (resolvedAnswer p s))
                   (omap id suggestionResults)))
    | Throw e => Throw e
    end.

(** The fix entity behind [f] after the setter of its turn. *)
Definition publishedObject (fh : list fix_entity) (f : nat) : fix_entity :=
  alter (with_fixStatus PUBLISHED) f fh !!! f.

(** The call and the log line of one turn of the loop that updates the
    resolved fix entities. *)
Definition publishTrace (be : Backend) (fh : list fix_entity)
    (result : option (nat * bool)) : list event :=
  match result with
  | Some (f, true) =>
      [EvSaveFix f;
       match saveFix_rejects be (publishedObject fh f) with
       | Some e => EvLog Debug (MsgFailedSaveFix e)
       | None => EvLog Info (MsgPublished (fid (publishedObject fh f)))
       end]
  | _ => []
  end.

(** The fix entity that a result asks to publish. *)
Definition toPublish (result : option (nat * bool)) : option nat :=
  match result with
  | Some (f, true) => Some f
  | _ => None
  end.

(** The fix entity behind [f] is as it was at the start, or published. *)
Definition at_start_or_published (fh0 : list fix_entity) (f : nat)
    (w : world) : Prop :=
  fixHeap w !! f = fh0 !! f
  ∨ fixHeap w !! f = with_fixStatus PUBLISHED <$> fh0 !! f.

(** What the checks of the deployed fix entities give. *)
Definition checkResults (be : Backend) (p : PublishParams)
    (fh : list fix_entity) (deployed : list nat) : list (option (nat * bool)) :=
  List.map (λ f, settled (checkOutcome be p (currentDataKeys p) f (fh !!! f)))
    deployed.

(** The pipeline at work: the fix entity APIs are there and the store
    answers the lookup of the deployed fix entities with [deployed]. *)
Definition processes (be : Backend) (p : PublishParams)
    (deployed : list nat) : Prop :=
  ∃ ctx da,
    p_context p = Some ctx
    ∧ dataAccess ctx = Some da
    ∧ hasAllByOpportunityIdAndStatus da = true
    ∧ hasGetFixEntitiesBySuggestionId da = true
    ∧ allByOpportunityIdAndStatus_reply be (p_opportunityId p) DEPLOYED
      = Ok (Some deployed).

(** A suggestion linked to the fix entity: the lookup of one of its linked
    identifiers gives it. *)
Definition linked (be : Backend) (x : fix_entity) (s : suggestion) : Prop :=
  ∃ id, id ∈ default [] (suggestionIds x) ∧ fetched be id = Ok (Some s).

(** The findings of the current run and the key function are given, and the
    key of the suggestion is among the keys of the findings. *)
Definition still_found (p : PublishParams) (s : suggestion) : Prop :=
  ∃ findings buildKey,
    currentAuditData p = Some findings
    ∧ p_buildKey p = Some buildKey
    ∧ buildKey (data s) ∈ List.map buildKey findings.

(** The calls of the check of the fix entity [x]: the lookups of its linked
    identifiers, then the production checks, each on a suggestion linked to
    it, and none when a linked suggestion is still found. *)
Definition checked_as (be : Backend) (p : PublishParams) (x : fix_entity)
    (calls : list event) : Prop :=
  ∃ checked,
    calls
    = (List.map EvGetFixEntitiesBySuggestionId (default [] (suggestionIds x))
       ++ List.map EvIsIssueResolvedOnProduction checked)%list
    ∧ Forall (linked be x) checked
    ∧ ((∃ s, linked be x s ∧ still_found p s) → checked = []).

(** A payload that the given builder made, with the opportunity and the
    author-only flag, of a disappeared suggestion that the fix check found
    fixed, once it was marked as fixed and after its save, recorded in
    [saves], which the store accepted. [h] holds the objects of the start. *)
Definition built_from_saved (be : Backend) (p : ReconcileParams)
    (h : list suggestion) (saves : list event) (payload : fix_payload)
    : Prop :=
  ∃ build r s,
    buildFixEntityPayload p = Some build
    ∧ r ∈ disappearedSuggestions p
    ∧ h !! r = Some s
    ∧ found_fixed p s
    ∧ EvSave r ∈ saves
    ∧ save_rejects be (with_updatedBy "system" (with_status FIXED s)) = None
    ∧ build (with_updatedBy "system" (with_status FIXED s)) (r_opportunity p)
        (isAuthorOnly p) = Ok (Some payload).

(** * Properties of the program *)

(** * Reasoning about computations *)

Lemma foldr_alter_notin {A} (f : A → A) (refs : list nat) (h : list A) r :
  r ∉ refs → foldr (alter f) h refs !! r = h !! r.
Proof.
  induction refs as [|x refs IH]; simpl; [done|].
  intros Hr. apply not_elem_of_cons in Hr as [Hne Hr].
  rewrite list_lookup_alter_ne by done. auto.
Qed.

Lemma foldr_alter_in {A} (f : A → A) (refs : list nat) (h : list A) r :
  (∀ x, f (f x) = f x) →
  r ∈ refs → foldr (alter f) h refs !! r = f <$> h !! r.
Proof.
  intros Hf. induction refs as [|x refs IH]; simpl.
  { intros Hr. by apply elem_of_nil in Hr. }
  intros Hr. destruct (decide (x = r)) as [->|Hne].
  - rewrite list_lookup_alter_eq. destruct (decide (r ∈ refs)) as [Hin|Hnin].
    + rewrite IH by done. destruct (h !! r); simpl; by rewrite ?Hf.
    + by rewrite foldr_alter_notin.
  - rewrite list_lookup_alter_ne by done. apply IH.
    apply elem_of_cons in Hr as [->|]; done.
Qed.

Ltac unfold_M :=
  unfold log, emit, settle, lift, promise, mbind, M_bind, mret, M_ret, bind,
    ret, throw, tryCatch, gets, modify in *.

(** The heap after the outdating step: some of the selected suggestions
    have the target status. *)
Lemma handleOutdatedSuggestions_heap be buildKey ctx l keys target urls w :
  let w' := (handleOutdatedSuggestions be buildKey ctx l keys target urls w).2 in
  ∃ transitioned,
    (∀ r, r ∈ transitioned →
          r ∈ existingOutdatedSuggestions buildKey (heap w) l keys urls)
    ∧ heap w' = foldr (alter (with_status (default OUTDATED target))) (heap w)
                  transitioned.
Proof.
  unfold handleOutdatedSuggestions, bulkUpdateStatus.
  assert (∀ (sel : list nat) (h : list suggestion),
            (∀ r : nat, r ∈ [] → r ∈ sel)
            ∧ h = foldr (alter (with_status (default OUTDATED target))) h [])
    as Hnil.
  { intros sel h. split; [|done]. intros r Hr. by apply elem_of_nil in Hr. }
  destruct (dataAccess ctx); [|eexists; apply Hnil].
  unfold_M. simpl.
  set (sel := existingOutdatedSuggestions _ _ _ _ _).
  assert (∀ q r, r ∈ List.filter q sel → r ∈ sel) as Hsub.
  { intros q r Hr. apply list_elem_of_In, filter_In in Hr as [Hr _].
    by apply list_elem_of_In. }
  repeat case_match; simplify_eq/=;
    first [ by (eexists; apply Hnil)
          | by (exists sel)
          | by (eexists; split; [apply Hsub|done]) ].
Qed.

(** ** Invariants of the world *)

Section Pres.
Context (I : world → Prop).

Lemma pres_ret {A} (a : A) : pres I (mret a).
Proof. by intros w. Qed.

Lemma pres_throw {A} e : pres I (@throw A e).
Proof. by intros w. Qed.

Lemma pres_gets {A} (f : world → A) : pres I (gets f).
Proof. by intros w. Qed.

Lemma pres_lift {A} (o : outcome A) : pres I (lift o).
Proof. by intros w. Qed.

Lemma pres_settle r : pres I (settle r).
Proof. destruct r; by intros w. Qed.

Lemma pres_modify f : (∀ w, I w → I (f w)) → pres I (modify f).
Proof. intros H w. apply H. Qed.

Lemma pres_bind {A B} (m : M A) (k : A → M B) :
  pres I m → (∀ a, pres I (k a)) → pres I (m ≫= k).
Proof.
  intros Hm Hk w Hw. specialize (Hm w Hw). unfold_M.
  destruct (m w) as [[a|e] w']; simpl in *; [by apply Hk|done].
Qed.

Lemma pres_gets_bind {A B} (f : world → A) (k : A → M B) :
  (∀ w0, I w0 → pres I (k (f w0))) → pres I (gets f ≫= k).
Proof. intros Hk w Hw. by apply (Hk w Hw w). Qed.

Lemma pres_tryCatch {A} (m : M A) handler :
  pres I m → (∀ e, pres I (handler e)) → pres I (tryCatch m handler).
Proof.
  intros Hm Hh w Hw. specialize (Hm w Hw). unfold_M.
  destruct (m w) as [[a|e] w']; simpl in *; [done|by apply Hh].
Qed.

Lemma pres_promise {A} (m : M A) : pres I m → pres I (promise m).
Proof.
  intros Hm w Hw. specialize (Hm w Hw). unfold_M.
  by destruct (m w) as [o w'].
Qed.

Lemma pres_awaitAll {A} (ps : list (outcome A)) : pres I (awaitAll ps).
Proof.
  induction ps as [|[a|e] ps IH]; simpl; [by apply pres_ret| |by apply pres_throw].
  apply pres_bind; [done|]. intros. apply pres_ret.
Qed.

Lemma pres_mapM {A B} (f : A → M B) (l : list A) :
  (∀ x, x ∈ l → pres I (f x)) → pres I (mapM f l).
Proof.
  induction l as [|x l IH]; intros Hf; simpl; [by apply pres_ret|].
  apply pres_bind; [apply Hf; left|]. intros y.
  apply pres_bind; [apply IH; intros; apply Hf; by right|].
  intros. apply pres_ret.
Qed.

Lemma pres_foldM {A B} (f : B → A → M B) (l : list A) acc :
  (∀ b x, x ∈ l → pres I (f b x)) → pres I (foldM f acc l).
Proof.
  revert acc. induction l as [|x l IH]; intros acc Hf; simpl; [by apply pres_ret|].
  apply pres_bind; [apply Hf; left|]. intros b.
  apply IH. intros; apply Hf; by right.
Qed.

Lemma pres_limitConcurrencyAllSettled {A} (tasks : list (M A)) n :
  (∀ t, t ∈ tasks → pres I t) → pres I (limitConcurrencyAllSettled tasks n).
Proof.
  intros Ht. apply pres_mapM. intros t Hin w Hw.
  specialize (Ht t Hin w Hw). by destruct (t w) as [[a|e] w'].
Qed.
End Pres.

Lemma pres_emit I e : trace_blind I → pres I (emit e).
Proof. intros H w Hw. by apply H. Qed.

Lemma pres_log I lvl msg : trace_blind I → pres I (log lvl msg).
Proof. apply pres_emit. Qed.

Ltac pres_step :=
  match goal with
  | |- pres _ (mret _) => apply pres_ret
  | |- pres _ (ret _) => apply pres_ret
  | |- pres _ (throw _) => apply pres_throw
  | |- pres _ (gets _) => apply pres_gets
  | |- pres _ (lift _) => apply pres_lift
  | |- pres _ (settle _) => apply pres_settle
  | |- pres _ (log _ _) => apply pres_log
  | |- pres _ (emit _) => apply pres_emit
  | |- pres _ (awaitAll _) => apply pres_awaitAll
  | |- pres _ (promise _) => apply pres_promise
  | |- pres _ (tryCatch _ _) => apply pres_tryCatch; [|intros ?]
  | |- pres _ (_ ≫= _) => apply pres_bind; [|intros ?]
  | |- pres _ (match ?x with _ => _ end) => destruct x
  | |- pres _ (if ?x then _ else _) => destruct x
  | |- pres _ (let '(_, _) := ?x in _) => destruct x
  end.

Ltac pres_auto := repeat pres_step.

Lemma keeps_trace_blind r s : trace_blind (keeps r s).
Proof. by intros w t. Qed.
#[export] Hint Resolve keeps_trace_blind : core.

Lemma pres_update_ne r s f x : x ≠ r → pres (keeps r s) (update f x).
Proof.
  intros Hne. apply pres_modify. intros w Hw. unfold keeps in *. simpl.
  by rewrite list_lookup_alter_ne.
Qed.

Lemma pres_getSuggestions be I : trace_blind I → pres I (getSuggestions be).
Proof. intros. unfold getSuggestions. pres_auto; done. Qed.

Lemma pres_save be I r : trace_blind I → pres I (save be r).
Proof. intros. unfold save. pres_auto; done. Qed.

Lemma pres_defaultMergeStatusFunction I x d ctx :
  trace_blind I → pres I (defaultMergeStatusFunction x d ctx).
Proof. intros. unfold defaultMergeStatusFunction. pres_auto; done. Qed.

Lemma pres_updateExisting_ne be p ctx byKey r s x :
  x ≠ r → pres (keeps r s) (updateExisting be p ctx byKey x).
Proof.
  intros Hne. unfold updateExisting, setData, setStatus, setUpdatedBy.
  pres_auto; auto using pres_update_ne, pres_save, pres_defaultMergeStatusFunction.
Qed.

Lemma pres_addSuggestions be r s records :
  pres (keeps r s) (addSuggestions be records).
Proof.
  unfold addSuggestions. pres_auto; auto.
  apply pres_modify. intros w Hw. unfold keeps in *. simpl.
  by apply lookup_app_l_Some.
Qed.

Lemma pres_createNew be p ctx keys r s :
  pres (keeps r s) (createNew be p ctx keys).
Proof.
  unfold createNew, reportCreateErrors.
  pres_auto; auto using pres_addSuggestions.
  all: try (apply pres_mapM; intros [] _; pres_auto; auto).
Qed.

Lemma elem_of_List_filter {A} (f : A → bool) (l : list A) x :
  x ∈ List.filter f l ↔ x ∈ l ∧ f x = true.
Proof. rewrite !list_elem_of_In. apply filter_In. Qed.

Lemma getObject_lookup h r s : h !! r = Some s → getObject h r = s.
Proof. apply list_lookup_total_correct. Qed.

(** Who the outdating step selects. *)
Lemma existingOutdatedSuggestions_spec buildKey h l keys urls r :
  r ∈ existingOutdatedSuggestions buildKey h l keys urls ↔
    r ∈ l
    ∧ (buildKey (getData h r) ∉ keys)
    ∧ (getStatus h r ∉ notOutdatable)
    ∧ truthy (prop (getData h r) "tokowakaDeployed") = false
    ∧ truthy (prop (getData h r) "edgeDeployed") = false
    ∧ match urls with
      | Some set =>
          truthy (prop (getData h r) "url") = true
          ∧ has_value set (prop (getData h r) "url") = true
      | None => True
      end.
Proof.
  unfold existingOutdatedSuggestions, includes.
  rewrite !elem_of_List_filter, !negb_true_iff, orb_false_iff,
    !bool_decide_eq_false.
  destruct urls; rewrite ?andb_true_iff; tauto.
Qed.

Lemma handleOutdatedSuggestions_lookup be buildKey ctx l keys target urls w r :
  r ∉ existingOutdatedSuggestions buildKey (heap w) l keys urls →
  heap (handleOutdatedSuggestions be buildKey ctx l keys target urls w).2 !! r
  = heap w !! r.
Proof.
  intros Hr.
  destruct (handleOutdatedSuggestions_heap be buildKey ctx l keys target urls w)
    as (transitioned & Hsub & ->).
  apply foldr_alter_notin. intros Hin. by apply Hr, Hsub.
Qed.

(** C2: an existing suggestion whose data has a truthy [tokowakaDeployed] or
    [edgeDeployed] is never selected by the outdating step of synchronize, and
    the step leaves its object, status included, as it was: whatever the
    finding keys, the target status and the scraped set are. *)
Theorem deployed_never_outdated be buildKey ctx l keys target urls w r s :
  heap w !! r = Some s →
  truthy (prop (data s) "tokowakaDeployed") = true
  ∨ truthy (prop (data s) "edgeDeployed") = true →
  (r ∉ existingOutdatedSuggestions buildKey (heap w) l keys urls)
  ∧ heap (handleOutdatedSuggestions be buildKey ctx l keys target urls w).2 !! r
    = Some s.
Proof.
  intros Hs Hdep.
  assert (r ∉ existingOutdatedSuggestions buildKey (heap w) l keys urls) as Hr.
  { rewrite existingOutdatedSuggestions_spec. unfold getData.
    rewrite (getObject_lookup _ _ _ Hs). intros (_ & _ & _ & H1 & H2 & _).
    destruct Hdep; congruence. }
  split; [done|]. by rewrite handleOutdatedSuggestions_lookup.
Qed.

Lemma pres_handleOutdatedSuggestions_no_url be buildKey ctx l keys target set r s :
  truthy (prop (data s) "url") = false →
  pres (keeps r s)
    (handleOutdatedSuggestions be buildKey ctx l keys target (Some set)).
Proof.
  intros Hurl w Hw. unfold keeps in *.
  rewrite handleOutdatedSuggestions_lookup; [done|].
  rewrite existingOutdatedSuggestions_spec. unfold getData.
  rewrite (getObject_lookup _ _ _ Hw). intros (_ & _ & _ & _ & _ & H & _).
  congruence.
Qed.

Lemma pres_updateMatched be p ctx byKey (keys : gset string) l r s w0 :
  buildKey p (data s) ∉ keys →
  keeps r s w0 →
  pres (keeps r s)
    (mapM (updateExisting be p ctx byKey)
       (List.filter (λ existing,
          bool_decide (buildKey p (getData (heap w0) existing) ∈ keys)) l)).
Proof.
  intros Hkey Hw0.
  apply pres_mapM. intros x Hx. apply pres_updateExisting_ne. intros ->.
  apply elem_of_List_filter in Hx as [_ Hx]. apply bool_decide_eq_true in Hx.
  unfold getData in Hx. by rewrite (getObject_lookup _ _ _ Hw0) in Hx.
Qed.

(** C10: with a scraped set, a suggestion whose data has no truthy [url] is
    never selected by the outdating step, whatever its key and status are (the
    set is tested on the [url], not on the key), and synchronize leaves it as
    it was when its key is not among the keys of the findings. *)
Theorem no_url_never_outdated be p w r s set :
  scrapedUrlsSet p = Some set →
  heap w !! r = Some s →
  truthy (prop (data s) "url") = false →
  (∀ ctx l,
     (r ∉ existingOutdatedSuggestions (buildKey p) (heap w) l
            (list_to_set (List.map (buildKey p) (newData p))) (Some set))
     ∧ heap (handleOutdatedSuggestions be (buildKey p) ctx l
               (list_to_set (List.map (buildKey p) (newData p)))
               (statusToSetForOutdated p) (Some set) w).2 !! r = Some s)
  ∧ (buildKey p (data s) ∉ List.map (buildKey p) (newData p) →
     heap (syncSuggestions be p w).2 !! r = Some s).
Proof.
  intros Hset Hs Hurl. split.
  - intros ctx l.
    assert (r ∉ existingOutdatedSuggestions (buildKey p) (heap w) l
                  (list_to_set (List.map (buildKey p) (newData p))) (Some set)) as Hr.
    { rewrite existingOutdatedSuggestions_spec. unfold getData.
      rewrite (getObject_lookup _ _ _ Hs). intros (_ & _ & _ & _ & _ & H & _).
      congruence. }
    split; [done|]. by rewrite handleOutdatedSuggestions_lookup.
  - intros Hkey. revert w Hs. change (pres (keeps r s) (syncSuggestions be p)).
    unfold syncSuggestions. destruct (context p) as [ctx|]; [|apply pres_ret].
    apply pres_bind.
    { destruct (existingSuggestions p); [apply pres_ret|by apply pres_getSuggestions]. }
    intros l. apply pres_bind; [apply pres_gets|]. intros h0.
    rewrite Hset.
    apply pres_bind; [by apply pres_handleOutdatedSuggestions_no_url|]. intros _.
    apply pres_bind; [by apply pres_log|]. intros _.
    apply pres_gets_bind. intros w0 Hw0.
    apply pres_bind.
    { apply pres_updateMatched; [|done]. by rewrite elem_of_list_to_set. }
    intros promises. apply pres_bind; [apply pres_awaitAll|]. intros _.
    apply pres_bind; [by apply pres_log|]. intros _.
    apply pres_createNew.
Qed.

Lemma existingOutdatedSuggestions_filter buildKey h l keys urls :
  existingOutdatedSuggestions buildKey h l keys urls
  = List.filter (outdatable buildKey h keys urls) l.
Proof.
  unfold existingOutdatedSuggestions, outdatable.
  induction l as [|x l IH]; [done|]. simpl.
  destruct (bool_decide (buildKey (getData h x) ∈ keys)); simpl; [done|].
  destruct (includes notOutdatable (getStatus h x)); simpl; [done|].
  destruct (truthy (prop (getData h x) "tokowakaDeployed")
            || truthy (prop (getData h x) "edgeDeployed")); simpl; [done|].
  destruct urls; [|by rewrite IH].
  destruct (truthy (prop (getData h x) "url")
            && has_value g (prop (getData h x) "url")); by rewrite IH.
Qed.

Lemma handleOutdatedSuggestions_run be buildKey ctx da l keys target urls w :
  dataAccess ctx = Some da →
  let selected := existingOutdatedSuggestions buildKey (heap w) l keys urls in
  bulkUpdateStatus_rejects be selected (default OUTDATED target) = None →
  ∃ w',
    handleOutdatedSuggestions be buildKey ctx l keys target urls w = (Ok tt, w')
    ∧ heap w' = foldr (alter (with_status (default OUTDATED target))) (heap w)
                  selected
    ∧ stored w' = stored w.
Proof.
  intros Hda selected Hbulk.
  unfold handleOutdatedSuggestions, bulkUpdateStatus. rewrite Hda.
  unfold_M. simpl. fold selected. rewrite Hbulk.
  destruct selected eqn:E; simpl; repeat case_match; simplify_eq/=; eauto.
Qed.


Lemma bind_Ok {A B} (m : M A) (k : A → M B) w a w1 :
  m w = (Ok a, w1) → (m ≫= k) w = k a w1.
Proof. intros H. unfold_M. by rewrite H. Qed.

Lemma bind_Throw {A B} (m : M A) (k : A → M B) w e w1 :
  m w = (Throw e, w1) → (m ≫= k) w = (Throw e, w1).
Proof. intros H. unfold_M. by rewrite H. Qed.

Lemma point_bind {A B} (I : world → Prop) (m : M A) (k : A → M B) w :
  I (m w).2 → (∀ a, pres I (k a)) → I ((m ≫= k) w).2.
Proof.
  intros Hm Hk. unfold_M. destruct (m w) as [[a|e] w1]; simpl in *; [by apply Hk|done].
Qed.

Lemma pres_exists {A X} (I : X → world → Prop) (φ : X → Prop) (m : M A) :
  (∀ x, pres (I x) m) → pres (λ w, ∃ x, I x w ∧ φ x) m.
Proof. intros H w (x & Hx & Hφ). exists x. split; [by apply H|done]. Qed.

Lemma defaultStatus_idemp ctx st :
  defaultStatus ctx (defaultStatus ctx st) = defaultStatus ctx st.
Proof. destruct st; simpl; try done. by destruct (siteRequiresValidation ctx). Qed.

(** ** Symbolic execution *)

Lemma run_ret_bind {A B} (a : A) (k : A → M B) w :
  ((mret a : M A) ≫= k) w = k a w.
Proof. done. Qed.
Lemma run_ret'_bind {A B} (a : A) (k : A → M B) w : (ret a ≫= k) w = k a w.
Proof. done. Qed.
Lemma run_throw_bind {A B} e (k : A → M B) w :
  (throw e ≫= k) w = (Throw e, w).
Proof. done. Qed.
Lemma run_gets_bind {A B} (f : world → A) (k : A → M B) w :
  (gets f ≫= k) w = k (f w) w.
Proof. done. Qed.
Lemma run_modify_bind {B} f (k : unit → M B) w :
  (modify f ≫= k) w = k tt (f w).
Proof. done. Qed.
Lemma run_emit_bind {B} e (k : unit → M B) w :
  (emit e ≫= k) w = k tt (set_trace (trace w ++ [e]) w).
Proof. done. Qed.
Lemma run_log_bind {B} lvl msg (k : unit → M B) w :
  (log lvl msg ≫= k) w = k tt (set_trace (trace w ++ [EvLog lvl msg]) w).
Proof. done. Qed.
Lemma run_update_bind {B} f r (k : unit → M B) w :
  (update f r ≫= k) w = k tt (set_heap (alter f r (heap w)) w).
Proof. done. Qed.
Lemma run_bind_assoc {A B C} (m : M A) (k1 : A → M B) (k2 : B → M C) w :
  ((m ≫= k1) ≫= k2) w = (m ≫= (λ a, k1 a ≫= k2)) w.
Proof. unfold_M. by destruct (m w) as [[a|e] w1]. Qed.
Lemma run_ret {A} (a : A) w : (mret a : M A) w = (Ok a, w).
Proof. done. Qed.
Lemma run_ret' {A} (a : A) w : ret a w = (Ok a, w).
Proof. done. Qed.
Lemma run_throw {A} e w : @throw A e w = (Throw e, w).
Proof. done. Qed.
Lemma run_gets {A} (f : world → A) w : gets f w = (Ok (f w), w).
Proof. done. Qed.
Lemma run_modify f w : modify f w = (Ok tt, f w).
Proof. done. Qed.
Lemma run_emit e w : emit e w = (Ok tt, set_trace (trace w ++ [e]) w).
Proof. done. Qed.
Lemma run_log lvl msg w :
  log lvl msg w = (Ok tt, set_trace (trace w ++ [EvLog lvl msg]) w).
Proof. done. Qed.
Lemma run_update f r w :
  update f r w = (Ok tt, set_heap (alter f r (heap w)) w).
Proof. done. Qed.
Lemma run_settle_None w : settle None w = (Ok tt, w).
Proof. done. Qed.
Lemma run_settle_Some e w : settle (Some e) w = (Throw e, w).
Proof. done. Qed.
Lemma run_promise {A} (m : M A) w : promise m w = (Ok (m w).1, (m w).2).
Proof. unfold promise. by destruct (m w). Qed.

Lemma snd_settle r w : (settle r w).2 = w.
Proof. by destruct r. Qed.
Lemma snd_lift {A} (o : outcome A) w : (lift o w).2 = w.
Proof. done. Qed.

Lemma run_settle_None_bind {B} (k : unit → M B) w :
  (settle None ≫= k) w = k tt w.
Proof. done. Qed.
Lemma run_settle_Some_bind {B} e (k : unit → M B) w :
  (settle (Some e) ≫= k) w = (Throw e, w).
Proof. done. Qed.

Create Rewrite HintDb run.
#[export] Hint Rewrite @run_bind_assoc @run_ret_bind @run_ret'_bind
  @run_throw_bind @run_gets_bind @run_modify_bind @run_emit_bind @run_log_bind
  @run_update_bind @run_ret @run_ret' @run_throw @run_gets @run_modify @run_emit
  @run_log @run_update @run_settle_None @run_settle_Some @run_promise
  @snd_settle @snd_lift @run_settle_None_bind @run_settle_Some_bind : run.

Ltac world_simpl :=
  cbn [heap trace stored fixHeap set_heap set_trace set_stored set_fixHeap
       fst snd] in *.

Ltac mrun :=
  repeat (progress (autorewrite with run; cbv beta iota; world_simpl)).

Lemma with_updatedBy_status who s : status (with_updatedBy who s) = status s.
Proof. done. Qed.

(** What one turn of the update does to the object it is called on. *)
Lemma updateExisting_self be p ctx byKey r s w :
  mergeStatusFunction p = None →
  heap w !! r = Some s →
  ∃ s', heap (updateExisting be p ctx byKey r w).2 !! r = Some s'
        ∧ status s' = defaultStatus ctx (status s)
        ∧ data s' = default defaultMergeDataFunction (mergeDataFunction p)
                      (data s) (byKey !! buildKey p (data s))
        ∧ sid s' = sid s.
Proof.
  intros Hm Hs. unfold updateExisting, defaultMergeStatusFunction, save.
  rewrite Hm. unfold setData, setStatus, setUpdatedBy, getStatus, getData.
  mrun. rewrite (getObject_lookup _ _ _ Hs).
  set (d := default defaultMergeDataFunction _ _ _).
  rewrite (getObject_lookup _ _ (with_data d s))
    by (by rewrite list_lookup_alter_eq, Hs).
  simpl status.
  destruct (decide (status s = REJECTED)) as [HR|HR];
    [|destruct (decide (status s = OUTDATED)) as [HO|HO]];
    mrun; rewrite !list_lookup_alter_eq, Hs; simpl;
    (eexists; split; [reflexivity|]); simpl; repeat split; try done.
  - by rewrite HR.
  - by rewrite HO.
  - by destruct (status s).
Qed.

Lemma mapM_cons {A B} (f : A → M B) x l :
  mapM f (x :: l) = f x ≫= λ y, mapM f l ≫= λ ys, mret (y :: ys).
Proof. done. Qed.

(** A loop whose body never throws reaches each of its elements; before the
    first turn on [r], the turns on other elements keep [I]. *)
Lemma mapM_reaches {A B} `{EqDecision A} (f : A → M B) (I J : world → Prop)
    l r :
  (∀ x w, ∃ o, (f x w).1 = Ok o) →
  (∀ x, x ≠ r → pres I (f x)) → (∀ x, pres J (f x)) →
  (∀ w, I w → J (f r w).2) →
  ∀ w, I w → r ∈ l → J (mapM f l w).2.
Proof.
  intros Hok HI HJ Hr. induction l as [|x l IH]; intros w Hw Hin.
  { by apply elem_of_nil in Hin. }
  rewrite mapM_cons. destruct (decide (x = r)) as [->|Hne].
  - apply point_bind; [by apply Hr|].
    intros y. apply pres_bind; [|intros; apply pres_ret].
    apply pres_mapM. intros; apply HJ.
  - apply elem_of_cons in Hin as [->|Hin]; [done|].
    destruct (Hok x w) as [o Ho]. pose proof (HI x Hne w Hw) as Hx.
    destruct (f x w) as [o' w1] eqn:E. simpl in *. subst o'.
    rewrite (bind_Ok _ _ _ _ _ E).
    apply point_bind; [by apply IH|]. intros; apply pres_ret.
Qed.

Lemma updateExisting_Ok be p ctx byKey x w :
  ∃ o, (updateExisting be p ctx byKey x w).1 = Ok o.
Proof.
  unfold updateExisting, defaultMergeStatusFunction, save, setData, setStatus,
    setUpdatedBy.
  destruct (mergeStatusFunction p); mrun; repeat case_match; mrun; eauto.
Qed.

Lemma works_on_run be p w l :
  works_on be p w l →
  match existingSuggestions p with
  | Some prefetched => mret prefetched
  | None => getSuggestions be
  end w = (Ok l, set_trace (match existingSuggestions p with
                            | Some _ => trace w
                            | None => trace w ++ [EvGetSuggestions]
                            end) w).
Proof.
  unfold works_on, getSuggestions. destruct (existingSuggestions p).
  - intros ->. by destruct w.
  - intros [Hr ->]. rewrite Hr. by mrun.
Qed.

Section DefaultStatus.
Context (be : Backend) (p : SyncParams) (ctx : Context)
        (byKey : gmap string Data) (r : nat) (s : suggestion).
Context (Hdefault : mergeStatusFunction p = None).

Definition status_on_track (w : world) : Prop :=
  ∃ s', heap w !! r = Some s'
        ∧ (status s' = status s ∨ status s' = defaultStatus ctx (status s)).

Definition status_merged (w : world) : Prop :=
  ∃ s', heap w !! r = Some s' ∧ status s' = defaultStatus ctx (status s).

Lemma status_merged_on_track w : status_merged w → status_on_track w.
Proof. intros (s' & ? & ?). exists s'. auto. Qed.

Lemma updateExisting_merges w :
  status_on_track w → status_merged (updateExisting be p ctx byKey r w).2.
Proof.
  intros (s' & Hs' & Hst).
  destruct (updateExisting_self be p ctx byKey r s' w Hdefault Hs')
    as (s'' & Hs'' & Hst' & _).
  exists s''. split; [done|]. rewrite Hst'.
  destruct Hst as [->| ->]; [done|apply defaultStatus_idemp].
Qed.

Lemma pres_status_merged_updateExisting x :
  pres status_merged (updateExisting be p ctx byKey x).
Proof.
  destruct (decide (x = r)) as [->|Hne].
  - intros w Hw. by apply updateExisting_merges, status_merged_on_track.
  - apply (pres_exists (keeps r)). intros s'. by apply pres_updateExisting_ne.
Qed.

Lemma pres_status_on_track_updateExisting x :
  pres status_on_track (updateExisting be p ctx byKey x).
Proof.
  destruct (decide (x = r)) as [->|Hne].
  - intros w Hw. by apply status_merged_on_track, updateExisting_merges.
  - apply (pres_exists (keeps r)). intros s'. by apply pres_updateExisting_ne.
Qed.

Lemma mapM_updateExisting_merges l w :
  status_on_track w → r ∈ l →
  status_merged (mapM (updateExisting be p ctx byKey) l w).2.
Proof.
  intros Hw Hin.
  apply (mapM_reaches _ status_on_track status_merged l r); try done.
  - apply updateExisting_Ok.
  - intros; apply pres_status_on_track_updateExisting.
  - apply pres_status_merged_updateExisting.
  - apply updateExisting_merges.
Qed.
End DefaultStatus.

Lemma trans_bind {A B} (I Q : world → Prop) (m : M A) (k : A → M B) w :
  I (m w).2 → (∀ w1, I w1 → Q w1) → (∀ a w1, I w1 → Q (k a w1).2) →
  Q ((m ≫= k) w).2.
Proof.
  intros Hm HIQ Hk. unfold_M.
  destruct (m w) as [[a|e] w1]; simpl in *; auto.
Qed.

Lemma pres_handleOutdatedSuggestions_matched be buildKey ctx l (keys : gset string)
    target urls r s :
  buildKey (data s) ∈ keys →
  pres (keeps r s) (handleOutdatedSuggestions be buildKey ctx l keys target urls).
Proof.
  intros Hkey w Hw. unfold keeps in *.
  rewrite handleOutdatedSuggestions_lookup; [done|].
  rewrite existingOutdatedSuggestions_spec. unfold getData.
  rewrite (getObject_lookup _ _ _ Hw). by intros (_ & H & _).
Qed.

(** What follows the update loop leaves the existing objects alone. *)
Lemma pres_sync_tail be p ctx n keys r s (promises : list (outcome unit)) :
  pres (keeps r s)
    (awaitAll promises ≫= λ _,
       log Debug (MsgUpdatedExisting n) ≫= λ _, createNew be p ctx keys).
Proof.
  apply pres_bind; [apply pres_awaitAll|]. intros _.
  apply pres_bind; [by apply pres_log|]. intros _. apply pres_createNew.
Qed.

(** C3: under the default status merge, synchronize leaves a suggestion whose
    key matches a finding in status REJECTED if it was, leaves every status
    other than OUTDATED unchanged, and moves OUTDATED to PENDING_VALIDATION
    when the site requires validation and to NEW otherwise (for a suggestion
    the run works on, when the store accepts the status updates). *)
Theorem default_status_merge be p ctx w r s :
  context p = Some ctx →
  mergeStatusFunction p = None →
  heap w !! r = Some s →
  buildKey p (data s) ∈ List.map (buildKey p) (newData p) →
  ∃ s', heap (syncSuggestions be p w).2 !! r = Some s'
    ∧ (status s = REJECTED → status s' = REJECTED)
    ∧ (status s ≠ OUTDATED → status s' = status s)
    ∧ (status s = OUTDATED →
       ∀ l, works_on be p w l → r ∈ l →
         is_Some (dataAccess ctx) →
         (∀ refs st, bulkUpdateStatus_rejects be refs st = None) →
         status s' = if siteRequiresValidation ctx
                     then PENDING_VALIDATION else NEW).
Proof.
  intros Hctx Hdefault Hs Hkey.
  set (keys := list_to_set (List.map (buildKey p) (newData p)) : gset string).
  assert (buildKey p (data s) ∈ keys) as Hkey'
    by (by apply elem_of_list_to_set).
  assert (status_on_track ctx r s (syncSuggestions be p w).2) as Htrack.
  { unfold syncSuggestions. rewrite Hctx. fold keys.
    apply (trans_bind (keeps r s)).
    { destruct (existingSuggestions p); [done|by apply pres_getSuggestions]. }
    { intros w1 Hw1. exists s. auto. }
    intros l wA HwA. rewrite run_gets_bind.
    apply (trans_bind (keeps r s)).
    { by apply pres_handleOutdatedSuggestions_matched. }
    { intros w1 Hw1. exists s. auto. }
    intros _ wB HwB.
    apply (trans_bind (keeps r s)); [done|intros w1 Hw1; exists s; auto|].
    intros _ wC HwC. rewrite run_gets_bind.
    apply point_bind.
    - apply pres_mapM; [|exists s; auto].
      intros x _. by apply pres_status_on_track_updateExisting.
    - intros promises. apply (pres_exists (keeps r)). intros s'.
      apply pres_sync_tail. }
  destruct Htrack as (s' & Hs' & Hst). exists s'. split; [done|].
  split; [|split].
  - intros HR. rewrite HR in Hst. by destruct Hst.
  - intros HO. destruct Hst as [?|Hst]; [done|]. rewrite Hst.
    by destruct (status s).
  - intros HO l Hl Hin [da Hda] Hbulk.
    assert (status_merged ctx r s (syncSuggestions be p w).2) as Hmerged.
    { unfold syncSuggestions. rewrite Hctx. fold keys.
      rewrite (bind_Ok _ _ _ _ _ (works_on_run be p w l Hl)).
      rewrite run_gets_bind. world_simpl.
      set (wA := set_trace _ w).
      destruct (handleOutdatedSuggestions_run be (buildKey p) ctx da l keys
                  (statusToSetForOutdated p) (scrapedUrlsSet p) wA Hda
                  (Hbulk _ _)) as (wB & HB & Hheap & _).
      assert (keeps r s wB) as HwB.
      { pose proof (pres_handleOutdatedSuggestions_matched be (buildKey p) ctx l
                      keys (statusToSetForOutdated p) (scrapedUrlsSet p) r s
                      Hkey' wA Hs) as H.
        by rewrite HB in H. }
      rewrite (bind_Ok _ _ _ _ _ HB). rewrite run_log_bind, run_gets_bind.
      world_simpl.
      apply point_bind.
      - apply mapM_updateExisting_merges; [done|exists s; auto|].
        apply elem_of_List_filter. split; [done|].
        apply bool_decide_eq_true. unfold getData.
        by rewrite (getObject_lookup _ _ _ HwB).
      - intros promises. apply (pres_exists (keeps r)). intros s''.
        apply pres_sync_tail. }
    destruct Hmerged as (s'' & Hs'' & Hst'). rewrite Hs' in Hs''.
    injection Hs'' as <-. rewrite Hst', HO. done.
Qed.

(** ** What a computation can change *)

Lemma suggestions_blind_heap_blind I : suggestions_blind I → heap_blind I.
Proof. intros H w h Hw. apply (H w h (stored w) Hw). Qed.

Lemma trace_blind_accepts I e : trace_blind I → accepts I e.
Proof. intros H w Hw. by apply H. Qed.

Section Effects.
Context (I : world → Prop).

Lemma pres_accepted_emit e : accepts I e → pres I (emit e).
Proof. intros He w Hw. by apply He. Qed.

Lemma pres_accepted_log lvl msg :
  accepts I (EvLog lvl msg) → pres I (log lvl msg).
Proof. apply pres_accepted_emit. Qed.

Lemma pres_blind_update f r : heap_blind I → pres I (update f r).
Proof. intros Hb. apply pres_modify. intros w Hw. by apply Hb. Qed.
End Effects.

Lemma pres_limitConcurrencyAllSettled_map {A B} I (f : A → M B) l n :
  (∀ x, pres I (f x)) →
  pres I (limitConcurrencyAllSettled (List.map f l) n).
Proof.
  intros Hf. apply pres_limitConcurrencyAllSettled.
  intros t Ht. apply list_elem_of_In, in_map_iff in Ht as (x & <- & _).
  apply Hf.
Qed.

Ltac effects_step :=
  match goal with
  | |- pres _ (limitConcurrencyAllSettled (List.map _ _) _) =>
      apply pres_limitConcurrencyAllSettled_map; intros ?
  | |- pres _ (log _ _) => apply pres_accepted_log
  | |- pres _ (emit _) => apply pres_accepted_emit
  | |- pres _ (update _ _) => apply pres_blind_update
  | |- pres _ (setData _ _) => apply pres_blind_update
  | |- pres _ (setStatus _ _) => apply pres_blind_update
  | |- pres _ (setUpdatedBy _ _) => apply pres_blind_update
  | |- pres _ (mapM _ _) => apply pres_mapM; intros ? _
  | |- pres _ (foldM _ _ _) => apply pres_foldM; intros ? ? _
  | |- pres _ (limitConcurrencyAllSettled _ _) =>
      apply pres_limitConcurrencyAllSettled; intros ? _
  | |- pres _ (let '(_, _) := ?x in _) => destruct x
  | _ => pres_step
  end.

Ltac effects_auto := repeat effects_step; try done.

(** The events a synchronize call can record, and that it changes nothing
    but suggestions. *)
Section EffectsOfSync.
Context (be : Backend) (I : world → Prop).
Context (Hblind : heap_blind I).
Context (Hlog : ∀ lvl msg, accepts I (EvLog lvl msg)).

Lemma pres_effects_getSuggestions :
  accepts I EvGetSuggestions → pres I (getSuggestions be).
Proof. intros. unfold getSuggestions. effects_auto. Qed.

Lemma pres_effects_bulkUpdateStatus refs st :
  accepts I (EvBulkUpdateStatus refs st) →
  pres I (bulkUpdateStatus be refs st).
Proof.
  intros. unfold bulkUpdateStatus. effects_auto.
  all: first [ apply pres_throw
             | apply pres_modify; intros w Hw; by apply Hblind ].
Qed.

Lemma pres_effects_save r : accepts I (EvSave r) → pres I (save be r).
Proof. intros. unfold save. effects_auto. Qed.

Lemma pres_effects_addSuggestions records :
  suggestions_blind I →
  accepts I (EvAddSuggestions records) → pres I (addSuggestions be records).
Proof.
  intros Hs ?. unfold addSuggestions. effects_auto.
  apply pres_modify. intros w Hw. by apply Hs.
Qed.

Lemma pres_effects_handleOutdatedSuggestions buildKey ctx l keys target urls :
  (∀ refs st, accepts I (EvBulkUpdateStatus refs st)) →
  pres I (handleOutdatedSuggestions be buildKey ctx l keys target urls).
Proof.
  intros. unfold handleOutdatedSuggestions.
  effects_auto; by apply pres_effects_bulkUpdateStatus.
Qed.

Lemma pres_effects_defaultMergeStatusFunction x d ctx :
  pres I (defaultMergeStatusFunction x d ctx).
Proof. unfold defaultMergeStatusFunction. effects_auto. Qed.

Lemma pres_effects_updateExisting p ctx byKey x :
  (∀ r, accepts I (EvSave r)) → pres I (updateExisting be p ctx byKey x).
Proof.
  intros. unfold updateExisting.
  effects_auto; auto using pres_effects_save,
    pres_effects_defaultMergeStatusFunction.
Qed.

Lemma pres_effects_reportCreateErrors siteId total reply errors :
  pres I (reportCreateErrors siteId total reply errors).
Proof. unfold reportCreateErrors. effects_auto. Qed.

Lemma pres_effects_createNew p ctx keys :
  suggestions_blind I →
  accepts I (EvAddSuggestions (newSuggestions p ctx keys)) →
  pres I (createNew be p ctx keys).
Proof.
  intros. unfold createNew.
  effects_auto; auto using pres_effects_addSuggestions,
    pres_effects_reportCreateErrors.
Qed.

Lemma pres_effects_syncSuggestions p :
  suggestions_blind I →
  accepts I EvGetSuggestions →
  (∀ refs st, accepts I (EvBulkUpdateStatus refs st)) →
  (∀ r, accepts I (EvSave r)) →
  (∀ records, accepts I (EvAddSuggestions records)) →
  pres I (syncSuggestions be p).
Proof.
  intros. unfold syncSuggestions.
  effects_auto; auto using pres_effects_getSuggestions,
    pres_effects_handleOutdatedSuggestions, pres_effects_updateExisting,
    pres_effects_createNew.
Qed.
End EffectsOfSync.

(** ** What a computation adds to the trace *)

Lemma emitted_start Q w : emitted Q (trace w) w.
Proof. exists []. by rewrite app_nil_r. Qed.

Lemma emitted_elem_of Q t0 w t e :
  emitted Q t0 w → trace w = (t0 ++ t)%list → e ∈ t → Q e.
Proof.
  intros (t' & Ht' & Hall) Ht He. rewrite Ht' in Ht.
  apply app_inv_head in Ht as ->. by eapply Forall_forall in Hall.
Qed.

Lemma emitted_weaken (Q Q' : event → Prop) t0 w :
  (∀ e, Q e → Q' e) → emitted Q t0 w → emitted Q' t0 w.
Proof.
  intros H (t & ? & Hall). exists t. split; [done|].
  eapply Forall_impl; eauto.
Qed.

Lemma emitted_suggestions_blind Q t0 : suggestions_blind (emitted Q t0).
Proof. by intros w h l. Qed.

Lemma emitted_heap_blind Q t0 : heap_blind (emitted Q t0).
Proof. by intros w h. Qed.

Lemma emitted_accepts Q t0 e : Q e → accepts (emitted Q t0) e.
Proof.
  intros He w (t & Ht & Hall). exists (t ++ [e])%list. simpl.
  rewrite Ht, app_assoc. split; [done|].
  apply Forall_app. split; [done|]. by constructor.
Qed.

#[export] Hint Resolve emitted_suggestions_blind emitted_heap_blind
  emitted_accepts : core.

Lemma tail_bind {A B} (I : world → Prop) (Φ : outcome B * world → Prop)
    (m : M A) (k : A → M B) w :
  I (m w).2 →
  (∀ e w1, I w1 → Φ (Throw e, w1)) →
  (∀ a w1, I w1 → Φ (k a w1)) →
  Φ ((m ≫= k) w).
Proof.
  intros Hm He Hk. unfold_M.
  destruct (m w) as [[a|e] w1]; simpl in *; auto.
Qed.

Lemma run_lift_bind {A B} (a : A) (k : A → M B) w :
  (lift (Ok a) ≫= k) w = k a w.
Proof. done. Qed.

Lemma bind_ignore_Ok {A B} (m : M A) (k : M B) w :
  (∃ a, (m w).1 = Ok a) → (m ≫= λ _, k) w = k (m w).2.
Proof. intros [a Ha]. unfold_M. destruct (m w) as [[?|?] ?]; naive_solver. Qed.

Lemma mapM_total {A B} (f : A → M B) l w :
  (∀ x w, ∃ b, (f x w).1 = Ok b) → ∃ bs, (mapM f l w).1 = Ok bs.
Proof.
  intros Hf. revert w. induction l as [|x l IH]; intros w; [by eexists|].
  rewrite mapM_cons. destruct (Hf x w) as [b Hb].
  destruct (f x w) as [o w1] eqn:E. simpl in Hb. subst o.
  rewrite (bind_Ok _ _ _ _ _ E). destruct (IH w1) as [bs Hbs].
  destruct (mapM f l w1) as [o w2] eqn:E2. simpl in Hbs. subst o.
  rewrite (bind_Ok _ _ _ _ _ E2). by eexists.
Qed.

(** A call either never gets to the batch create, or ends as the creation of
    the new suggestions ends. *)
Lemma syncSuggestions_reaches_create be p t0 w :
  emitted not_addSuggestions t0 w →
  emitted not_addSuggestions t0 (syncSuggestions be p w).2
  ∨ ∃ ctx keys wk,
      emitted not_addSuggestions t0 wk
      ∧ syncSuggestions be p w = createNew be p ctx keys wk.
Proof.
  intros Hw.
  unfold syncSuggestions. destruct (context p) as [ctx|]; [|by left].
  set (Φ := λ x : outcome unit * world,
         emitted not_addSuggestions t0 x.2
         ∨ ∃ ctx keys wk, emitted not_addSuggestions t0 wk
                          ∧ x = createNew be p ctx keys wk).
  assert (∀ e w1, emitted not_addSuggestions t0 w1 → Φ (Throw e, w1)) as HT
    by (by left).
  apply (tail_bind (emitted not_addSuggestions t0) Φ); [|done|].
  { revert Hw. generalize w. change (pres (emitted not_addSuggestions t0)
      (match existingSuggestions p with
       | Some prefetched => mret prefetched
       | None => getSuggestions be
       end)).
    destruct (existingSuggestions p); [apply pres_ret|].
    apply pres_effects_getSuggestions; auto. by apply emitted_accepts. }
  intros l w1 Hw1. rewrite run_gets_bind.
  apply (tail_bind (emitted not_addSuggestions t0) Φ); [|done|].
  { apply pres_effects_handleOutdatedSuggestions; auto;
      intros; by apply emitted_accepts. }
  intros _ w2 Hw2.
  apply (tail_bind (emitted not_addSuggestions t0) Φ); [|done|].
  { apply pres_accepted_log; [by apply emitted_accepts|done]. }
  intros _ w3 Hw3. rewrite run_gets_bind.
  apply (tail_bind (emitted not_addSuggestions t0) Φ); [|done|].
  { apply pres_mapM; [|done]. intros x _.
    apply pres_effects_updateExisting; auto; intros; by apply emitted_accepts. }
  intros promises w4 Hw4.
  apply (tail_bind (emitted not_addSuggestions t0) Φ); [|done|].
  { by apply pres_awaitAll. }
  intros _ w5 Hw5.
  apply (tail_bind (emitted not_addSuggestions t0) Φ); [|done|].
  { apply pres_accepted_log; [by apply emitted_accepts|done]. }
  intros _ w6 Hw6. right. eauto.
Qed.

Lemma append_assoc (s1 s2 s3 : string) :
  (s1 +:+ s2) +:+ s3 = s1 +:+ (s2 +:+ s3).
Proof.
  induction s1 as [|a s1 IH]; [done|].
  change (String a ((s1 +:+ s2) +:+ s3) = String a (s1 +:+ (s2 +:+ s3))).
  by rewrite IH.
Qed.

Lemma append_nil_r (s : string) : s +:+ "" = s.
Proof.
  induction s as [|a s IH]; [done|].
  change (String a (s +:+ "") = String a s). by rewrite IH.
Qed.

Lemma includes_text_createFailedMessage siteId text :
  includes_text text (createFailedMessage siteId text).
Proof.
  exists ("Failed to create suggestions for siteId " +:+ siteId
          +:+ ". Sample error: "), "".
  unfold createFailedMessage. by rewrite append_nil_r, !append_assoc.
Qed.

Lemma includes_text_empty s : includes_text "" s.
Proof. by exists "", s. Qed.

Lemma includes_sample_error siteId (e : error_item) text :
  error e = Some text →
  includes_text text
    (createFailedMessage siteId (orElse (error e) "Unknown error")).
Proof.
  intros ->. unfold orElse. destruct (String.eqb text "") eqn:E.
  - apply String.eqb_eq in E as ->. apply includes_text_empty.
  - apply includes_text_createFailedMessage.
Qed.

Lemma reportCreateErrors_run siteId total reply e es w :
  let errors := e :: es in
  match createdItems reply with
  | Some [] =>
      (reportCreateErrors siteId total reply errors w).1
      = Throw (createFailedMessage siteId (orElse (error e) "Unknown error"))
  | Some created =>
      (reportCreateErrors siteId total reply errors w).1 = Ok tt
      ∧ ∃ t, trace (reportCreateErrors siteId total reply errors w).2
             = (t ++ [EvLog Warn (MsgPartialSuccess (length created)
                                    (length errors))])%list
  | None =>
      (reportCreateErrors siteId total reply errors w).1
      = Throw "Cannot read properties of undefined (reading 'length')"
  end.
Proof.
  intros errors. unfold reportCreateErrors. rewrite run_log_bind.
  set (w1 := set_trace _ w).
  set (body := λ '(index, errorItem), _).
  rewrite (bind_ignore_Ok (mapM body _)).
  2:{ apply mapM_total. intros [i x] w'. unfold body. mrun. eauto. }
  set (w2 := (mapM body _ w1).2).
  destruct (5 <? length errors)%nat; mrun;
    destruct (createdItems reply) as [[|c cs]|]; mrun; eauto.
Qed.

Lemma createNew_nothing be p ctx keys w :
  newSuggestions p ctx keys = [] → createNew be p ctx keys w = (Ok tt, w).
Proof. intros H. unfold createNew. by rewrite H. Qed.

Lemma createNew_reports be p ctx keys w reply e es :
  let records := newSuggestions p ctx keys in
  records ≠ [] →
  addSuggestions_reply be records = Ok reply →
  errorItems reply = Some (e :: es) →
  ∃ w1,
    createNew be p ctx keys w
    = reportCreateErrors (orElse (siteId (opportunity p)) "unknown")
        (length records) reply (e :: es) w1.
Proof.
  intros records Hne Hreply Herr. unfold createNew. fold records.
  destruct records as [|x xs] eqn:E; [done|].
  change (0 <? length (x :: xs))%nat with true. cbv iota.
  unfold addSuggestions. mrun. rewrite Hreply, run_lift_bind. mrun.
  rewrite Herr. by eexists.
Qed.

Lemma elem_of_last_of_app {A} (t0 t tr : list A) x y :
  y ∈ t → (t0 ++ t = tr ++ [x])%list → x ∈ t.
Proof.
  intros Hy. destruct t as [|z t _] using rev_ind.
  { by apply elem_of_nil in Hy. }
  rewrite app_assoc. intros [_ ->]%app_inj_tail.
  apply elem_of_app. right. by left.
Qed.

(** C1: when the batch create of a synchronize call reports at least one
    error item, then: if no item was created, the call throws and the message
    of the error includes the error text of the first error item; if at least
    one item was created, the call completes without throwing and logs the
    partial-success warning. *)
Theorem create_errors_policy be p w t records reply e es :
  trace (syncSuggestions be p w).2 = (trace w ++ t)%list →
  EvAddSuggestions records ∈ t →
  addSuggestions_reply be records = Ok reply →
  errorItems reply = Some (e :: es) →
  (createdItems reply = Some [] →
     ∃ message,
       (syncSuggestions be p w).1 = Throw message
       ∧ ∀ text, error e = Some text → includes_text text message)
  ∧ (∀ c cs, createdItems reply = Some (c :: cs) →
       (syncSuggestions be p w).1 = Ok tt
       ∧ EvLog Warn (MsgPartialSuccess (length (c :: cs)) (length (e :: es)))
         ∈ t).
Proof.
  intros Ht Hadd Hreply Herr.
  destruct (syncSuggestions_reaches_create be p (trace w) w
              (emitted_start _ w)) as [Hno|(ctx & keys & wk & Hwk & Hrun)].
  { exfalso. by apply (emitted_elem_of _ _ _ _ _ Hno Ht Hadd records). }
  set (recs := newSuggestions p ctx keys).
  assert (emitted (addSuggestions_only recs) (trace w)
            (syncSuggestions be p w).2) as Hem.
  { rewrite Hrun. apply pres_effects_createNew; auto.
    { intros; by apply emitted_accepts. }
    { apply emitted_accepts. by intros ? [= <-]. }
    eapply emitted_weaken; [|done]. intros ev Hev r' ->. by destruct (Hev r'). }
  assert (records = recs) as ->
    by (by apply (emitted_elem_of _ _ _ _ _ Hem Ht Hadd)).
  assert (recs ≠ []) as Hne.
  { intros Hnil.
    rewrite Hrun, (createNew_nothing _ _ _ _ _ Hnil) in Ht. simpl in Ht.
    by apply (emitted_elem_of _ _ _ _ _ Hwk Ht Hadd recs). }
  destruct (createNew_reports be p ctx keys wk reply e es Hne Hreply Herr)
    as [w1 Hrep].
  rewrite Hrun, Hrep in *.
  pose proof (reportCreateErrors_run
                (orElse (siteId (opportunity p)) "unknown")
                (length recs) reply e es w1) as Hr.
  split.
  - intros Hc. rewrite Hc in Hr. eexists. split; [exact Hr|].
    intros text. apply includes_sample_error.
  - intros c cs Hc. rewrite Hc in Hr. destruct Hr as [Hok [tr Htr]].
    split; [done|].
    eapply elem_of_last_of_app; [exact Hadd|]. rewrite <- Ht. exact Htr.
Qed.

(** The calls and changes of the disappearance reconciler. *)
Section EffectsOfReconcile.
Context (be : Backend) (I : world → Prop).
Context (Hblind : heap_blind I).
Context (Hlog : ∀ lvl msg, accepts I (EvLog lvl msg)).
Context (Hfixed : ∀ r, accepts I (EvIsIssueFixedWithAISuggestion r)).
Context (Hbuild : ∀ r, accepts I (EvBuildFixEntityPayload r)).
Context (Hsave : ∀ r, accepts I (EvSave r)).
Context (Hadd : ∀ records, accepts I (EvAddFixEntities records)).

Lemma pres_effects_addFixEntities records : pres I (addFixEntities be records).
Proof. unfold addFixEntities. effects_auto. Qed.

Lemma pres_effects_callIsIssueFixed p x : pres I (callIsIssueFixed p x).
Proof. unfold callIsIssueFixed. effects_auto. Qed.

Lemma pres_effects_markFixed p acc x : pres I (markFixed be p acc x).
Proof.
  unfold markFixed. effects_auto; auto using pres_effects_save.
Qed.

Lemma pres_effects_reconcileDisappearedSuggestions p :
  pres I (reconcileDisappearedSuggestions be p).
Proof.
  unfold reconcileDisappearedSuggestions.
  effects_auto; auto using pres_effects_addFixEntities,
    pres_effects_markFixed, pres_effects_callIsIssueFixed.
Qed.
End EffectsOfReconcile.

Lemma publication_idle_blind w0 : suggestions_blind (publication_idle w0).
Proof. by intros w h l. Qed.

Lemma publication_idle_accepts w0 e :
  publication_event e = false → accepts (publication_idle w0) e.
Proof. intros He w [Hf Hem]. split; [done|]. by apply emitted_accepts. Qed.

(** C5: for an opportunity whose type is one of the author-only types,
    [syncSuggestionsWithPublishDetection] changes no fix entity and records no
    call of the publication pipeline (no [allByOpportunityIdAndStatus], no
    [getFixEntitiesBySuggestionId], no production check, no fix entity save),
    whether or not a production-resolution callback is given. *)
Theorem author_only_skips_publication be p w type :
  opportunityType (opportunity (sync p)) = Some type →
  type ∈ AUTHOR_ONLY_OPPORTUNITY_TYPES →
  let w' := (syncSuggestionsWithPublishDetection be p w).2 in
  fixHeap w' = fixHeap w
  ∧ ∃ t, trace w' = (trace w ++ t)%list
         ∧ ∀ e, e ∈ t → publication_event e = false.
Proof.
  intros Htype Hin.
  enough (publication_idle w (syncSuggestionsWithPublishDetection be p w).2)
    as [Hfix (t & Ht & Hall)].
  { split; [done|]. exists t. split; [done|]. by apply Forall_forall. }
  enough (pres (publication_idle w) (syncSuggestionsWithPublishDetection be p))
    as Hp by (apply Hp; split; [done|apply emitted_start]).
  pose proof (publication_idle_blind w) as Hb.
  pose proof (suggestions_blind_heap_blind _ Hb) as Hh.
  assert (∀ e, publication_event e = false → accepts (publication_idle w) e)
    as Hacc by apply publication_idle_accepts.
  unfold syncSuggestionsWithPublishDetection.
  destruct (context (sync p)) as [ctx|]; [|apply pres_ret].
  rewrite Htype. unfold includes. rewrite bool_decide_eq_true_2 by done.
  apply pres_bind; [apply pres_effects_getSuggestions; auto|]. intros l.
  apply pres_bind; [apply pres_gets|]. intros h.
  apply pres_bind.
  { destruct (d_isIssueFixedWithAISuggestion p), (d_buildFixEntityPayload p);
      try apply pres_ret.
    apply pres_effects_reconcileDisappearedSuggestions; auto. }
  intros _. apply pres_bind; [apply pres_accepted_log; auto|]. intros _.
  apply pres_effects_syncSuggestions; auto.
Qed.

(** ** The fix publication pipeline *)

Lemma fetch_run be id w :
  promise (suggestions ← getFixEntitiesBySuggestionId be id;
           ret (head (default [] suggestions))) w
  = (Ok (fetched be id),
     set_trace (trace w ++ [EvGetFixEntitiesBySuggestionId id]) w).
Proof.
  unfold getFixEntitiesBySuggestionId, fetched. mrun.
  unfold lift. unfold_M. by destruct (getFixEntitiesBySuggestionId_reply be id).
Qed.

Lemma fetch_all_run be ids w :
  mapM (λ suggestionId,
      promise (suggestions ← getFixEntitiesBySuggestionId be suggestionId;
               ret (head (default [] suggestions)))) ids w
  = (Ok (List.map (fetched be) ids),
     set_trace (trace w ++ List.map EvGetFixEntitiesBySuggestionId ids) w).
Proof.
  revert w. induction ids as [|id ids IH]; intros w.
  { simpl. rewrite app_nil_r. by destruct w. }
  rewrite mapM_cons, (bind_Ok _ _ _ _ _ (fetch_run be id w)).
  rewrite (bind_Ok _ _ _ _ _ (IH _)). simpl.
  by rewrite <- app_assoc.
Qed.

Lemma awaitAll_snd {A} (ps : list (outcome A)) w : (awaitAll ps w).2 = w.
Proof.
  revert w. induction ps as [|[a|e] ps IH]; intros w; simpl; try done.
  specialize (IH w). unfold_M. by destruct (awaitAll ps w) as [[?|?] ?]; subst.
Qed.

Lemma awaitAll_Ok {A} (ps : list (outcome A)) w results :
  (awaitAll ps w).1 = Ok results → ps = List.map Ok results.
Proof.
  revert results. induction ps as [|[a|e] ps IH]; intros results; simpl.
  - by intros [= <-].
  - unfold_M. destruct (awaitAll ps w) as [[others|?] ?] eqn:E; simpl; [|done].
    intros [= <-]. simpl. f_equal. by apply IH.
  - done.
Qed.

Lemma awaitAll_all_Ok {A} (results : list A) w :
  awaitAll (List.map Ok results) w = (Ok results, w).
Proof.
  induction results as [|a results IH]; [done|]. simpl.
  by rewrite (bind_Ok _ _ _ _ _ IH).
Qed.

Lemma callIsIssueResolved_fst p s w :
  (callIsIssueResolved p s w).1 = resolvedAnswer p s.
Proof.
  unfold callIsIssueResolved, resolvedAnswer.
  destruct (isIssueResolvedOnProduction p); [|done]. by mrun.
Qed.

Lemma limitConcurrencyAllSettled_nil {A} n w :
  limitConcurrencyAllSettled (@nil (M A)) n w = (Ok [], w).
Proof. done. Qed.

Lemma limitConcurrencyAllSettled_cons {A} (task : M A) tasks n w :
  limitConcurrencyAllSettled (task :: tasks) n w
  = (limitConcurrencyAllSettled tasks n ≫= λ ys,
       mret (settled (task w).1 :: ys)) (task w).2.
Proof.
  unfold limitConcurrencyAllSettled. rewrite mapM_cons. unfold_M.
  by destruct (task w) as [[a|e] w1].
Qed.

(** The executor settles every task: each result belongs to the task at its
    position, and an invariant of the tasks is an invariant of the batch. *)
Lemma limitConcurrencyAllSettled_spec {X A} (I : world → Prop)
    (R : X → option A → Prop) (g : X → M A) xs n w :
  I w →
  (∀ x w, x ∈ xs → I w → I (g x w).2 ∧ R x (settled (g x w).1)) →
  ∃ results w',
    limitConcurrencyAllSettled (List.map g xs) n w = (Ok results, w')
    ∧ I w' ∧ Forall2 R xs results.
Proof.
  revert w. induction xs as [|x xs IH]; intros w Hw Hg.
  { exists [], w. by repeat split. }
  destruct (Hg x w) as [Hw1 Hr]; [by left|done|].
  destruct (IH (g x w).2 Hw1) as (results & w' & Hrun & Hw' & Hall).
  { intros; apply Hg; [by right|done]. }
  exists (settled (g x w).1 :: results), w'.
  simpl List.map. rewrite limitConcurrencyAllSettled_cons.
  rewrite (bind_Ok _ _ _ _ _ Hrun). split; [done|]. split; [done|].
  by constructor.
Qed.

Lemma fetched_Some be id s :
  fetched be id = Ok (Some s) →
  ∃ rest, getFixEntitiesBySuggestionId_reply be id = Ok (Some (s :: rest)).
Proof.
  unfold fetched.
  destruct (getFixEntitiesBySuggestionId_reply be id) as [[[|s' rest]|]|];
    try done.
  intros [= ->]. eauto.
Qed.

Lemma resolvedAnswer_true p s :
  settled (resolvedAnswer p s) = Some (VBool true) →
  ∃ isResolved,
    isIssueResolvedOnProduction p = Some isResolved
    ∧ isResolved s = Ok (VBool true).
Proof.
  unfold resolvedAnswer. destruct (isIssueResolvedOnProduction p) as [f|];
    [|done].
  destruct (f s) as [v|] eqn:E; [|done]. intros [= ->]. eauto.
Qed.

Lemma checkFixEntity_resolved be p keys fixEntity w result :
  (checkFixEntity be p keys fixEntity w).1 = Ok (result, true) →
  result = fixEntity
  ∧ resolved_on_production be p (fixHeap w !!! fixEntity).
Proof.
  unfold checkFixEntity. rewrite run_gets_bind.
  destruct (suggestionIds (fixHeap w !!! fixEntity)) as [ids|] eqn:Hids;
    [|done].
  change (default [] (Some ids)) with ids.
  destruct (length ids =? 0)%nat eqn:Elen; [done|].
  rewrite (bind_Ok _ _ _ _ _ (fetch_all_run be ids w)).
  set (w1 := set_trace _ w).
  destruct (awaitAll (List.map (fetched be) ids) w1) as [[results|e] w2] eqn:E;
    [|by rewrite (bind_Throw _ _ _ _ _ E)].
  pose proof (awaitAll_Ok (List.map (fetched be) ids) w1 results) as Hres.
  rewrite E in Hres. specialize (Hres eq_refl).
  rewrite (bind_Ok _ _ _ _ _ E).
  destruct (fastPathStops p keys results) eqn:Efast; [done|].
  destruct (limitConcurrencyAllSettled_spec (λ _, True)
              (λ s r, r = settled (resolvedAnswer p s))
              (callIsIssueResolved p) (omap id results)
              MAX_CONCURRENT_CHECKS w2 Logic.I)
    as (httpResults & w3 & Hrun & _ & Hall).
  { intros s w' _ _. split; [done|]. by rewrite callIsIssueResolved_fst. }
  rewrite (bind_Ok _ _ _ _ _ Hrun). simpl. intros [= -> Hforall].
  split; [done|]. exists ids. split; [done|]. split.
  { intros ->. done. }
  intros id' Hid'.
  assert (In (fetched be id') (List.map Ok results)) as Hf.
  { rewrite <- Hres. apply in_map. by apply list_elem_of_In. }
  apply in_map_iff in Hf as (r & Hr & Hrin).
  assert (∃ s, r = Some s) as [s ->].
  { unfold fastPathStops in Efast.
    destruct r as [s|]; [eauto|]. exfalso.
    assert (existsb (λ suggestion : option suggestion,
              match suggestion with
              | Some s => match keys, p_buildKey p with
                          | Some keys, Some buildKey =>
                              bool_decide (buildKey (data s) ∈ keys)
                          | _, _ => false
                          end
              | None => true
              end) results = true) as Hex; [|congruence].
    apply existsb_exists. by exists None. }
  symmetry in Hr. destruct (fetched_Some be id' s Hr) as [rest Hreply].
  assert (s ∈ omap id results) as Hs.
  { apply list_elem_of_omap. exists (Some s). split; [|done].
    by apply list_elem_of_In. }
  apply list_elem_of_lookup in Hs as [i Hi].
  destruct (Forall2_lookup_l _ _ _ _ _ Hall Hi) as (v & Hv & ->).
  assert (bool_decide (settled (resolvedAnswer p s) = Some (VBool true)) = true)
    as Htrue.
  { rewrite forallb_forall in Hforall. apply Hforall.
    apply list_elem_of_In, list_elem_of_lookup. eauto. }
  apply bool_decide_eq_true in Htrue.
  destruct (resolvedAnswer_true p s Htrue) as (f & Hf & Hfs).
  exists s, rest, f. done.
Qed.

Lemma checkFixEntity_fixHeap be p keys fixEntity w :
  fixHeap (checkFixEntity be p keys fixEntity w).2 = fixHeap w.
Proof.
  set (I := λ w', fixHeap w' = fixHeap w).
  enough (pres I (checkFixEntity be p keys fixEntity)) as H by (by apply H).
  assert (∀ e, accepts I e) as Hacc by (by intros e w').
  unfold checkFixEntity, getFixEntitiesBySuggestionId, callIsIssueResolved.
  effects_auto.
Qed.

Lemma resolved_with_fixStatus be p st x :
  resolved_on_production be p (with_fixStatus st x) →
  resolved_on_production be p x.
Proof. done. Qed.

Lemma published_if_resolved_same be p fh0 w w' :
  fixHeap w' = fixHeap w →
  published_if_resolved be p fh0 w → published_if_resolved be p fh0 w'.
Proof. intros Hf H f x Hx. rewrite Hf. by apply H. Qed.

Lemma pres_publishResult be p fh0 result :
  (∀ fixEntity x, result = Some (fixEntity, true) →
     fh0 !! fixEntity = Some x → resolved_on_production be p x) →
  pres (published_if_resolved be p fh0) (publishResult be result).
Proof.
  intros Hres. destruct result as [[fixEntity []]|]; try apply pres_ret.
  specialize (Hres fixEntity). unfold publishResult.
  assert (∀ e, accepts (published_if_resolved be p fh0) e) as Hacc.
  { intros e w. by apply published_if_resolved_same. }
  unfold saveFix, setFixStatus. effects_auto.
  apply pres_modify. intros w Hw f x Hx. simpl.
  destruct (decide (fixEntity = f)) as [->|Hne].
  - rewrite list_lookup_alter_eq. right. split; [by apply Hres|].
    by destruct (Hw f x Hx) as [-> | [_ ->]].
  - rewrite list_lookup_alter_ne by done. by apply Hw.
Qed.

(** C7: the publication pipeline changes a fix entity only by setting its
    status to PUBLISHED, and only when it has at least one linked suggestion
    identifier, each one fetches a suggestion, and the production-resolution
    predicate answers [true] on each of them; a fix entity with no linked
    identifier, or with one that fetches no suggestion, is left as it was. *)
Theorem published_only_if_resolved be p w f x :
  fixHeap w !! f = Some x →
  let w' := (publishDeployedFixEntities be p w).2 in
  (fixHeap w' !! f ≠ Some x →
     fixHeap w' !! f = Some (with_fixStatus PUBLISHED x)
     ∧ ∃ ids,
         suggestionIds x = Some ids ∧ ids ≠ []
         ∧ ∀ id, id ∈ ids →
             ∃ s rest isResolved,
               getFixEntitiesBySuggestionId_reply be id
               = Ok (Some (s :: rest))
               ∧ isIssueResolvedOnProduction p = Some isResolved
               ∧ isResolved s = Ok (VBool true))
  ∧ (default [] (suggestionIds x) = []
     ∨ (∃ id, id ∈ default [] (suggestionIds x)
              ∧ fetched be id = Ok None) →
     fixHeap w' !! f = Some x).
Proof.
  intros Hx w'.
  assert (published_if_resolved be p (fixHeap w) w') as Hpub.
  { subst w'.
    enough (pres (published_if_resolved be p (fixHeap w))
              (publishDeployedFixEntities be p)) as H
      by (apply H; intros ???; by left).
    assert (∀ e, accepts (published_if_resolved be p (fixHeap w)) e) as Hacc.
    { intros e w1. by apply published_if_resolved_same. }
    unfold publishDeployedFixEntities, allByOpportunityIdAndStatus.
    destruct (p_context p) as [ctx|]; [|apply pres_ret].
    apply pres_tryCatch; [|intros; by apply pres_accepted_log].
    match goal with |- pres _ (if ?c then _ else _) => destruct c end;
      [by apply pres_accepted_log|].
    apply pres_bind; [effects_auto|]. intros [[|fe deployed]|];
      try apply pres_ret.
    set (keys := currentDataKeys p).
    intros w1 Hw1.
    destruct (limitConcurrencyAllSettled_spec
                (λ w', fixHeap w' = fixHeap w1)
                (λ fixEntity r, ∀ fe', r = Some (fe', true) →
                   fe' = fixEntity
                   ∧ resolved_on_production be p (fixHeap w1 !!! fixEntity))
                (checkFixEntity be p keys) (fe :: deployed)
                MAX_CONCURRENT_CHECKS w1 eq_refl)
      as (results & w2 & Hrun & Hw2 & Hall).
    { intros fe0 w0 _ Hw0. split; [by rewrite checkFixEntity_fixHeap|].
      intros fe' Hr.
      destruct (checkFixEntity be p keys fe0 w0) as [[[fe1 b]|e] w3] eqn:E;
        [|done].
      injection Hr as -> ->.
      pose proof (checkFixEntity_resolved be p keys fe0 w0 fe') as H.
      rewrite E in H. rewrite <- Hw0. by apply H. }
    rewrite (bind_Ok _ _ _ _ _ Hrun).
    apply point_bind; [|intros; apply pres_ret].
    apply pres_mapM; [|by apply (published_if_resolved_same _ _ _ w1)].
    intros r Hr. apply pres_publishResult. intros fe' x' -> Hx'.
    apply list_elem_of_lookup in Hr as [i Hi].
    destruct (Forall2_lookup_r _ _ _ _ _ Hall Hi) as (fe0 & Hfe0 & Hres).
    destruct (Hres fe' eq_refl) as [-> Hresolved].
    destruct (Hw1 fe0 x' Hx') as [H|[_ H]];
      rewrite (list_lookup_total_correct _ _ _ H) in Hresolved; [done|].
    by apply resolved_with_fixStatus in Hresolved. }
  split.
  - intros Hne. destruct (Hpub f x Hx) as [?|[Hres ?]]; [done|].
    split; [done|]. exact Hres.
  - intros Hnot. destruct (Hpub f x Hx) as [?|[Hres ?]]; [done|]. exfalso.
    destruct Hres as (ids & Hids & Hne & Hall). rewrite Hids in Hnot.
    destruct Hnot as [?|(id & Hid & Hnone)]; [done|].
    destruct (Hall id Hid) as (s & rest & _ & Hreply & _).
    unfold fetched in Hnone. by rewrite Hreply in Hnone.
Qed.

(** ** Best effort stages *)

Lemma tryCatch_log_Ok (m : M unit) lvl msg w :
  (tryCatch m (λ e, log lvl (msg e)) w).1 = Ok tt.
Proof. unfold_M. by destruct (m w) as [[[]|e] w1]. Qed.

Lemma tryCatch_log_Ok_ex (m : M unit) lvl msg w :
  ∃ o, (tryCatch m (λ e, log lvl (msg e)) w).1 = Ok o.
Proof. exists tt. apply tryCatch_log_Ok. Qed.



Lemma foldM_cons {A B} (f : B → A → M B) acc x l :
  foldM f acc (x :: l) = f acc x ≫= λ acc', foldM f acc' l.
Proof. done. Qed.

(** A loop whose turns never throw reaches each of its elements; before
    the first turn on [r], the turns on other elements keep [I]. *)
Lemma foldM_reaches {A B} `{EqDecision A} (f : B → A → M B)
    (I J : world → Prop) l r :
  (∀ b x w, ∃ o, (f b x w).1 = Ok o) →
  (∀ b x, x ≠ r → pres I (f b x)) → (∀ b x, pres J (f b x)) →
  (∀ b w, I w → J (f b r w).2) →
  ∀ acc w, I w → r ∈ l → J (foldM f acc l w).2.
Proof.
  intros Hok HI HJ Hr. induction l as [|x l IH]; intros acc w Hw Hin.
  { by apply elem_of_nil in Hin. }
  rewrite foldM_cons. destruct (decide (x = r)) as [->|Hne].
  - apply point_bind; [by apply Hr|].
    intros acc'. apply pres_foldM. intros; apply HJ.
  - apply elem_of_cons in Hin as [->|Hin]; [done|].
    destruct (Hok acc x w) as [o Ho]. pose proof (HI acc x Hne w Hw) as Hx.
    destruct (f acc x w) as [o' w1] eqn:E. simpl in *. subst o'.
    rewrite (bind_Ok _ _ _ _ _ E). by apply IH.
Qed.

Lemma recorded_blind e t0 : heap_blind (recorded e t0).
Proof. by intros w h. Qed.

Lemma recorded_accepts e t0 e' : accepts (recorded e t0) e'.
Proof.
  intros w (t & Ht & He). exists (t ++ [e'])%list. simpl.
  rewrite Ht, app_assoc. split; [done|]. apply elem_of_app. by left.
Qed.

Lemma recorded_now e t0 w t :
  trace w = (t0 ++ t)%list →
  recorded e t0 (set_trace (trace w ++ [e]) w).
Proof.
  intros Ht. exists (t ++ [e])%list. simpl. rewrite Ht, app_assoc.
  split; [done|]. apply elem_of_app. right. by left.
Qed.

#[export] Hint Resolve recorded_blind recorded_accepts : core.

Lemma pres_recorded_fix e t0 f st : pres (recorded e t0) (setFixStatus f st).
Proof. apply pres_modify. by intros w. Qed.

Lemma markFixed_Ok be p acc x w : ∃ o, (markFixed be p acc x w).1 = Ok o.
Proof.
  unfold markFixed, save, setStatus, setUpdatedBy. mrun. unfold_M. simpl.
  repeat (case_match; simpl in *; simplify_eq); eauto.
Qed.

Lemma marked_fixed_trace_blind r : trace_blind (marked_fixed r).
Proof. by intros w t. Qed.
#[export] Hint Resolve marked_fixed_trace_blind : core.

Lemma marked_fixed_accepts r e : accepts (marked_fixed r) e.
Proof. by intros w. Qed.
#[export] Hint Resolve marked_fixed_accepts : core.

Lemma pres_marked_fixed_update r x f :
  (∀ s, status s = FIXED → status (f s) = FIXED) →
  pres (marked_fixed r) (update f x).
Proof.
  intros Hf. apply pres_modify. intros w (s' & Hs' & Hst).
  unfold marked_fixed. simpl. destruct (decide (x = r)) as [->|Hne].
  - rewrite list_lookup_alter_eq, Hs'. simpl. eauto.
  - rewrite list_lookup_alter_ne by done. eauto.
Qed.

Lemma pres_marked_fixed_markFixed be p acc r x :
  pres (marked_fixed r) (markFixed be p acc x).
Proof.
  unfold markFixed, save, setStatus, setUpdatedBy.
  repeat first [by apply pres_marked_fixed_update | effects_step]; auto.
Qed.

Lemma pres_and {A} (I1 I2 : world → Prop) (m : M A) :
  pres I1 m → pres I2 m → pres (λ w, I1 w ∧ I2 w) m.
Proof. intros H1 H2 w [? ?]. split; [by apply H1|by apply H2]. Qed.

Lemma pres_forall {A X} (I : X → world → Prop) (m : M A) :
  (∀ x, pres (I x) m) → pres (λ w, ∀ x, I x w) m.
Proof. intros H w Hw x. by apply H. Qed.

Lemma pres_impl {A} (φ : Prop) (I : world → Prop) (m : M A) :
  pres I m → pres (λ w, φ → I w) m.
Proof. intros H w Hw Hφ. by apply H, Hw. Qed.

Lemma pres_recorded_markFixed be p acc x e t0 :
  pres (recorded e t0) (markFixed be p acc x).
Proof.
  unfold markFixed. effects_auto; auto using pres_effects_save.
Qed.

Lemma run_tryCatch {A} (m : M A) handler w :
  tryCatch m handler w
  = match m w with
    | (Ok a, w') => (Ok a, w')
    | (Throw e, w') => handler e w'
    end.
Proof. done. Qed.

Section ReconcileOne.
Context (be : Backend) (p : ReconcileParams) (t0 : list event).
Context (r : nat) (s : suggestion).

(** What the turn of the loop on [r] leaves behind. *)
Definition reconciled (w : world) : Prop :=
  marked_fixed r w
  ∧ recorded (EvSave r) t0 w
  ∧ ∀ e, save_rejects be (with_updatedBy "system" (with_status FIXED s))
         = Some e →
         recorded (EvLog Warn (MsgFailedMarkFixed (sid s) e)) t0 w.

Lemma pres_reconciled {A} (m : M A) :
  pres (marked_fixed r) m → (∀ e, pres (recorded e t0) m) →
  pres reconciled m.
Proof.
  intros H1 H2. apply pres_and; [done|]. apply pres_and; [done|].
  apply pres_forall. intros e. by apply pres_impl.
Qed.

Definition untouched (w : world) : Prop :=
  heap w !! r = Some s ∧ emitted (λ _, True) t0 w.

Lemma pres_untouched_markFixed acc x :
  x ≠ r → pres untouched (markFixed be p acc x).
Proof.
  intros Hne. apply pres_and.
  - change (pres (keeps r s) (markFixed be p acc x)).
    unfold markFixed, setStatus, setUpdatedBy.
    repeat first [by apply pres_update_ne | by apply pres_save
                 | by apply pres_log | by apply pres_emit | pres_step].
  - change (pres (emitted (λ _, True) t0) (markFixed be p acc x)).
    assert (∀ e, accepts (emitted (λ _ : event, True) t0) e)
      by (intros; by apply emitted_accepts).
    unfold markFixed. effects_auto; auto using pres_effects_save.
Qed.

Lemma markFixed_reconciles acc w :
  untouched w → reconciled (markFixed be p acc r w).2.
Proof.
  intros [Hs (t & Ht & _)]. unfold markFixed.
  rewrite run_gets_bind, run_log_bind.
  apply point_bind.
  - rewrite run_tryCatch. unfold setStatus, setUpdatedBy, save. mrun.
    rewrite (getObject_lookup _ _ (with_updatedBy "system" (with_status FIXED s)))
      by (by rewrite !list_lookup_alter_eq, Hs).
    unfold getId. rewrite (getObject_lookup _ _ _ Hs).
    destruct (save_rejects be _) as [e|] eqn:E; mrun;
      unfold reconciled, marked_fixed, recorded; world_simpl.
    + split; [|split].
      * eexists. by rewrite !list_lookup_alter_eq, Hs.
      * exists ((t ++ [EvLog Debug (MsgMarkingFixed (sid s))])
                ++ [EvSave r] ++ [EvLog Warn (MsgFailedMarkFixed (sid s) e)])%list.
        rewrite Ht, <- !app_assoc. split; [done|]. set_solver.
      * intros e' He'. rewrite E in He'. injection He' as <-.
        exists ((t ++ [EvLog Debug (MsgMarkingFixed (sid s))])
                ++ [EvSave r] ++ [EvLog Warn (MsgFailedMarkFixed (sid s) e)])%list.
        rewrite Ht, <- !app_assoc. split; [done|]. set_solver.
    + split; [|split]; [| |intros e' He'; by rewrite E in He'].
      * eexists. by rewrite !list_lookup_alter_eq, Hs.
      * exists ((t ++ [EvLog Debug (MsgMarkingFixed (sid s))])
                ++ [EvSave r])%list.
        rewrite Ht, <- !app_assoc. split; [done|]. set_solver.
  - intros marked. apply pres_reconciled.
    + repeat first [by apply pres_log | by apply pres_emit | pres_step].
    + intros e. effects_auto.
Qed.
End ReconcileOne.

Lemma tryCatch_post {A} (J : world → Prop) (m : M A) handler w :
  J (m w).2 → (∀ e, pres J (handler e)) → J (tryCatch m handler w).2.
Proof.
  intros Hm Hh. rewrite run_tryCatch.
  destruct (m w) as [[a|e] w1]; simpl in *; [done|by apply Hh].
Qed.

Lemma checkTask_run (p : ReconcileParams) x w :
  (callIsIssueFixed p x ≫= λ isFixed, ret (x, isFixed)) w
  = (fixedAnswer p (heap w) x,
     match isIssueFixedWithAISuggestion p with
     | None => w
     | Some _ => set_trace (trace w ++ [EvIsIssueFixedWithAISuggestion x]) w
     end).
Proof.
  unfold callIsIssueFixed, fixedAnswer.
  destruct (isIssueFixedWithAISuggestion p) as [f|]; [|done].
  mrun. unfold lift. unfold_M. by destruct (f _).
Qed.

Lemma reconcile_reaches be p w r s isFixed answer :
  r ∈ disappearedSuggestions p →
  heap w !! r = Some s →
  status s = NEW →
  isIssueFixedWithAISuggestion p = Some isFixed →
  isFixed s = Ok answer →
  truthy answer = true →
  reconciled be (trace w) r s (reconcileDisappearedSuggestions be p w).2.
Proof.
  intros Hin Hs Hnew Hpred Hans Htruthy.
  unfold reconcileDisappearedSuggestions. apply tryCatch_post.
  2:{ intros e. apply pres_reconciled; [by apply pres_log|].
      intros e'. by apply pres_accepted_log. }
  rewrite run_gets_bind.
  set (candidates := List.filter _ (disappearedSuggestions p)).
  assert (r ∈ candidates) as Hcand.
  { apply elem_of_List_filter. split; [done|]. apply bool_decide_eq_true.
    unfold getStatus. by rewrite (getObject_lookup _ _ _ Hs). }
  destruct (length candidates =? 0)%nat eqn:Elen.
  { apply Nat.eqb_eq, length_zero_iff_nil in Elen. rewrite Elen in Hcand.
    by apply elem_of_nil in Hcand. }
  destruct (limitConcurrencyAllSettled_spec
              (λ w1, heap w1 = heap w ∧ emitted (λ _, True) (trace w) w1)
              (λ x res, res = settled (fixedAnswer p (heap w) x))
              (λ suggestion,
                 callIsIssueFixed p suggestion ≫= λ isFixed,
                   ret (suggestion, isFixed))
              candidates MAX_CONCURRENT_CHECKS w)
    as (results & w1 & Hrun & [Hheap Hem] & Hall).
  { split; [done|apply emitted_start]. }
  { intros x w' _ [Hh Hem]. rewrite checkTask_run. simpl. rewrite Hh.
    split; [|done]. destruct (isIssueFixedWithAISuggestion p); [|done].
    split; [done|]. by apply emitted_accepts. }
  rewrite (bind_Ok _ _ _ _ _ Hrun).
  assert (r ∈ List.map fst
            (List.filter (λ r0 : nat * value, truthy r0.2) (omap id results)))
    as Hfixed.
  { apply list_elem_of_In, in_map_iff. exists (r, answer). split; [done|].
    apply filter_In. split; [|done]. apply list_elem_of_In.
    apply list_elem_of_omap. exists (Some (r, answer)). split; [|done].
    apply list_elem_of_lookup in Hcand as [i Hi].
    destruct (Forall2_lookup_l _ _ _ _ _ Hall Hi) as (res & Hres & ->).
    apply list_elem_of_lookup. exists i. rewrite Hres. f_equal.
    unfold fixedAnswer. rewrite Hpred, (getObject_lookup _ _ _ Hs), Hans.
    done. }
  apply point_bind.
  - apply (foldM_reaches _ (untouched (trace w) r s)
             (reconciled be (trace w) r s) _ r); try done.
    + apply markFixed_Ok.
    + intros. by apply pres_untouched_markFixed.
    + intros. apply pres_reconciled.
      * apply pres_marked_fixed_markFixed.
      * intros. apply pres_recorded_markFixed.
    + intros. by apply markFixed_reconciles.
    + split; [by rewrite Hheap|done].
  - intros objs. apply pres_reconciled.
    + unfold addFixEntities.
      repeat first [by apply pres_log | by apply pres_emit | pres_step].
    + intros e. unfold addFixEntities. effects_auto.
Qed.

(** ** The runs of the two stages, call by call *)

Lemma set_trace_same w : set_trace (trace w ++ []) w = w.
Proof. destruct w. unfold set_trace. simpl. by rewrite app_nil_r. Qed.

Lemma set_trace_app t1 t2 w :
  set_trace (trace (set_trace (trace w ++ t1) w) ++ t2)
    (set_trace (trace w ++ t1) w)
  = set_trace (trace w ++ t1 ++ t2) w.
Proof. unfold set_trace. simpl. by rewrite app_assoc. Qed.

(** The executor on tasks that only record calls. *)
Lemma limitConcurrencyAllSettled_run {X A} (g : X → M A)
    (o : X → outcome A) (ev : X → list event) (C : world → Prop) xs n :
  (∀ w t, C w → C (set_trace t w)) →
  (∀ x w, x ∈ xs → C w → g x w = (o x, set_trace (trace w ++ ev x) w)) →
  ∀ w, C w →
    limitConcurrencyAllSettled (List.map g xs) n w
    = (Ok (List.map (λ x, settled (o x)) xs),
       set_trace (trace w ++ concat (List.map ev xs)) w).
Proof.
  intros HC. induction xs as [|x xs IH]; intros Hg w Hw.
  { simpl. by rewrite set_trace_same. }
  simpl List.map. rewrite limitConcurrencyAllSettled_cons.
  rewrite (Hg x w) by (done || by left). cbn [fst snd].
  assert (∀ y w', y ∈ xs → C w' →
            g y w' = (o y, set_trace (trace w' ++ ev y) w')) as Hg'.
  { intros y w' Hy. apply Hg. by right. }
  rewrite (bind_Ok _ _ _ _ _ (IH Hg' _ (HC _ _ Hw))).
  unfold mret, M_ret, ret, set_trace. simpl. by rewrite <- app_assoc.
Qed.

Lemma fixChecks_run (p : ReconcileParams) candidates n w :
  limitConcurrencyAllSettled
    (List.map (λ suggestion,
         isFixed ← callIsIssueFixed p suggestion;
         ret (suggestion, isFixed)) candidates) n w
  = (Ok (List.map (λ x, settled (fixedAnswer p (heap w) x)) candidates),
     set_trace (trace w ++ fixCheckCalls p candidates) w).
Proof.
  rewrite (limitConcurrencyAllSettled_run _ (fixedAnswer p (heap w))
             (λ x, match isIssueFixedWithAISuggestion p with
                   | Some _ => [EvIsIssueFixedWithAISuggestion x]
                   | None => []
                   end)
             (λ w', heap w' = heap w)); try done.
  - f_equal. f_equal. f_equal. unfold fixCheckCalls.
    destruct (isIssueFixedWithAISuggestion p).
    + induction candidates; simpl; by f_equal.
    + induction candidates; simpl; by f_equal.
  - intros x w' _ Hh.
    change ((callIsIssueFixed p x ≫= λ isFixed, ret (x, isFixed)) w'
            = (fixedAnswer p (heap w) x,
               set_trace (trace w' ++ match isIssueFixedWithAISuggestion p with
                                      | Some _ => [EvIsIssueFixedWithAISuggestion x]
                                      | None => []
                                      end) w')).
    rewrite checkTask_run, Hh.
    destruct (isIssueFixedWithAISuggestion p); [done|].
    by rewrite set_trace_same.
Qed.

(** ** The loop over the fixed suggestions *)

Lemma fixedObject_idemp s : fixedObject (fixedObject s) = fixedObject s.
Proof. done. Qed.

Lemma at_start_or_fixed_getId h0 x w :
  at_start_or_fixed h0 x w → getId (heap w) x = getId h0 x.
Proof.
  unfold getId, getObject. rewrite !list_lookup_total_alt.
  intros [-> | ->]; [done|]. by destruct (h0 !! x).
Qed.

Lemma at_start_or_fixed_marked h0 x w :
  at_start_or_fixed h0 x w →
  getObject (alter (with_updatedBy "system") x
               (alter (with_status FIXED) x (heap w))) x
  = markedObject h0 x.
Proof.
  unfold markedObject, getObject. rewrite !list_lookup_total_alt.
  rewrite !list_lookup_alter_eq.
  intros [-> | ->]; by destruct (h0 !! x).
Qed.

Lemma alter_fixedObject x (h : list suggestion) :
  alter (with_updatedBy "system") x (alter (with_status FIXED) x h)
  = alter fixedObject x h.
Proof.
  apply list_eq. intros i. destruct (decide (i = x)) as [->|Hne].
  - rewrite !list_lookup_alter_eq. by destruct (h !! x).
  - by rewrite !list_lookup_alter_ne.
Qed.

(** One turn of the loop, call by call. *)
Lemma markFixed_run be p h0 acc x w :
  at_start_or_fixed h0 x w →
  markFixed be p acc x w
  = (Ok (acc ++ option_list (markFixedPayload be p h0 x))%list,
     set_trace (trace w ++ markFixedTrace be p h0 x)%list
       (set_heap (alter fixedObject x (heap w)) w)).
Proof.
  intros Hx. unfold markFixed, markFixedTrace, markFixedPayload.
  rewrite run_gets_bind, run_log_bind.
  rewrite (at_start_or_fixed_getId h0 x w Hx).
  set (w1 := set_trace _ w).
  set (w2 := set_trace (trace w1 ++ [EvSave x])%list
               (set_heap (alter fixedObject x (heap w)) w1)).
  assert (tryCatch
            (setStatus x FIXED;; setUpdatedBy x "system";; save be x;;
             ret true)
            (λ e, log Warn (MsgFailedMarkFixed (getId h0 x) e);; ret false) w1
          = match save_rejects be (markedObject h0 x) with
            | Some e =>
                (Ok false,
                 set_trace
                   (trace w2 ++ [EvLog Warn (MsgFailedMarkFixed (getId h0 x) e)])%list
                   w2)
            | None => (Ok true, w2)
            end) as Hmark.
  { rewrite run_tryCatch. unfold setStatus, setUpdatedBy, save. mrun.
    subst w2. change (heap w1) with (heap w).
    rewrite (at_start_or_fixed_marked h0 x w Hx), alter_fixedObject.
    by destruct (save_rejects be (markedObject h0 x)); mrun. }
  destruct (save_rejects be (markedObject h0 x)) as [e|] eqn:Hsave;
    rewrite (bind_Ok _ _ _ _ _ Hmark).
  { rewrite app_nil_r. unfold w2, w1, set_trace, set_heap, ret. simpl.
    by rewrite <- !app_assoc. }
  destruct (buildFixEntityPayload p) as [build|].
  2:{ rewrite app_nil_r. unfold w2, w1, set_trace, set_heap, ret. simpl.
      by rewrite <- !app_assoc. }
  rewrite run_tryCatch. mrun.
  change (heap w2) with (alter fixedObject x (heap w)).
  assert (getObject (alter fixedObject x (heap w)) x = markedObject h0 x)
    as ->.
  { rewrite <- alter_fixedObject. by apply at_start_or_fixed_marked. }
  destruct (build (markedObject h0 x) (r_opportunity p) (isAuthorOnly p))
    as [[payload|]|e]; mrun; unfold_M; unfold set_trace, set_heap; simpl;
    rewrite <- ?app_assoc, ?app_nil_r; reflexivity.
Qed.

Lemma at_start_or_fixed_step h0 x y w t :
  at_start_or_fixed h0 x w →
  at_start_or_fixed h0 y w →
  at_start_or_fixed h0 y
    (set_trace t (set_heap (alter fixedObject x (heap w)) w)).
Proof.
  unfold at_start_or_fixed. simpl. intros Hx Hy.
  destruct (decide (y = x)) as [->|Hne].
  - rewrite list_lookup_alter_eq. right.
    destruct Hx as [-> | ->]; [done|]. by destruct (h0 !! x).
  - by rewrite list_lookup_alter_ne.
Qed.

(** The loop over the fixed suggestions, call by call. *)
Lemma foldM_markFixed_run be p h0 l :
  ∀ acc w,
    (∀ x, at_start_or_fixed h0 x w) →
    ∃ w',
      foldM (markFixed be p) acc l w
      = (Ok (acc ++ omap (markFixedPayload be p h0) l)%list, w')
      ∧ trace w' = (trace w ++ concat (List.map (markFixedTrace be p h0) l))%list
      ∧ (∀ x, heap w' !! x
              = if decide (x ∈ l) then fixedObject <$> h0 !! x
                else heap w !! x)
      ∧ stored w' = stored w
      ∧ fixHeap w' = fixHeap w.
Proof.
  induction l as [|x l IH]; intros acc w Hw.
  { exists w. simpl. rewrite !app_nil_r. by repeat split. }
  rewrite foldM_cons.
  rewrite (bind_Ok _ _ _ _ _ (markFixed_run be p h0 acc x w (Hw x))).
  set (w1 := set_trace _ _).
  destruct (IH (acc ++ option_list (markFixedPayload be p h0 x))%list w1)
    as (w' & Hrun & Htrace & Hheap & Hstored & Hfix).
  { intros y. by apply at_start_or_fixed_step. }
  exists w'. split; [|split; [|split; [|by split]]].
  - rewrite Hrun. f_equal. f_equal. rewrite <- app_assoc. f_equal.
    simpl. by destruct (markFixedPayload be p h0 x).
  - rewrite Htrace. unfold w1. simpl. by rewrite <- app_assoc.
  - intros y. rewrite Hheap. unfold w1. simpl.
    destruct (decide (y ∈ l)) as [Hin|Hnin].
    + rewrite decide_True; [done|]. by right.
    + destruct (decide (y = x)) as [->|Hne].
      * rewrite decide_True by by left. rewrite list_lookup_alter_eq.
        destruct (Hw x) as [-> | ->]; [done|]. by destruct (h0 !! x).
      * rewrite list_lookup_alter_ne by done. rewrite decide_False; [done|].
        by intros [?|?]%elem_of_cons.
Qed.

(** ** The reconciler, call by call *)

Lemma addFixEntities_run be (p : ReconcileParams) payloads w :
  ∃ w',
    (if (0 <? length payloads)%nat && hasAddFixEntities (r_opportunity p)
     then
       tryCatch
         (addFixEntities be payloads;;
          log Info (MsgAddedFixEntities (length payloads)
                      (opportunityId (r_opportunity p))))
         (λ e,
            log Warn (MsgFailedAddFixEntities
                        (opportunityId (r_opportunity p)) e))
     else ret tt) w = (Ok tt, w')
    ∧ trace w' = (trace w ++ addFixEntitiesTrace be p payloads)%list
    ∧ heap w' = heap w ∧ stored w' = stored w ∧ fixHeap w' = fixHeap w.
Proof.
  unfold addFixEntitiesTrace.
  destruct ((0 <? length payloads)%nat && hasAddFixEntities (r_opportunity p)).
  2:{ exists w. by rewrite app_nil_r. }
  rewrite run_tryCatch. unfold addFixEntities. mrun.
  destruct (addFixEntities_rejects be payloads); mrun;
    eexists; (split; [reflexivity|]); simpl; by rewrite <- ?app_assoc.
Qed.

Lemma reconcileDisappearedSuggestions_run be p w :
  ∃ w',
    reconcileDisappearedSuggestions be p w = (Ok tt, w')
    ∧ trace w' = (trace w ++ reconcileTrace be p (heap w))%list
    ∧ (∀ x, heap w' !! x
            = if decide (x ∈ fixedSuggestionsOf p (heap w)
                         ∧ candidatesOf p (heap w) ≠ [])
              then fixedObject <$> heap w !! x
              else heap w !! x)
    ∧ stored w' = stored w
    ∧ fixHeap w' = fixHeap w.
Proof.
  unfold reconcileDisappearedSuggestions, reconcileTrace.
  rewrite run_tryCatch, run_gets_bind. fold (candidatesOf p (heap w)).
  destruct (length (candidatesOf p (heap w)) =? 0)%nat eqn:Elen.
  { apply Nat.eqb_eq, length_zero_iff_nil in Elen.
    exists w. cbn. rewrite app_nil_r. repeat split; try done.
    intros x. rewrite decide_False; [done|]. by intros [_ ?]. }
  assert (candidatesOf p (heap w) ≠ []) as Hne.
  { intros E. by rewrite E in Elen. }
  rewrite (bind_Ok _ _ _ _ _ (fixChecks_run p _ _ w)).
  set (w1 := set_trace _ w).
  destruct (foldM_markFixed_run be p (heap w) (fixedSuggestionsOf p (heap w))
              [] w1) as (w2 & Hrun & Htrace & Hheap & Hstored & Hfix).
  { intros x. by left. }
  destruct (addFixEntities_run be p
              (omap (markFixedPayload be p (heap w))
                 (fixedSuggestionsOf p (heap w))) w2)
    as (w3 & Hrun3 & Htrace3 & Hheap3 & Hstored3 & Hfix3).
  match goal with
  | |- ∃ w', (let (o, w'') := ?m w1 in _) = _ ∧ _ =>
      assert (m w1 = (Ok tt, w3)) as ->
  end.
  { etrans; [|exact Hrun3]. exact (bind_Ok _ _ _ _ _ Hrun). }
  exists w3. split; [done|]. split.
  { rewrite Htrace3, Htrace. unfold w1. simpl. by rewrite <- !app_assoc. }
  split; [|split; [by rewrite Hstored3, Hstored|by rewrite Hfix3, Hfix]].
  intros x. rewrite Hheap3, Hheap.
  destruct (decide (x ∈ fixedSuggestionsOf p (heap w))).
  - by rewrite decide_True.
  - rewrite decide_False; [done|]. by intros [? _].
Qed.

(** ** The publication pipeline, call by call *)

Lemma awaitAll_run {A} (ps : list (outcome A)) w :
  awaitAll ps w = (awaited ps, w).
Proof.
  induction ps as [|[a|e] ps IH]; simpl; try done.
  rewrite (surjective_pairing (awaitAll ps w)) in IH.
  injection IH as H1 H2. unfold_M.
  destruct (awaitAll ps w) as [[others|e] w']; simpl in *; subst;
    by rewrite <- H1.
Qed.

Lemma callIsIssueResolved_run p s w :
  callIsIssueResolved p s w
  = (resolvedAnswer p s,
     set_trace (trace w ++ match isIssueResolvedOnProduction p with
                           | Some _ => [EvIsIssueResolvedOnProduction s]
                           | None => []
                           end) w).
Proof.
  unfold callIsIssueResolved, resolvedAnswer.
  destruct (isIssueResolvedOnProduction p); mrun.
  - by unfold lift.
  - by rewrite set_trace_same.
Qed.

Lemma resolvedChecks_run p l n w :
  limitConcurrencyAllSettled (List.map (callIsIssueResolved p) l) n w
  = (Ok (List.map (λ s, settled (resolvedAnswer p s)) l),
     set_trace (trace w ++ resolvedCheckCalls p l) w).
Proof.
  rewrite (limitConcurrencyAllSettled_run _ (resolvedAnswer p)
             (λ s, match isIssueResolvedOnProduction p with
                   | Some _ => [EvIsIssueResolvedOnProduction s]
                   | None => []
                   end)
             (λ _, True)); try done.
  - f_equal. f_equal. f_equal. unfold resolvedCheckCalls.
    destruct (isIssueResolvedOnProduction p).
    + induction l; simpl; by f_equal.
    + induction l; simpl; by f_equal.
  - intros s w' _ _. apply callIsIssueResolved_run.
Qed.

Lemma checkFixEntity_run be p keys f w :
  checkFixEntity be p keys f w
  = (checkOutcome be p keys f (fixHeap w !!! f),
     set_trace (trace w ++ checkTrace be p keys (fixHeap w !!! f)) w).
Proof.
  unfold checkFixEntity, checkOutcome, checkTrace. rewrite run_gets_bind.
  set (ids := default [] (suggestionIds (fixHeap w !!! f))).
  destruct (length ids =? 0)%nat.
  { by rewrite set_trace_same. }
  rewrite (bind_Ok _ _ _ _ _ (fetch_all_run be ids w)).
  set (w1 := set_trace _ w).
  destruct (awaited (List.map (fetched be) ids)) as [results|e] eqn:E.
  2:{ rewrite (bind_Throw _ _ w1 e w1); [|by rewrite awaitAll_run, E].
      by rewrite app_nil_r. }
  rewrite (bind_Ok _ _ w1 results w1); [|by rewrite awaitAll_run, E].
  destruct (fastPathStops p keys results).
  { by rewrite app_nil_r. }
  rewrite (bind_Ok _ _ _ _ _ (resolvedChecks_run p _ _ w1)).
  unfold w1, ret, set_trace. simpl. by rewrite <- app_assoc.
Qed.

Lemma fixChecksBatch_run be p keys deployed n w :
  limitConcurrencyAllSettled (List.map (checkFixEntity be p keys) deployed) n w
  = (Ok (List.map (λ f, settled (checkOutcome be p keys f (fixHeap w !!! f)))
           deployed),
     set_trace
       (trace w
        ++ concat (List.map (λ f, checkTrace be p keys (fixHeap w !!! f))
                     deployed)) w).
Proof.
  apply (limitConcurrencyAllSettled_run (checkFixEntity be p keys)
           (λ f, checkOutcome be p keys f (fixHeap w !!! f))
           (λ f, checkTrace be p keys (fixHeap w !!! f))
           (λ w', fixHeap w' = fixHeap w)); try done.
  intros f w' _ Hfh. by rewrite checkFixEntity_run, Hfh.
Qed.

Lemma at_start_or_published_object fh0 f w :
  at_start_or_published fh0 f w →
  alter (with_fixStatus PUBLISHED) f (fixHeap w) !!! f = publishedObject fh0 f.
Proof.
  unfold publishedObject. rewrite !list_lookup_total_alt.
  rewrite !list_lookup_alter_eq.
  intros [-> | ->]; by destruct (fh0 !! f).
Qed.

(** One turn of the loop that updates the resolved fix entities. *)
Lemma publishResult_run be fh0 result w :
  (∀ f, at_start_or_published fh0 f w) →
  publishResult be result w
  = (Ok tt,
     set_trace (trace w ++ publishTrace be fh0 result)%list
       match toPublish result with
       | Some f =>
           set_fixHeap (alter (with_fixStatus PUBLISHED) f (fixHeap w)) w
       | None => w
       end).
Proof.
  intros Hw. unfold publishResult, publishTrace, toPublish.
  destruct result as [[f []]|]; try by rewrite set_trace_same.
  rewrite run_tryCatch. unfold setFixStatus, saveFix. mrun.
  rewrite (at_start_or_published_object fh0 f w (Hw f)).
  destruct (saveFix_rejects be (publishedObject fh0 f)); mrun;
    rewrite ?(at_start_or_published_object fh0 f w (Hw f));
    unfold set_trace, set_fixHeap; simpl; by rewrite <- ?app_assoc.
Qed.

(** The loop that updates the resolved fix entities, call by call. *)
Lemma mapM_publishResult_run be fh0 results :
  ∀ w,
    (∀ f, at_start_or_published fh0 f w) →
    ∃ units w',
      mapM (publishResult be) results w = (Ok units, w')
      ∧ trace w'
        = (trace w ++ concat (List.map (publishTrace be fh0) results))%list
      ∧ (∀ f, fixHeap w' !! f
              = if decide (Some (f, true) ∈ results)
                then with_fixStatus PUBLISHED <$> fh0 !! f
                else fixHeap w !! f)
      ∧ heap w' = heap w
      ∧ stored w' = stored w.
Proof.
  induction results as [|result results IH]; intros w Hw.
  { exists [], w. simpl. rewrite app_nil_r. by repeat split. }
  rewrite mapM_cons.
  rewrite (bind_Ok _ _ _ _ _ (publishResult_run be fh0 result w Hw)).
  set (w1 := set_trace _ _).
  assert (∀ f, fixHeap w1 !! f
               = if decide (toPublish result = Some f)
                 then with_fixStatus PUBLISHED <$> fh0 !! f
                 else fixHeap w !! f) as Hfh1.
  { intros f. unfold w1.
    destruct (decide (toPublish result = Some f)) as [Heq|Hneq].
    - rewrite Heq. cbn [fixHeap set_trace set_fixHeap].
      rewrite list_lookup_alter_eq.
      destruct (Hw f) as [-> | ->]; [done|]. by destruct (fh0 !! f).
    - destruct (toPublish result) as [f'|];
        cbn [fixHeap set_trace set_fixHeap]; [|done].
      rewrite list_lookup_alter_ne; [done|congruence]. }
  assert (heap w1 = heap w ∧ stored w1 = stored w) as [Hh1 Hs1].
  { unfold w1. by destruct (toPublish result). }
  destruct (IH w1) as (units & w' & Hrun & Htrace & Hfh & Hheap & Hstored).
  { intros f. unfold at_start_or_published. rewrite Hfh1.
    destruct (decide _); [by right|apply Hw]. }
  exists (tt :: units), w'. rewrite (bind_Ok _ _ _ _ _ Hrun).
  split; [done|]. split.
  { rewrite Htrace. unfold w1. simpl.
    destruct (toPublish result); simpl; by rewrite <- app_assoc. }
  split; [|split; congruence].
  intros f. rewrite Hfh, Hfh1.
  assert (toPublish result = Some f ↔ result = Some (f, true)) as Hiff.
  { unfold toPublish. destruct result as [[f' []]|]; split; congruence. }
  destruct (decide (Some (f, true) ∈ results)) as [Hin|Hnin].
  - rewrite decide_True; [done|]. by right.
  - destruct (decide (toPublish result = Some f)) as [Heq|Hneq].
    + rewrite decide_True; [done|]. apply elem_of_cons. left. symmetry.
      by apply Hiff.
    + rewrite decide_False; [done|].
      intros [Heq|?]%elem_of_cons; [|done]. apply Hneq, Hiff. done.
Qed.

Lemma publishDeployedFixEntities_run be p deployed w :
  processes be p deployed →
  ∃ w',
    publishDeployedFixEntities be p w = (Ok tt, w')
    ∧ trace w'
      = (trace w
         ++ EvAllByOpportunityIdAndStatus (p_opportunityId p) DEPLOYED
            :: concat (List.map
                         (λ f, checkTrace be p (currentDataKeys p)
                                 (fixHeap w !!! f)) deployed)
         ++ concat (List.map (publishTrace be (fixHeap w))
                      (checkResults be p (fixHeap w) deployed)))%list
    ∧ (∀ f, fixHeap w' !! f
            = if decide (Some (f, true)
                         ∈ checkResults be p (fixHeap w) deployed)
              then with_fixStatus PUBLISHED <$> fixHeap w !! f
              else fixHeap w !! f)
    ∧ heap w' = heap w
    ∧ stored w' = stored w.
Proof.
  intros (ctx & da & Hctx & Hda & Hall & Hget & Hreply).
  unfold publishDeployedFixEntities. rewrite Hctx, run_tryCatch.
  rewrite Hda, Hall, Hget. change (negb (true && true)) with false. cbv iota.
  unfold allByOpportunityIdAndStatus. mrun. rewrite Hreply, run_lift_bind.
  set (w0 := set_trace _ w).
  destruct deployed as [|fe deployed'] eqn:Edep.
  { exists w0. cbn. by repeat split. }
  rewrite <- Edep. cbv iota.
  rewrite (bind_Ok _ _ _ _ _
             (fixChecksBatch_run be p (currentDataKeys p) deployed _ w0)).
  change (fixHeap w0) with (fixHeap w).
  fold (checkResults be p (fixHeap w) deployed).
  set (w1 := set_trace _ w0).
  destruct (mapM_publishResult_run be (fixHeap w)
              (checkResults be p (fixHeap w) deployed) w1)
    as (units & w' & Hrun & Htrace & Hfh & Hheap & Hstored).
  { intros f. by left. }
  rewrite (bind_Ok _ _ _ _ _ Hrun). exists w'. split; [done|]. split.
  { rewrite Htrace. unfold w1, w0. simpl. by rewrite <- !app_assoc. }
  by repeat split.
Qed.

Lemma awaited_Ok {A} (ps : list (outcome A)) results :
  awaited ps = Ok results → ps = List.map Ok results.
Proof.
  revert results. induction ps as [|[a|e] ps IH]; intros results; simpl.
  - by intros [= <-].
  - destruct (awaited ps) as [others|]; [|done]. intros [= <-]. simpl.
    f_equal. by apply IH.
  - done.
Qed.

Lemma linked_fetched be x s results :
  awaited (List.map (fetched be) (default [] (suggestionIds x))) = Ok results →
  linked be x s ↔ Some s ∈ results.
Proof.
  intros Hres%awaited_Ok. split.
  - intros (id & Hid & Hf).
    assert (In (Ok (Some s))
              (List.map (fetched be) (default [] (suggestionIds x)))) as Hin.
    { apply in_map_iff. exists id. split; [done|by apply list_elem_of_In]. }
    rewrite Hres in Hin. apply in_map_iff in Hin as (r & [= ->] & Hr).
    by apply list_elem_of_In.
  - intros Hin%list_elem_of_In.
    assert (In (Ok (Some s)) (List.map Ok results)) as Hin'
      by (by apply in_map).
    rewrite <- Hres in Hin'. apply in_map_iff in Hin' as (id & Hf & Hid).
    exists id. split; [by apply list_elem_of_In|done].
Qed.

Lemma still_found_stops be p x s results :
  awaited (List.map (fetched be) (default [] (suggestionIds x))) = Ok results →
  linked be x s → still_found p s →
  fastPathStops p (currentDataKeys p) results = true.
Proof.
  intros Hres Hs (findings & buildKey & Hdata & Hkey & Hin).
  apply (linked_fetched be x s results Hres) in Hs.
  unfold fastPathStops, currentDataKeys. rewrite Hdata, Hkey.
  apply existsb_exists. exists (Some s). split; [by apply list_elem_of_In|].
  apply bool_decide_eq_true. by apply elem_of_list_to_set.
Qed.

(** The check of a fix entity with a linked suggestion that is still found
    never answers that it is resolved. *)
Lemma checkOutcome_still_found be p f x s r :
  linked be x s → still_found p s →
  checkOutcome be p (currentDataKeys p) f x = Ok r → r = (f, false).
Proof.
  intros Hs Hfound. unfold checkOutcome.
  destruct (length _ =? 0)%nat; [by intros [= <-]|].
  destruct (awaited _) as [results|e] eqn:Hres; [|done].
  rewrite (still_found_stops be p x s results Hres Hs Hfound).
  by intros [= <-].
Qed.

Lemma checkOutcome_fst be p keys f x f' b :
  checkOutcome be p keys f x = Ok (f', b) → f' = f.
Proof.
  unfold checkOutcome. repeat case_match; congruence.
Qed.

Lemma checkTrace_checked_as be p x :
  checked_as be p x (checkTrace be p (currentDataKeys p) x).
Proof.
  unfold checked_as, checkTrace.
  set (ids := default [] (suggestionIds x)).
  destruct (length ids =? 0)%nat eqn:Elen.
  { apply Nat.eqb_eq, length_zero_iff_nil in Elen. rewrite Elen.
    by exists []. }
  destruct (awaited (List.map (fetched be) ids)) as [results|e] eqn:Hres.
  2:{ by exists []. }
  destruct (fastPathStops p (currentDataKeys p) results) eqn:Hfast.
  { by exists []. }
  unfold resolvedCheckCalls. destruct (isIssueResolvedOnProduction p).
  2:{ by exists []. }
  exists (omap id results). split; [done|]. split.
  - apply Forall_forall. intros s (r & Hr & Hid)%list_elem_of_omap.
    simpl in Hid. subst r. by apply (linked_fetched be x s results Hres).
  - intros (s & Hs & Hfound).
    by rewrite (still_found_stops be p x s results Hres Hs Hfound) in Hfast.
Qed.

Lemma publishTrace_events be fh result e :
  e ∈ publishTrace be fh result →
  ∃ f, result = Some (f, true)
       ∧ (e = EvSaveFix f ∨ ∃ lvl msg, e = EvLog lvl msg).
Proof.
  unfold publishTrace. destruct result as [[f []]|];
    try (by intros ?%elem_of_nil).
  intros [->|[->|?%elem_of_nil]%elem_of_cons]%elem_of_cons; [| |done];
    exists f; split; try done; [by left|right].
  destruct (saveFix_rejects be _); by eexists _, _.
Qed.

Lemma elem_of_concat_map {A B} (g : A → list B) (l : list A) (y : B) :
  y ∈ concat (List.map g l) ↔ ∃ x, x ∈ l ∧ y ∈ g x.
Proof.
  rewrite list_elem_of_In, in_concat. split.
  - intros (ys & Hys & Hy). apply in_map_iff in Hys as (x & <- & Hx).
    exists x. by rewrite !list_elem_of_In.
  - intros (x & Hx & Hy). exists (g x). split.
    + apply in_map. by apply list_elem_of_In.
    + by apply list_elem_of_In.
Qed.

Lemma checkResults_published be p fh deployed f :
  Some (f, true) ∈ checkResults be p fh deployed →
  f ∈ deployed
  ∧ checkOutcome be p (currentDataKeys p) f (fh !!! f) = Ok (f, true).
Proof.
  unfold checkResults.
  intros (f' & Hr & Hin)%list_elem_of_In%in_map_iff.
  destruct (checkOutcome be p (currentDataKeys p) f' (fh !!! f'))
    as [[f'' b]|e] eqn:E; [|done].
  injection Hr as -> ->. apply checkOutcome_fst in E as Hf. subst f'.
  split; [by apply list_elem_of_In|done].
Qed.

(** C6: in a run of the publication pipeline on the deployed fix entities
    that the store returns, the calls after the lookup of the fix entities
    are the checks of the fix entities, in order, followed by the updates.
    The check of a fix entity makes the lookups of its linked identifiers
    and then calls the production-resolution predicate on suggestions linked
    to it only; when the findings of the current run and the key function are
    given and a suggestion linked to the fix entity has its key among the keys
    of the findings, the check calls the predicate on none of them. The
    updates call no predicate, and such a fix entity is deemed not resolved:
    it is left as it was and is not saved. *)
Theorem fast_path_short_circuit be p deployed w :
  processes be p deployed →
  ∃ checks publishing,
    trace (publishDeployedFixEntities be p w).2
    = (trace w
       ++ EvAllByOpportunityIdAndStatus (p_opportunityId p) DEPLOYED
          :: concat checks ++ publishing)%list
    ∧ Forall2 (λ f calls, checked_as be p (fixHeap w !!! f) calls)
        deployed checks
    ∧ Forall (λ e, ∀ s, e ≠ EvIsIssueResolvedOnProduction s) publishing
    ∧ ∀ f x s,
        f ∈ deployed →
        fixHeap w !! f = Some x →
        linked be x s →
        still_found p s →
        fixHeap (publishDeployedFixEntities be p w).2 !! f = Some x
        ∧ EvSaveFix f ∉ publishing.
Proof.
  intros Hproc.
  destruct (publishDeployedFixEntities_run be p deployed w Hproc)
    as (w' & -> & Htrace & Hfh & _).
  cbn [snd]. eexists _, _. split; [exact Htrace|]. split; [|split].
  - apply Forall2_fmap_r, Forall_Forall2_diag, Forall_forall.
    intros f _. apply checkTrace_checked_as.
  - apply Forall_forall. intros e (r & _ & He)%elem_of_concat_map s ->.
    apply publishTrace_events in He as (f & _ & [?|(? & ? & ?)]); done.
  - intros f x s Hin Hx Hs Hfound.
    assert (Some (f, true) ∉ checkResults be p (fixHeap w) deployed) as Hno.
    { intros [_ Hout]%checkResults_published.
      rewrite (list_lookup_total_correct _ _ _ Hx) in Hout.
      by apply (checkOutcome_still_found be p f x s _ Hs Hfound) in Hout. }
    split.
    + rewrite Hfh. by rewrite decide_False.
    + intros (r & Hr & He)%elem_of_concat_map.
      apply publishTrace_events in He as (f' & -> & [[= ->]|(? & ? & ?)]);
        done.
Qed.

(** ** Whom the stages work on *)

(** Whom the loop over the fixed suggestions visits. *)
Lemma fixedSuggestions_found (p : ReconcileParams) h candidates results x :
  Forall2 (λ c res, res = settled (fixedAnswer p h c)) candidates results →
  x ∈ List.map fst (List.filter (λ r0 : nat * value, truthy r0.2)
                      (omap id results)) →
  x ∈ candidates
  ∧ ∃ isFixed answer,
      isIssueFixedWithAISuggestion p = Some isFixed
      ∧ isFixed (getObject h x) = Ok answer
      ∧ truthy answer = true.
Proof.
  intros Hall Hx.
  apply list_elem_of_In, in_map_iff in Hx as ([x' v] & <- & Hin).
  apply filter_In in Hin as [Hin Htruthy]. simpl in *.
  apply list_elem_of_In, list_elem_of_omap in Hin as (res & Hres & Hid).
  simpl in Hid. subst res.
  apply list_elem_of_lookup in Hres as [i Hi].
  destruct (Forall2_lookup_r _ _ _ _ _ Hall Hi) as (c & Hc & Hans).
  unfold fixedAnswer in Hans.
  destruct (isIssueFixedWithAISuggestion p) as [isFixed|] eqn:Hpred.
  - destruct (isFixed (getObject h c)) as [v'|e] eqn:Hv; [|done].
    injection Hans as Hx1 Hv1. subst.
    split; [by eapply list_elem_of_lookup_2|]. by exists isFixed, v'.
  - injection Hans as Hx1 Hv1. by subst.
Qed.

Lemma elem_of_candidatesOf p h r :
  r ∈ candidatesOf p h ↔ r ∈ disappearedSuggestions p ∧ getStatus h r = NEW.
Proof.
  unfold candidatesOf. rewrite elem_of_List_filter, bool_decide_eq_true. done.
Qed.

Lemma elem_of_fixedSuggestionsOf p h r :
  r ∈ fixedSuggestionsOf p h ↔
    r ∈ candidatesOf p h
    ∧ ∃ isFixed answer,
        isIssueFixedWithAISuggestion p = Some isFixed
        ∧ isFixed (getObject h r) = Ok answer
        ∧ truthy answer = true.
Proof.
  unfold fixedSuggestionsOf. split.
  - apply fixedSuggestions_found.
    apply Forall2_fmap_r, Forall_Forall2_diag, Forall_forall. done.
  - intros (Hcand & isFixed & answer & Hpred & Hans & Htruthy).
    apply list_elem_of_In, in_map_iff. exists (r, answer). split; [done|].
    apply filter_In. split; [|done].
    apply list_elem_of_In, list_elem_of_omap. exists (Some (r, answer)).
    split; [|done]. apply list_elem_of_In, in_map_iff. exists r.
    split; [|by apply list_elem_of_In].
    unfold fixedAnswer. by rewrite Hpred, Hans.
Qed.

Lemma markedObject_lookup h r s :
  h !! r = Some s → markedObject h r = fixedObject s.
Proof.
  intros Hs. unfold markedObject. apply getObject_lookup.
  by rewrite list_lookup_alter_eq, Hs.
Qed.









(** ** Idempotence of the synchronizer *)

Lemma js_Map_snoc {V} (entries : list (string * V)) k v :
  js_Map (entries ++ [(k, v)]) = <[k := v]> (js_Map entries).
Proof. unfold js_Map. by rewrite foldl_app. Qed.

(** An entry of the map is an entry of the list. *)
Lemma js_Map_lookup_Some {A} (key : A → string) (l : list A) k d :
  js_Map (List.map (λ d, (key d, d)) l) !! k = Some d → d ∈ l ∧ key d = k.
Proof.
  induction l as [|x l IH] using rev_ind; [done|].
  rewrite map_app. simpl. rewrite js_Map_snoc.
  destruct (decide (key x = k)) as [<-|Hne].
  - rewrite lookup_insert_eq. intros [= <-]. split; [|done].
    apply elem_of_app. right. by left.
  - rewrite lookup_insert_ne by done. intros [? ?]%IH. split; [|done].
    apply elem_of_app. by left.
Qed.

Lemma js_Map_lookup_is_Some {A} (key : A → string) (l : list A) d :
  d ∈ l → is_Some (js_Map (List.map (λ d, (key d, d)) l) !! key d).
Proof.
  induction l as [|x l IH] using rev_ind; [by intros ?%elem_of_nil|].
  rewrite map_app. simpl. rewrite js_Map_snoc. intros Hd.
  destruct (decide (key x = key d)) as [->|Hne].
  - rewrite lookup_insert_eq. eauto.
  - rewrite lookup_insert_ne by done. apply IH.
    apply elem_of_app in Hd as [?|Hd]; [done|].
    apply list_elem_of_singleton in Hd. by subst.
Qed.

(** With distinct keys, every entry of the list is in the map. *)
Lemma js_Map_lookup_NoDup {A} (key : A → string) (l : list A) d :
  NoDup (List.map key l) → d ∈ l →
  js_Map (List.map (λ d, (key d, d)) l) !! key d = Some d.
Proof.
  intros Hnd Hd. destruct (js_Map_lookup_is_Some key l d Hd) as [d' Hd'].
  rewrite Hd'. f_equal.
  apply js_Map_lookup_Some in Hd' as [Hin Hk].
  apply list_elem_of_lookup in Hd as [i Hi].
  apply list_elem_of_lookup in Hin as [j Hj].
  assert (i = j) as ->; [|congruence].
  eapply NoDup_lookup; [exact Hnd| |].
  - change (List.map key l) with (key <$> l). by rewrite list_lookup_fmap, Hi.
  - change (List.map key l) with (key <$> l).
    by rewrite list_lookup_fmap, Hj, <- Hk.
Qed.

Lemma bind_Ok_inv {A B} (m : M A) (k : A → M B) w b w' :
  (m ≫= k) w = (Ok b, w') → ∃ a w1, m w = (Ok a, w1) ∧ k a w1 = (Ok b, w').
Proof.
  unfold_M. destruct (m w) as [[a|e] w1]; [|done]. eauto.
Qed.

(** The world after the outdating step: the statuses of the selected
    suggestions may have changed, and log lines and at most one bulk update
    were recorded. *)
Lemma handleOutdatedSuggestions_world be buildKey ctx l keys target urls w :
  ∃ h' t,
    (handleOutdatedSuggestions be buildKey ctx l keys target urls w).2
    = set_trace (trace w ++ t) (set_heap h' w)
    ∧ Forall (λ e, ∀ records, e ≠ EvAddSuggestions records) t
    ∧ ∃ transitioned,
        (∀ r, r ∈ transitioned →
              r ∈ existingOutdatedSuggestions buildKey (heap w) l keys urls)
        ∧ h' = foldr (alter (with_status (default OUTDATED target))) (heap w)
                 transitioned.
Proof.
  assert (∀ sel : list nat, ∀ r : nat, r ∈ [] → r ∈ sel) as Hnil.
  { intros sel r Hr. by apply elem_of_nil in Hr. }
  assert (∀ q (sel : list nat) r, r ∈ List.filter q sel → r ∈ sel) as Hsub.
  { intros q sel r Hr. apply list_elem_of_In, filter_In in Hr as [Hr _].
    by apply list_elem_of_In. }
  unfold handleOutdatedSuggestions, bulkUpdateStatus.
  destruct (dataAccess ctx).
  2:{ exists (heap w), []. rewrite app_nil_r. destruct w. simpl.
      split; [done|]. split; [done|]. exists []. split; [apply Hnil|done]. }
  mrun. set (sel := existingOutdatedSuggestions _ _ _ _ _).
  destruct ((0 <? length sel)%nat && (length sel <=? 10)%nat);
    [|destruct (10 <? length sel)%nat]; mrun;
    (destruct (isNonEmptyArray sel); mrun;
     [destruct (bulkUpdateStatus_rejects be sel _); mrun|]);
    rewrite <- ?app_assoc;
    (eexists _, _; split; [reflexivity|]; split;
     [repeat constructor; done|]).
  all: first [ by (exists sel)
             | by (eexists; split; [apply Hsub|reflexivity])
             | by (exists []; split; [apply Hnil|reflexivity]) ].
Qed.

Lemma outdatable_object buildKey h keys urls r :
  outdatable buildKey h keys urls r
  = negb (bool_decide (buildKey (getData h r) ∈ keys))
    && object_outdatable urls (getObject h r).
Proof.
  unfold outdatable, object_outdatable, getData, getStatus.
  by rewrite !andb_assoc.
Qed.

Section Idempotence.
Context (be : Backend) (p : SyncParams) (ctx : Context).
Context (Hctx : context p = Some ctx).
Context (Hdata : mergeDataFunction p = None).
Context (Hstatus : mergeStatusFunction p = None).
Context (Hstore : existingSuggestions p = None).

#[local] Abbreviation key := (buildKey p).
#[local] Abbreviation keys :=
  (list_to_set (List.map (buildKey p) (newData p)) : gset string).
#[local] Abbreviation byKey :=
  (js_Map (List.map (λ d, (buildKey p d, d)) (newData p))).
#[local] Abbreviation target :=
  (default OUTDATED (statusToSetForOutdated p)).

(** An object that a further run with the same findings leaves alone. *)
Definition settled_object (s : suggestion) : Prop :=
  (key (data s) ∈ keys →
     (∀ d, byKey !! key (data s) = Some d → d ∪ data s = data s)
     ∧ status s ≠ OUTDATED)
  ∧ (key (data s) ∉ keys →
     object_outdatable (scrapedUrlsSet p) s = true → status s = target).

Lemma settled_same_content s1 s2 :
  same_content s1 s2 → settled_object s1 → settled_object s2.
Proof.
  intros (_ & Hst & Hd). unfold settled_object, object_outdatable.
  by rewrite Hst, Hd.
Qed.

(** The store after a run: every stored suggestion is settled, and every
    finding has a stored suggestion with its key. *)
Definition settled_store (w1 : world) : Prop :=
  (∀ r, r ∈ stored w1 → ∃ s, heap w1 !! r = Some s ∧ settled_object s)
  ∧ (∀ d, d ∈ newData p →
       ∃ r s, r ∈ stored w1 ∧ heap w1 !! r = Some s
              ∧ key (data s) = key d).

(** The store is as it was after the first run, up to the actor stamp, and
    no batch create was recorded since. *)
Definition unchanged_since (w1 w : world) : Prop :=
  stored w = stored w1
  ∧ length (heap w) = length (heap w1)
  ∧ (∀ r s1, heap w1 !! r = Some s1 →
       ∃ s2, heap w !! r = Some s2 ∧ same_content s1 s2)
  ∧ emitted not_addSuggestions (trace w1) w.

Lemma unchanged_since_accepts w1 e :
  not_addSuggestions e → accepts (unchanged_since w1) e.
Proof.
  intros He w (? & ? & ? & Hem). repeat split; try done.
  by apply emitted_accepts.
Qed.

Lemma unchanged_since_lookup w1 w r :
  settled_store w1 → unchanged_since w1 w → r ∈ stored w →
  ∃ s1 s2, heap w1 !! r = Some s1 ∧ heap w !! r = Some s2
           ∧ same_content s1 s2 ∧ settled_object s2.
Proof.
  intros [Hset _] (Hst & _ & Hsame & _) Hr. rewrite Hst in Hr.
  destruct (Hset r Hr) as (s1 & Hs1 & Hsettled).
  destruct (Hsame r s1 Hs1) as (s2 & Hs2 & Hc).
  exists s1, s2. split; [done|]. split; [done|]. split; [done|].
  by apply (settled_same_content s1).
Qed.

(** Putting back an object of the same content keeps the store as it was. *)
Lemma unchanged_since_alter w1 w f r :
  (∀ s, heap w !! r = Some s → same_content s (f s)) →
  unchanged_since w1 w →
  unchanged_since w1 (set_heap (alter f r (heap w)) w).
Proof.
  intros Hf (Hst & Hlen & Hsame & Hem). repeat split; try done.
  - simpl. by rewrite length_alter.
  - intros r' s1 Hs1. destruct (Hsame r' s1 Hs1) as (s2 & Hs2 & Hc).
    simpl. destruct (decide (r = r')) as [->|Hne].
    + rewrite list_lookup_alter_eq, Hs2. simpl. eexists. split; [done|].
      destruct (Hf s2 Hs2) as (? & ? & ?). destruct Hc as (? & ? & ?).
      repeat split; congruence.
    + rewrite list_lookup_alter_ne by done. eauto.
Qed.

Lemma unchanged_since_step w1 w w' :
  unchanged_since w1 w →
  stored w' = stored w →
  length (heap w') = length (heap w) →
  (∀ r s, heap w !! r = Some s →
     ∃ s', heap w' !! r = Some s' ∧ same_content s s') →
  (∃ t, trace w' = (trace w ++ t)%list ∧ Forall not_addSuggestions t) →
  unchanged_since w1 w'.
Proof.
  intros (Hst & Hlen & Hsame & (t1 & Ht1 & Hall1)) Hst' Hlen' Hsame'
    (t & Ht & Hall).
  split; [congruence|]. split; [congruence|]. split.
  - intros r s1 Hs1. destruct (Hsame r s1 Hs1) as (s2 & Hs2 & Hc).
    destruct (Hsame' r s2 Hs2) as (s3 & Hs3 & Hc').
    exists s3. split; [done|].
    destruct Hc as (? & ? & ?), Hc' as (? & ? & ?). repeat split; congruence.
  - exists (t1 ++ t)%list. rewrite Ht, Ht1, app_assoc. split; [done|].
    by apply Forall_app.
Qed.

Lemma length_foldr_alter {A} (f : A → A) refs (h : list A) :
  length (foldr (alter f) h refs) = length h.
Proof.
  induction refs as [|x refs IH]; [done|]. simpl. by rewrite length_alter.
Qed.

(** The second run marks nothing that is not already marked. *)
Lemma second_run_outdating w1 w :
  settled_store w1 → unchanged_since w1 w →
  unchanged_since w1
    (handleOutdatedSuggestions be key ctx (stored w) keys
       (statusToSetForOutdated p) (scrapedUrlsSet p) w).2.
Proof.
  intros Hset Hw.
  destruct (handleOutdatedSuggestions_world be key ctx (stored w) keys
              (statusToSetForOutdated p) (scrapedUrlsSet p) w)
    as (h' & t & -> & Hall & transitioned & Hsub & ->).
  apply (unchanged_since_step w1 w); try done.
  - apply length_foldr_alter.
  - intros r s Hs. simpl.
    destruct (decide (r ∈ transitioned)) as [Hin|Hnin].
    + rewrite foldr_alter_in, Hs by done. simpl. eexists. split; [done|].
      apply Hsub in Hin. rewrite existingOutdatedSuggestions_filter in Hin.
      apply elem_of_List_filter in Hin as [Hr Hout].
      rewrite outdatable_object in Hout.
      apply andb_true_iff in Hout as [Hk Hobj].
      apply negb_true_iff, bool_decide_eq_false in Hk.
      destruct (unchanged_since_lookup w1 w r Hset Hw Hr)
        as (s1 & s2 & _ & Hs2 & _ & _ & Hsettled).
      rewrite Hs in Hs2. injection Hs2 as <-.
      unfold getData in Hk. rewrite (getObject_lookup _ _ _ Hs) in Hk, Hobj.
      split; [done|]. split; [|done]. simpl. symmetry. by apply Hsettled.
    + rewrite foldr_alter_notin by done. by exists s.
  - exists t. split; [done|].
    eapply Forall_impl; [exact Hall|]. intros e He. exact He.
Qed.

Lemma settled_merge s :
  settled_object s → key (data s) ∈ keys →
  default defaultMergeDataFunction (mergeDataFunction p) (data s)
    (byKey !! key (data s)) = data s.
Proof.
  intros [Hin _] Hk. destruct (Hin Hk) as [Hmerge _].
  rewrite Hdata. simpl. unfold defaultMergeDataFunction.
  destruct (byKey !! key (data s)) as [d|] eqn:E; simpl.
  - by apply Hmerge.
  - by rewrite (left_id_L ∅ (∪)).
Qed.

(** The second run puts back what it finds in a matched suggestion. *)
Lemma second_run_update w1 x :
  settled_store w1 → x ∈ stored w1 →
  (∀ s1, heap w1 !! x = Some s1 → key (data s1) ∈ keys) →
  pres (unchanged_since w1) (updateExisting be p ctx byKey x).
Proof.
  intros Hset Hx Hk w Hw.
  assert (x ∈ stored w) as Hx' by (by destruct Hw as [-> _]).
  destruct (unchanged_since_lookup w1 w x Hset Hw Hx')
    as (s1 & s2 & Hs1 & Hs2 & (_ & _ & Hd) & Hsettled).
  assert (key (data s2) ∈ keys) as Hk2 by (rewrite Hd; by apply Hk).
  pose proof (settled_merge s2 Hsettled Hk2) as Hmerge.
  destruct Hsettled as [Hin _]. destruct (Hin Hk2) as [_ Hnot].
  unfold updateExisting, defaultMergeStatusFunction, save.
  rewrite Hstatus. unfold setData, setStatus, setUpdatedBy, getStatus, getData.
  mrun. rewrite (getObject_lookup _ _ _ Hs2), Hmerge.
  rewrite (getObject_lookup _ _ (with_data (data s2) s2))
    by (by rewrite list_lookup_alter_eq, Hs2).
  simpl status.
  destruct (decide (status s2 = REJECTED)) as [HR|HR];
    [|destruct (decide (status s2 = OUTDATED)) as [HO|HO]; [done|]];
    mrun.
  all: apply (unchanged_since_step w1 w); world_simpl; try done.
  all: try (by rewrite !length_alter).
  all: try (intros r s Hs; destruct (decide (x = r)) as [->|Hne];
            [rewrite !list_lookup_alter_eq, Hs; simpl; eexists;
             (split; [done|]); rewrite Hs2 in Hs; by injection Hs as <-
            |rewrite !list_lookup_alter_ne by done; by exists s]).
  all: rewrite <- ?app_assoc; eexists; (split; [reflexivity|]);
    repeat constructor; done.
Qed.

(** With every key covered, the second run has nothing to create. *)
Lemma second_run_create w1 w :
  settled_store w1 → unchanged_since w1 w →
  newSuggestions p ctx
    (list_to_set (List.map (λ s, key (getData (heap w) s)) (stored w)))
  = [].
Proof.
  intros [_ Hcover] (Hst & _ & Hsame & _). unfold newSuggestions.
  match goal with |- List.map _ ?l = [] => assert (l = []) as ->; [|done] end.
  apply elem_of_nil_inv. intros d [Hd Hnot]%elem_of_List_filter.
  apply negb_true_iff, bool_decide_eq_false in Hnot. apply Hnot.
  destruct (Hcover d Hd) as (r & s1 & Hr & Hs1 & Hkey).
  destruct (Hsame r s1 Hs1) as (s2 & Hs2 & (_ & _ & Hdata2)).
  apply elem_of_list_to_set, list_elem_of_In, in_map_iff.
  exists r. split; [|apply list_elem_of_In; by rewrite Hst].
  unfold getData. by rewrite (getObject_lookup _ _ _ Hs2), Hdata2.
Qed.

(** The second run. *)
Lemma second_run w1 :
  settled_store w1 → pres (unchanged_since w1) (syncSuggestions be p).
Proof.
  intros Hset w Hw. unfold syncSuggestions. rewrite Hctx, Hstore.
  unfold getSuggestions. mrun.
  assert (unchanged_since w1 (set_trace (trace w ++ [EvGetSuggestions]) w))
    as HwA by (by apply unchanged_since_accepts).
  set (wA := set_trace _ w) in *.
  destruct (getSuggestions_rejects be); mrun; [done|].
  change (stored w) with (stored wA). change (heap w) with (heap wA).
  apply (trans_bind (unchanged_since w1)); [|done|].
  { by apply second_run_outdating. }
  intros _ wB HwB. rewrite run_log_bind, run_gets_bind. world_simpl.
  assert (unchanged_since w1
            (set_trace (trace wB ++ [EvLog Debug (MsgExisting (length (stored wA)))]) wB))
    as HwB' by (by apply unchanged_since_accepts).
  set (wB' := set_trace _ wB) in *.
  apply (trans_bind (unchanged_since w1)); [|done|].
  { apply pres_mapM; [|done]. intros x [Hx Hkx]%elem_of_List_filter.
    apply bool_decide_eq_true in Hkx.
    assert (x ∈ stored wB) as HxB.
    { destruct HwB as [-> _]. by destruct HwA as [<- _]. }
    destruct (unchanged_since_lookup w1 wB x Hset HwB HxB)
      as (s1 & s2 & Hs1 & Hs2 & (_ & _ & Hd) & _).
    apply second_run_update; [done|by destruct HwB as [<- _]|].
    intros s1' Hs1'. rewrite Hs1 in Hs1'. injection Hs1' as <-.
    unfold getData in Hkx. rewrite (getObject_lookup _ _ _ Hs2) in Hkx.
    by rewrite <- Hd. }
  intros promises wC HwC.
  apply (trans_bind (unchanged_since w1)); [|done|].
  { by apply pres_awaitAll. }
  intros _ wD HwD. rewrite run_log_bind.
  rewrite (createNew_nothing be p ctx _ _ (second_run_create w1 wA Hset HwA)).
  by apply unchanged_since_accepts.
Qed.
End Idempotence.

Lemma getSuggestions_Ok_inv be w l w' :
  getSuggestions be w = (Ok l, w') →
  l = stored w ∧ heap w' = heap w ∧ stored w' = stored w.
Proof.
  unfold getSuggestions. mrun. destruct (getSuggestions_rejects be); mrun;
    [done|]. by intros [= <- <-].
Qed.

Lemma handleOutdatedSuggestions_Ok_inv be buildKey ctx l keys target urls w w' :
  handleOutdatedSuggestions be buildKey ctx l keys target urls w = (Ok tt, w') →
  heap w' = foldr (alter (with_status (default OUTDATED target))) (heap w)
              (existingOutdatedSuggestions buildKey (heap w) l keys urls)
  ∧ stored w' = stored w.
Proof.
  unfold handleOutdatedSuggestions, bulkUpdateStatus.
  destruct (dataAccess ctx); [|done].
  mrun. set (sel := existingOutdatedSuggestions _ _ _ _ _).
  destruct ((0 <? length sel)%nat && (length sel <=? 10)%nat);
    [|destruct (10 <? length sel)%nat]; mrun;
    (destruct sel eqn:E; simpl isNonEmptyArray; cbv iota; mrun;
     [|destruct (bulkUpdateStatus_rejects be _ _); mrun]);
    try done; by intros [= <-].
Qed.

Lemma createNew_Ok_inv be p ctx ek w w' :
  creates_as_given be →
  createNew be p ctx ek w = (Ok tt, w') →
  ∃ created,
    Forall2 (λ c n, data c = ns_data n
                      ∧ ∀ st, ns_status n = Some st → status c = st)
      created (newSuggestions p ctx ek)
    ∧ heap w' = (heap w ++ created)%list
    ∧ stored w' = (stored w ++ seq (length (heap w)) (length created))%list.
Proof.
  intros Hcreate. unfold createNew.
  destruct (newSuggestions p ctx ek) as [|n ns] eqn:E.
  { intros [= <-]. exists []. rewrite !app_nil_r. by repeat split. }
  change (0 <? length (n :: ns))%nat with true. cbv iota.
  rewrite run_log_bind. unfold addSuggestions. mrun.
  destruct (addSuggestions_reply be (n :: ns)) as [reply|e] eqn:Hreply; [|done].
  rewrite run_lift_bind. mrun.
  destruct (Hcreate _ _ Hreply) as (created & Hc & Hall). rewrite Hc.
  change (default [] (Some created)) with created.
  set (w2 := set_trace _ _).
  intros Hrun. exists created. split; [done|].
  assert (heap w' = heap w2 ∧ stored w' = stored w2) as [-> ->]; [|done].
  set (I := λ w0, heap w0 = heap w2 ∧ stored w0 = stored w2).
  assert (trace_blind I) as Hblind by (by intros w0 t).
  assert (∀ e, accepts I e) as Hacc by (intros; by apply trace_blind_accepts).
  enough (I w') as HI by exact HI.
  match type of Hrun with ?m w2 = _ =>
    assert (pres I m) as Hp end.
  { effects_auto. apply pres_effects_reportCreateErrors; auto. }
  specialize (Hp w2 (conj eq_refl eq_refl)). by rewrite Hrun in Hp.
Qed.

Section FirstRun.
Context (be : Backend) (p : SyncParams) (ctx : Context).
Context (Hctx : context p = Some ctx).
Context (Hdata : mergeDataFunction p = None).
Context (Hstatus : mergeStatusFunction p = None).
Context (Hstore : existingSuggestions p = None).
Context (Hdistinct : NoDup (List.map (buildKey p) (newData p))).
Context (Hbuilder : builder_keeps_finding p).
Context (Hstable : key_stable p).
Context (Hcreates : creates_as_given be).

#[local] Abbreviation key := (buildKey p).
#[local] Abbreviation keys :=
  (list_to_set (List.map (buildKey p) (newData p)) : gset string).
#[local] Abbreviation byKey :=
  (js_Map (List.map (λ d, (buildKey p d, d)) (newData p))).

(** A matched suggestion after its update: the finding is merged in. *)
Definition merged_object (k : string) (s : suggestion) : Prop :=
  key (data s) = k
  ∧ (∀ d, byKey !! k = Some d → d ∪ data s = data s)
  ∧ status s ≠ OUTDATED.

Lemma merged_settled k s :
  k ∈ keys → merged_object k s → settled_object p s.
Proof.
  intros Hk (Hkey & Hmerge & Hst). split.
  - intros _. rewrite Hkey. done.
  - intros Hnot. by rewrite Hkey in Hnot.
Qed.

Lemma byKey_lookup k :
  k ∈ keys → ∃ d, byKey !! k = Some d ∧ d ∈ newData p ∧ key d = k.
Proof.
  intros Hk. apply elem_of_list_to_set, list_elem_of_In, in_map_iff in Hk
    as (d & <- & Hd%list_elem_of_In).
  destruct (js_Map_lookup_is_Some key (newData p) d Hd) as [d' Hd'].
  exists d'. split; [done|]. by apply js_Map_lookup_Some in Hd'.
Qed.

Lemma union_absorb (d e : Data) : d ∪ (d ∪ e) = d ∪ e.
Proof. by rewrite (assoc_L (∪)), (idemp_L (∪)). Qed.

Definition merged_at (r : nat) (k : string) (w : world) : Prop :=
  ∃ s, heap w !! r = Some s ∧ merged_object k s.

Lemma updateExisting_merges_finding byKey' r s w :
  byKey' = byKey →
  heap w !! r = Some s → key (data s) ∈ keys →
  merged_at r (key (data s)) (updateExisting be p ctx byKey' r w).2.
Proof.
  intros -> Hs Hk.
  destruct (updateExisting_self be p ctx byKey r s w Hstatus Hs)
    as (s' & Hs' & Hst & Hd & _).
  exists s'. split; [done|].
  destruct (byKey_lookup _ Hk) as (d & Hlook & Hin & Hkd).
  rewrite Hdata, Hlook in Hd. simpl in Hd.
  unfold defaultMergeDataFunction in Hd. simpl in Hd.
  split; [|split].
  - rewrite Hd, <- Hkd. by apply Hstable.
  - intros d' Hd'. rewrite Hlook in Hd'. injection Hd' as <-.
    rewrite Hd. apply union_absorb.
  - rewrite Hst. destruct (status s); simpl; try done.
    by destruct (siteRequiresValidation ctx).
Qed.

Lemma pres_merged_at r k x :
  k ∈ keys → pres (merged_at r k) (updateExisting be p ctx byKey x).
Proof.
  intros Hk. destruct (decide (x = r)) as [->|Hne].
  - intros w (s & Hs & Hkey & Hmerge & Hst).
    destruct (updateExisting_self be p ctx byKey r s w Hstatus Hs)
      as (s' & Hs' & Hst' & Hd & _).
    exists s'. split; [done|].
    destruct (byKey_lookup _ Hk) as (d & Hlook & Hin & Hkd).
    rewrite Hdata, Hkey, Hlook in Hd. simpl in Hd.
    unfold defaultMergeDataFunction in Hd. simpl in Hd.
    rewrite (Hmerge d Hlook) in Hd. unfold merged_object. rewrite Hd.
    split; [done|]. split; [done|]. rewrite Hst'.
    by destruct (status s).
  - apply (pres_exists (keeps r)). intros s.
    by apply pres_updateExisting_ne.
Qed.

(** After the outdating step of the first run, a suggestion whose key is
    gone is marked or was not eligible. *)
Lemma first_run_outdated w r s0 :
  r ∈ stored w → heap w !! r = Some s0 → key (data s0) ∉ keys →
  let target := default OUTDATED (statusToSetForOutdated p) in
  let sel := existingOutdatedSuggestions key (heap w) (stored w) keys
               (scrapedUrlsSet p) in
  ∃ sB, foldr (alter (with_status target)) (heap w) sel !! r = Some sB
        ∧ data sB = data s0
        ∧ (object_outdatable (scrapedUrlsSet p) sB = true →
           status sB = target).
Proof.
  intros Hr Hs0 Hk target sel. destruct (decide (r ∈ sel)) as [Hin|Hnin].
  - rewrite foldr_alter_in, Hs0 by done. simpl. eexists. split; [done|].
    by split.
  - rewrite foldr_alter_notin by done. exists s0. split; [done|].
    split; [done|]. intros Hobj. exfalso. apply Hnin. subst sel.
    rewrite existingOutdatedSuggestions_filter.
    apply elem_of_List_filter. split; [done|].
    rewrite outdatable_object. unfold getData.
    rewrite (getObject_lookup _ _ _ Hs0), Hobj.
    by rewrite bool_decide_eq_false_2.
Qed.

Lemma first_run_matched w r s0 :
  heap w !! r = Some s0 → key (data s0) ∈ keys →
  let target := default OUTDATED (statusToSetForOutdated p) in
  let sel := existingOutdatedSuggestions key (heap w) (stored w) keys
               (scrapedUrlsSet p) in
  foldr (alter (with_status target)) (heap w) sel !! r = Some s0.
Proof.
  intros Hs0 Hk target sel. rewrite foldr_alter_notin; [done|].
  subst sel. rewrite existingOutdatedSuggestions_spec. unfold getData.
  rewrite (getObject_lookup _ _ _ Hs0). by intros (_ & H & _).
Qed.

Lemma first_run w w1 :
  (∀ r, r ∈ stored w → is_Some (heap w !! r)) →
  syncSuggestions be p w = (Ok tt, w1) →
  settled_store p w1.
Proof.
  intros Hvalid Hrun. unfold syncSuggestions in Hrun.
  rewrite Hctx, Hstore in Hrun.
  apply bind_Ok_inv in Hrun as (l & wA & HA & Hrun).
  apply getSuggestions_Ok_inv in HA as (-> & HheapA & HstoredA).
  rewrite run_gets_bind in Hrun.
  apply bind_Ok_inv in Hrun as ([] & wB & HB & Hrun).
  apply handleOutdatedSuggestions_Ok_inv in HB as [HheapB HstoredB].
  rewrite HheapA in HheapB.
  rewrite run_log_bind, run_gets_bind in Hrun. world_simpl.
  set (wB' := set_trace _ wB) in Hrun.
  apply bind_Ok_inv in Hrun as (promises & wC & HC & Hrun).
  apply bind_Ok_inv in Hrun as (results & wC' & HD & Hrun).
  pose proof (awaitAll_snd promises wC) as HwC'. rewrite HD in HwC'.
  simpl in HwC'. subst wC'. rewrite run_log_bind in Hrun.
  set (wD := set_trace _ wC) in Hrun.
  apply (createNew_Ok_inv be p ctx _ _ _ Hcreates) in Hrun
    as (created & Hcreated & Hheap1 & Hstored1).
  change (heap wD) with (heap wC) in Hheap1, Hstored1.
  change (stored wD) with (stored wC) in Hstored1.
  set (matched := List.filter _ (stored w)) in HC.
  assert (wC = (mapM (updateExisting be p ctx byKey) matched wB').2) as HwC
    by (by rewrite HC).
  assert (stored wC = stored w) as HstoredC.
  { rewrite HwC.
    set (I := λ w0 : world, stored w0 = stored w).
    assert (heap_blind I) by (by intros w0 h).
    assert (∀ e, accepts I e) by (by intros e w0).
    enough (pres I (mapM (updateExisting be p ctx byKey) matched)) as Hp
      by (apply Hp; unfold I; simpl; congruence).
    apply pres_mapM. intros x _. by apply pres_effects_updateExisting. }
  (* the objects of the existing suggestions after the update loop *)
  assert (∀ r, r ∈ stored w →
            ∃ s, heap wC !! r = Some s ∧ settled_object p s
                 ∧ ∀ s0, heap w !! r = Some s0 → key (data s0) ∈ keys →
                         key (data s) = key (data s0)) as Hold.
  { intros r Hr. destruct (Hvalid r Hr) as [s0 Hs0].
    destruct (decide (key (data s0) ∈ keys)) as [Hk|Hk].
    - pose proof (first_run_matched w r s0 Hs0 Hk) as HsB. simpl in HsB.
      rewrite <- HheapB in HsB.
      assert (merged_at r (key (data s0)) wC) as (s & Hs & Hm).
      { rewrite HwC.
        apply (mapM_reaches _ (keeps r s0) (merged_at r (key (data s0)))
                 _ r).
        - apply updateExisting_Ok.
        - intros. by apply pres_updateExisting_ne.
        - intros. by apply pres_merged_at.
        - intros w0 Hw0. by apply updateExisting_merges_finding.
        - done.
        - apply elem_of_List_filter. split; [done|].
          apply bool_decide_eq_true. unfold getData. simpl.
          by rewrite (getObject_lookup _ _ _ HsB). }
      exists s. split; [done|]. split; [by apply (merged_settled _ _ Hk)|].
      intros s0' Hs0' _. rewrite Hs0 in Hs0'. injection Hs0' as <-.
      by destruct Hm.
    - destruct (first_run_outdated w r s0 Hr Hs0 Hk)
        as (sB & HsB & HdB & Hout). simpl in HsB, Hout.
      rewrite <- HheapB in HsB.
      exists sB. split.
      { rewrite HwC.
        enough (pres (keeps r sB)
                  (mapM (updateExisting be p ctx byKey) matched)) as Hp
          by (by apply Hp).
        apply pres_mapM. intros x Hx. apply pres_updateExisting_ne.
        intros ->. apply elem_of_List_filter in Hx as [_ Hx].
        apply bool_decide_eq_true in Hx. unfold getData in Hx. simpl in Hx.
        rewrite (getObject_lookup _ _ _ HsB), HdB in Hx. done. }
      split.
      { split; [by rewrite HdB|]. intros _. exact Hout. }
      intros s0' Hs0'. rewrite Hs0 in Hs0'. by injection Hs0' as <-. }
  split.
  - intros r Hr. rewrite Hstored1, Hheap1 in *. simpl in Hr.
    rewrite HstoredC in Hr. apply elem_of_app in Hr as [Hr|Hr].
    + destruct (Hold r Hr) as (s & Hs & Hset & _).
      exists s. split; [by apply lookup_app_l_Some|done].
    + apply list_elem_of_In, in_seq in Hr. simpl in Hr.
      destruct (lookup_lt_is_Some_2 created (r - length (heap wC)))
        as [c Hc]; [lia|].
      exists c. split.
      { rewrite lookup_app_r by lia. done. }
      destruct (Forall2_lookup_l _ _ _ _ _ Hcreated Hc) as (n & Hn & Hcd & Hcs).
      unfold newSuggestions in Hn.
      change (List.map ?f ?l) with (f <$> l) in Hn.
      apply list_lookup_fmap_Some in Hn as (d & -> & Hd).
      simpl in Hcd, Hcs.
      assert (d ∈ newData p) as Hin.
      { assert (d ∈ List.filter
                  (λ d0, negb (bool_decide (key d0 ∈
                     (list_to_set (List.map (λ s, key (getData (heap wA) s))
                        (stored w)) : gset string)))) (newData p)) as Hf
          by (apply list_elem_of_lookup; eauto).
        by apply elem_of_List_filter in Hf as [? _]. }
      destruct (Hbuilder d Hin) as [Hkey Hsub].
      apply (merged_settled (key d)).
      { apply elem_of_list_to_set, list_elem_of_In, in_map.
        by apply list_elem_of_In. }
      split; [by rewrite Hcd|]. split.
      * intros d'. rewrite (js_Map_lookup_NoDup key _ d Hdistinct Hin).
        intros [= <-]. rewrite Hcd. by apply map_subseteq_union.
      * rewrite (Hcs _ eq_refl). by destruct (siteRequiresValidation ctx).
  - intros d Hd.
    destruct (decide (key d ∈ (list_to_set
                (List.map (λ s, key (getData (heap wA) s)) (stored w))
                : gset string))) as [Hex|Hnew].
    + apply elem_of_list_to_set, list_elem_of_In, in_map_iff in Hex
        as (r & Hkr & Hr%list_elem_of_In).
      destruct (Hvalid r Hr) as [s0 Hs0].
      destruct (Hold r Hr) as (s & Hs & _ & Hkey).
      exists r, s. rewrite Hstored1, Hheap1. simpl. rewrite HstoredC.
      split; [apply elem_of_app; by left|].
      split; [by apply lookup_app_l_Some|].
      unfold getData in Hkr. rewrite HheapA in Hkr.
      rewrite (getObject_lookup _ _ _ Hs0) in Hkr.
      rewrite (Hkey s0 Hs0); [done|]. rewrite Hkr.
      apply elem_of_list_to_set, list_elem_of_In, in_map.
      by apply list_elem_of_In.
    + assert (d ∈ List.filter
                (λ d0, negb (bool_decide (key d0 ∈
                   (list_to_set (List.map (λ s, key (getData (heap wA) s))
                      (stored w)) : gset string)))) (newData p)) as Hf.
      { apply elem_of_List_filter. split; [done|].
        by apply negb_true_iff, bool_decide_eq_false. }
      apply list_elem_of_lookup in Hf as [i Hi].
      assert (newSuggestions p ctx
                (list_to_set (List.map (λ s, key (getData (heap wA) s))
                   (stored w))) !! i
              = Some (with_ns_status
                        (if siteRequiresValidation ctx
                         then PENDING_VALIDATION else NEW)
                        (mapNewSuggestion p d))) as Hn.
      { unfold newSuggestions. change (List.map ?f ?l) with (f <$> l).
        by rewrite list_lookup_fmap, Hi. }
      destruct (Forall2_lookup_r _ _ _ _ _ Hcreated Hn) as (c & Hc & Hcd & _).
      exists (length (heap wC) + i), c. rewrite Hstored1, Hheap1. simpl.
      split.
      { apply elem_of_app. right. apply list_elem_of_In, in_seq.
        apply lookup_lt_Some in Hc. lia. }
      split.
      { rewrite lookup_app_r by lia.
        by replace (length (heap wC) + i - length (heap wC)) with i by lia. }
      rewrite Hcd. simpl. by apply Hbuilder.
Qed.
End FirstRun.

(** C4 (amended): a second run right after a completed first run with the
    same findings adds no suggestion, records no batch create, and leaves the
    identifier, status and data of every suggestion as they were (only the
    actor stamp may change), provided that the merge functions are the
    defaults, the existing suggestions are read from the store, the findings
    have distinct keys, the builder keeps the key and the properties of each
    finding, merging a finding does not change the key, and the store creates
    every record it is given. *)
Theorem synchronize_idempotent be p ctx w w1 :
  context p = Some ctx →
  mergeDataFunction p = None →
  mergeStatusFunction p = None →
  existingSuggestions p = None →
  NoDup (List.map (buildKey p) (newData p)) →
  builder_keeps_finding p →
  key_stable p →
  creates_as_given be →
  (∀ r, r ∈ stored w → is_Some (heap w !! r)) →
  syncSuggestions be p w = (Ok tt, w1) →
  unchanged_since w1 (syncSuggestions be p w1).2.
Proof.
  intros Hctx Hdata Hstatus Hstore Hdistinct Hbuilder Hstable Hcreates
    Hvalid Hrun.
  apply (second_run be p ctx Hctx Hdata Hstatus Hstore).
  - by apply (first_run be p ctx Hctx Hdata Hstatus Hstore Hdistinct Hbuilder
                Hstable Hcreates w).
  - split; [done|]. split; [done|]. split; [|apply emitted_start].
    intros r s1 Hs1. by exists s1.
Qed.

(** ** Sample runs of the synchronizer *)

Lemma healthy_creates_as_given : creates_as_given healthy.
Proof.
  intros records reply [= <-]. eexists. split; [done|].
  induction records as [|n ns IH]; constructor; [|done].
  split; [done|]. by intros st ->.
Qed.

(** C4: with the builder of the tests, which keeps the key of a finding and
    drops its other properties, the first run creates a suggestion without the
    title and the second run, with the same finding, merges the title into its
    data. *)
Lemma second_run_changes_data :
  ∃ w1 w2 s1 s2,
    syncSuggestions healthy
      (sample_params "broken-backlinks" [sample_finding] keyOnly None)
      empty_world = (Ok tt, w1)
    ∧ syncSuggestions healthy
        (sample_params "broken-backlinks" [sample_finding] keyOnly None)
        w1 = (Ok tt, w2)
    ∧ heap w1 !! 0 = Some s1 ∧ heap w2 !! 0 = Some s2
    ∧ data s1 !! "title" = None
    ∧ data s2 !! "title" = Some (VStr "same title")
    ∧ ¬ unchanged_since w1 w2.
Proof.
  set (p := sample_params "broken-backlinks" [sample_finding] keyOnly None).
  set (w1 := (syncSuggestions healthy p empty_world).2).
  set (w2 := (syncSuggestions healthy p w1).2).
  assert (heap w1 !! 0
          = Some (Suggestion "new" NEW {[ "key" := VStr "1" ]} None)) as H1
    by (vm_compute; reflexivity).
  assert (heap w2 !! 0
          = Some (Suggestion "new" NEW sample_finding (Some "system"))) as H2
    by (vm_compute; reflexivity).
  exists w1, w2, (Suggestion "new" NEW {[ "key" := VStr "1" ]} None),
    (Suggestion "new" NEW sample_finding (Some "system")).
  split; [by vm_compute|]. split; [by vm_compute|].
  split; [exact H1|]. split; [exact H2|].
  split; [by vm_compute|]. split; [by vm_compute|].
  intros (_ & _ & Hsame & _).
  destruct (Hsame 0 _ H1) as (s2 & Hs2 & _ & _ & Hdata).
  rewrite H2 in Hs2. injection Hs2 as <-.
  apply (f_equal (λ d : Data, d !! "title")) in Hdata.
  vm_compute in Hdata. discriminate.
Qed.

Lemma keyOf_union d e v :
  d !! "key" = Some v → keyOf (d ∪ e) = keyOf d.
Proof.
  intros Hd. unfold keyOf. by rewrite (lookup_union_Some_l _ _ _ _ Hd), Hd.
Qed.

(** C4 on a sample run. *)
Lemma synchronize_idempotent_witness :
  unchanged_since
    (syncSuggestions healthy
       (sample_params "broken-backlinks" [sample_finding] wholeFinding None)
       empty_world).2
    (syncSuggestions healthy
       (sample_params "broken-backlinks" [sample_finding] wholeFinding None)
       (syncSuggestions healthy
          (sample_params "broken-backlinks" [sample_finding] wholeFinding
             None)
          empty_world).2).2.
Proof.
  apply (synchronize_idempotent healthy _ sample_context empty_world);
    try reflexivity.
  - apply NoDup_singleton.
  - intros d _. by split.
  - intros e d Hd%list_elem_of_singleton _. subst d.
    by apply (keyOf_union _ _ (VStr "1")).
  - exact healthy_creates_as_given.
  - intros r Hr. by apply elem_of_nil in Hr.
Defined.

Ltac find_event :=
  apply list_elem_of_In; vm_compute; repeat (first [left; reflexivity | right]).

(** C2 on a sample run. *)
Lemma deployed_never_outdated_witness :
  (0 ∉ existingOutdatedSuggestions keyOf
         (heap (world_of [deployed_suggestion])) [0] ∅ None)
  ∧ heap (handleOutdatedSuggestions healthy keyOf sample_context [0] ∅ None
            None (world_of [deployed_suggestion])).2 !! 0
    = Some deployed_suggestion.
Proof.
  apply (deployed_never_outdated healthy keyOf sample_context [0] ∅ None None
           (world_of [deployed_suggestion]) 0 deployed_suggestion).
  - reflexivity.
  - left. reflexivity.
Defined.

(** C10 on a sample run. *)
Lemma no_url_never_outdated_witness :
  heap (syncSuggestions healthy
          (sample_params "broken-backlinks" [sample_finding] wholeFinding
             (Some scraped))
          (world_of [no_url_suggestion])).2 !! 0
  = Some no_url_suggestion.
Proof.
  apply (no_url_never_outdated healthy
           (sample_params "broken-backlinks" [sample_finding] wholeFinding
              (Some scraped))
           (world_of [no_url_suggestion]) 0 no_url_suggestion scraped);
    try reflexivity.
  intros Hin%list_elem_of_singleton. vm_compute in Hin. discriminate.
Defined.


(** C3 on a sample run. *)
Lemma default_status_merge_witness :
  ∃ s',
    heap (syncSuggestions healthy
            (sample_params "broken-backlinks" [sample_finding] wholeFinding
               None)
            (world_of [sample_suggestion OUTDATED sample_finding])).2 !! 0
    = Some s'
    ∧ status s' = NEW.
Proof.
  destruct (default_status_merge healthy
              (sample_params "broken-backlinks" [sample_finding] wholeFinding
                 None)
              sample_context
              (world_of [sample_suggestion OUTDATED sample_finding]) 0
              (sample_suggestion OUTDATED sample_finding))
    as (s' & Hs' & _ & _ & Hout); try reflexivity.
  - by apply list_elem_of_singleton.
  - exists s'. split; [exact Hs'|].
    apply (Hout eq_refl [0]).
    + split; reflexivity.
    + by apply list_elem_of_singleton.
    + by eexists.
    + reflexivity.
Defined.

(** C1 on a sample run. *)
Lemma create_errors_policy_witness :
  (∃ message,
     (syncSuggestions creating_nothing
        (sample_params "broken-backlinks" [sample_finding] wholeFinding None)
        empty_world).1 = Throw message
     ∧ includes_text "Validation error" message)
  ∧ (syncSuggestions creating_first
       (sample_params "broken-backlinks" [sample_finding; other_finding]
          wholeFinding None)
       empty_world).1 = Ok tt
  ∧ EvLog Warn (MsgPartialSuccess 1 1)
    ∈ trace (syncSuggestions creating_first
               (sample_params "broken-backlinks"
                  [sample_finding; other_finding] wholeFinding None)
               empty_world).2.
Proof.
  split.
  - destruct (create_errors_policy creating_nothing
                (sample_params "broken-backlinks" [sample_finding]
                   wholeFinding None)
                empty_world
                (trace (syncSuggestions creating_nothing
                          (sample_params "broken-backlinks" [sample_finding]
                             wholeFinding None)
                          empty_world).2)
                [NewSuggestion "123" "TYPE" 123 sample_finding (Some NEW)]
                (BatchReply (Some [])
                   (Some [ErrorItem
                            (NewSuggestion "123" "TYPE" 123 sample_finding
                               (Some NEW))
                            (Some "Validation error")]))
                (ErrorItem
                   (NewSuggestion "123" "TYPE" 123 sample_finding (Some NEW))
                   (Some "Validation error"))
                [])
      as [Hnone _]; try reflexivity.
    + find_event.
    + destruct (Hnone eq_refl) as (message & Hthrow & Hincludes).
      exists message. split; [exact Hthrow|]. by apply Hincludes.
  - destruct (create_errors_policy creating_first
                (sample_params "broken-backlinks"
                   [sample_finding; other_finding] wholeFinding None)
                empty_world
                (trace (syncSuggestions creating_first
                          (sample_params "broken-backlinks"
                             [sample_finding; other_finding] wholeFinding
                             None)
                          empty_world).2)
                [NewSuggestion "123" "TYPE" 123 sample_finding (Some NEW);
                 NewSuggestion "123" "TYPE" 123 other_finding (Some NEW)]
                (BatchReply
                   (Some [Suggestion "new" NEW sample_finding None])
                   (Some [ErrorItem
                            (NewSuggestion "123" "TYPE" 123 other_finding
                               (Some NEW))
                            (Some "Validation error")]))
                (ErrorItem
                   (NewSuggestion "123" "TYPE" 123 other_finding (Some NEW))
                   (Some "Validation error"))
                [])
      as [_ Hsome]; try reflexivity.
    + find_event.
    + exact (Hsome _ _ eq_refl).
Defined.

(** C5 on a sample run. *)
Lemma author_only_skips_publication_witness :
  fixHeap (syncSuggestionsWithPublishDetection (with_deployed_fix None)
             (detection_params "security-permissions") world_with_fix).2
  = fixHeap world_with_fix
  ∧ ∃ t,
      trace (syncSuggestionsWithPublishDetection (with_deployed_fix None)
               (detection_params "security-permissions") world_with_fix).2
      = (trace world_with_fix ++ t)%list
      ∧ ∀ e, e ∈ t → publication_event e = false.
Proof.
  apply (author_only_skips_publication (with_deployed_fix None)
           (detection_params "security-permissions") world_with_fix
           "security-permissions").
  - reflexivity.
  - unfold AUTHOR_ONLY_OPPORTUNITY_TYPES. apply list_elem_of_In. simpl. auto.
Defined.

(** Two deployed fix entities: the suggestion of the first is still found,
    the suggestion of the second is gone and resolved. *)
Lemma two_fixes_run :
  publishDeployedFixEntities with_two_deployed_fixes
    (publish_params (Some [sample_finding])) world_with_two_fixes
  = (Ok tt,
     World [] [] [deployed_fix; with_fixStatus PUBLISHED second_deployed_fix]
       [EvAllByOpportunityIdAndStatus "opportunity-id" DEPLOYED;
        EvGetFixEntitiesBySuggestionId "1";
        EvGetFixEntitiesBySuggestionId "2";
        EvIsIssueResolvedOnProduction
          (Suggestion "2" NEW {[ "key" := VStr "2" ]} None);
        EvSaveFix 1;
        EvLog Info (MsgPublished "fix-2")]).
Proof. reflexivity. Qed.

(** C6 on a sample run. *)
Lemma fast_path_short_circuit_witness :
  fixHeap (publishDeployedFixEntities with_two_deployed_fixes
             (publish_params (Some [sample_finding]))
             world_with_two_fixes).2 !! 0 = Some deployed_fix
  ∧ ∃ checks publishing,
      trace (publishDeployedFixEntities with_two_deployed_fixes
               (publish_params (Some [sample_finding]))
               world_with_two_fixes).2
      = (EvAllByOpportunityIdAndStatus "opportunity-id" DEPLOYED
         :: concat checks ++ publishing)%list
      ∧ Forall2 (λ f calls,
                   checked_as with_two_deployed_fixes
                     (publish_params (Some [sample_finding]))
                     (fixHeap world_with_two_fixes !!! f) calls)
          [0; 1] checks
      ∧ EvSaveFix 0 ∉ publishing.
Proof.
  destruct (fast_path_short_circuit with_two_deployed_fixes
              (publish_params (Some [sample_finding])) [0; 1]
              world_with_two_fixes)
    as (checks & publishing & Ht & Hchecks & _ & Hkept).
  - exists sample_context,
      {| hasAllByOpportunityIdAndStatus := true;
         hasGetFixEntitiesBySuggestionId := true |}.
    repeat split; reflexivity.
  - destruct (Hkept 0 deployed_fix
                (Suggestion "1" NEW {[ "key" := VStr "1" ]} None))
      as [Hfix Hsave].
    + by left.
    + reflexivity.
    + exists "1". split; [by left|reflexivity].
    + exists [sample_finding], keyOf. repeat split; try reflexivity.
      by left.
    + split; [exact Hfix|]. exists checks, publishing.
      split; [exact Ht|]. split; [exact Hchecks|exact Hsave].
Defined.

(** C7 on a sample run. *)
Lemma published_only_if_resolved_witness :
  fixHeap (publishDeployedFixEntities (with_deployed_fix None)
             (publish_params None) world_with_fix).2 !! 0
  = Some (with_fixStatus PUBLISHED deployed_fix)
  ∧ ∃ ids,
      suggestionIds deployed_fix = Some ids ∧ ids ≠ []
      ∧ ∀ id, id ∈ ids →
          ∃ s rest isResolved,
            getFixEntitiesBySuggestionId_reply (with_deployed_fix None) id
            = Ok (Some (s :: rest))
            ∧ isIssueResolvedOnProduction (publish_params None)
              = Some isResolved
            ∧ isResolved s = Ok (VBool true).
Proof.
  destruct (published_only_if_resolved (with_deployed_fix None)
              (publish_params None) world_with_fix 0 deployed_fix eq_refl)
    as [Hchanged _].
  apply Hchanged. vm_compute. discriminate.
Defined.



(** * Further properties of the synchronizer *)

(** ** The outdating step *)

Lemma outdatingLogs_logs st selected : Forall is_log (outdatingLogs st selected).
Proof.
  unfold outdatingLogs. constructor; [by eexists _, _|].
  repeat case_match; repeat constructor; by eexists _, _.
Qed.

(** A part of the selected suggestions was transitioned: every object is as
    it was or, if it was selected, has the new status. *)
Lemma foldr_alter_part (q : nat → bool) st (selected : list nat)
    (h : list suggestion) r :
  foldr (alter (with_status st)) h (List.filter q selected) !! r = h !! r
  ∨ (r ∈ selected
     ∧ foldr (alter (with_status st)) h (List.filter q selected) !! r
       = with_status st <$> h !! r).
Proof.
  destruct (decide (r ∈ List.filter q selected)) as [Hin|Hnin].
  - right. split.
    + apply list_elem_of_In, filter_In in Hin as [Hin _].
      by apply list_elem_of_In.
    + by apply foldr_alter_in.
  - left. by apply foldr_alter_notin.
Qed.

(** The run of the outdating step, case by case. *)
Lemma handleOutdatedSuggestions_exact be buildKey ctx da l keys target urls w :
  dataAccess ctx = Some da →
  let selected := existingOutdatedSuggestions buildKey (heap w) l keys urls in
  let st := default OUTDATED target in
  handleOutdatedSuggestions be buildKey ctx l keys target urls w
  = match selected with
    | [] => (Ok tt, set_trace (trace w ++ outdatingLogs st selected) w)
    | _ :: _ =>
        let w1 :=
          set_trace (trace w ++ outdatingLogs st selected
                       ++ [EvBulkUpdateStatus selected st]) w in
        match bulkUpdateStatus_rejects be selected st with
        | Some e =>
            (Throw e,
             set_heap (foldr (alter (with_status st)) (heap w)
                         (List.filter (bulkUpdateStatus_partial be selected st)
                            selected)) w1)
        | None =>
            (Ok tt, set_heap (foldr (alter (with_status st)) (heap w) selected)
                      w1)
        end
    end.
Proof.
  intros Hda selected st.
  unfold handleOutdatedSuggestions, bulkUpdateStatus, outdatingLogs.
  rewrite Hda. mrun. fold selected. fold st.
  destruct ((0 <? length selected)%nat && (length selected <=? 10)%nat);
    [|destruct (10 <? length selected)%nat]; mrun;
    (destruct selected eqn:E; unfold isNonEmptyArray; mrun;
     [|destruct (bulkUpdateStatus_rejects be _ _); mrun]);
    rewrite <- ?app_assoc; reflexivity.
Qed.

Lemma pres_handleOutdatedSuggestions_protected be buildKey ctx l keys target
    urls r s :
  status s ∈ notOutdatable →
  pres (keeps r s) (handleOutdatedSuggestions be buildKey ctx l keys target urls).
Proof.
  intros Hst w Hw. unfold keeps in *.
  rewrite handleOutdatedSuggestions_lookup; [done|].
  rewrite existingOutdatedSuggestions_spec. unfold getStatus.
  rewrite (getObject_lookup _ _ _ Hw). by intros (_ & _ & H & _).
Qed.

(** A suggestion whose key is gone and that the outdating step leaves alone
    goes through the whole synchronization as it was. *)
Lemma pres_keeps_unmatched_sync be p r s :
  (∀ ctx l,
     pres (keeps r s)
       (handleOutdatedSuggestions be (buildKey p) ctx l
          (list_to_set (List.map (buildKey p) (newData p)))
          (statusToSetForOutdated p) (scrapedUrlsSet p))) →
  buildKey p (data s) ∉ List.map (buildKey p) (newData p) →
  pres (keeps r s) (syncSuggestions be p).
Proof.
  intros Hstep Hkey.
  unfold syncSuggestions. destruct (context p) as [ctx|]; [|apply pres_ret].
  apply pres_bind.
  { destruct (existingSuggestions p); [apply pres_ret|by apply pres_getSuggestions]. }
  intros l. apply pres_bind; [apply pres_gets|]. intros h0.
  apply pres_bind; [by apply Hstep|]. intros _.
  apply pres_bind; [by apply pres_log|]. intros _.
  apply pres_gets_bind. intros w0 Hw0.
  apply pres_bind.
  { apply pres_updateMatched; [|done]. by rewrite elem_of_list_to_set. }
  intros promises. apply pres_bind; [apply pres_awaitAll|]. intros _.
  apply pres_bind; [by apply pres_log|]. intros _.
  apply pres_createNew.
Qed.

(** X1: a suggestion in one of the statuses that the outdating step lists
    (OUTDATED, FIXED, ERROR, SKIPPED, REJECTED, APPROVED, IN_PROGRESS,
    PENDING_VALIDATION) is never selected by the step, which leaves its object
    as it was; when its key is not among the keys of the findings, the whole
    synchronization leaves it as it was. *)
Theorem protected_status_never_outdated be p w r s :
  heap w !! r = Some s →
  status s ∈ notOutdatable →
  (∀ ctx l keys target urls,
     (r ∉ existingOutdatedSuggestions (buildKey p) (heap w) l keys urls)
     ∧ heap (handleOutdatedSuggestions be (buildKey p) ctx l keys target urls
               w).2 !! r = Some s)
  ∧ (buildKey p (data s) ∉ List.map (buildKey p) (newData p) →
     heap (syncSuggestions be p w).2 !! r = Some s).
Proof.
  intros Hs Hst. split.
  - intros ctx l keys target urls. split.
    + rewrite existingOutdatedSuggestions_spec. unfold getStatus.
      rewrite (getObject_lookup _ _ _ Hs). by intros (_ & _ & H & _).
    + by apply (pres_handleOutdatedSuggestions_protected be (buildKey p) ctx l
                  keys target urls r s Hst w).
  - intros Hkey. apply (pres_keeps_unmatched_sync be p r s); [|done..].
    intros ctx l. by apply pres_handleOutdatedSuggestions_protected.
Qed.

(** X2: the outdating step changes nothing but the status of the suggestions
    it selects. With nothing selected it makes no store call; otherwise it
    makes one [bulkUpdateStatus] call, with the selected suggestions and the
    target status (OUTDATED unless another is given): when the store accepts
    it, every selected suggestion has the target status and every other
    object is as it was; when the store rejects it, the step throws the
    store's error, and every object is as it was or, if it was selected, has
    the target status. *)
Theorem outdating_marks_selection be buildKey ctx da l keys target urls w :
  dataAccess ctx = Some da →
  let selected := existingOutdatedSuggestions buildKey (heap w) l keys urls in
  let st := default OUTDATED target in
  let run := handleOutdatedSuggestions be buildKey ctx l keys target urls w in
  stored run.2 = stored w
  ∧ fixHeap run.2 = fixHeap w
  ∧ (selected = [] →
     run.1 = Ok tt ∧ heap run.2 = heap w
     ∧ ∃ logs, trace run.2 = (trace w ++ logs)%list ∧ Forall is_log logs)
  ∧ (selected ≠ [] →
     (∃ logs,
        trace run.2 = (trace w ++ logs ++ [EvBulkUpdateStatus selected st])%list
        ∧ Forall is_log logs)
     ∧ match bulkUpdateStatus_rejects be selected st with
       | Some e =>
           run.1 = Throw e
           ∧ ∀ r, heap run.2 !! r = heap w !! r
                  ∨ (r ∈ selected
                     ∧ heap run.2 !! r = with_status st <$> heap w !! r)
       | None =>
           run.1 = Ok tt
           ∧ ∀ r, heap run.2 !! r
                  = if decide (r ∈ selected)
                    then with_status st <$> heap w !! r
                    else heap w !! r
       end).
Proof.
  intros Hda selected st run. subst run.
  rewrite (handleOutdatedSuggestions_exact be buildKey ctx da l keys target
             urls w Hda).
  fold selected. fold st. destruct selected as [|x sel] eqn:E.
  - split; [done|]. split; [done|]. split; [|done].
    intros _. split; [done|]. split; [done|].
    eexists. split; [done|]. apply outdatingLogs_logs.
  - cbv zeta. split; [by destruct (bulkUpdateStatus_rejects be _ _)|].
    split; [by destruct (bulkUpdateStatus_rejects be _ _)|].
    split; [done|]. intros _. split.
    { exists (outdatingLogs st (x :: sel)). split; [|apply outdatingLogs_logs].
      by destruct (bulkUpdateStatus_rejects be _ _). }
    destruct (bulkUpdateStatus_rejects be (x :: sel) st) as [e|] eqn:Hrej.
    { split; [done|]. intros r. cbn [heap set_heap set_trace snd].
      by apply foldr_alter_part. }
    split; [done|]. intros r. cbn [heap set_heap set_trace snd].
    destruct (decide (r ∈ x :: sel)).
    + by apply (foldr_alter_in (with_status st) (x :: sel)).
    + by apply (foldr_alter_notin (with_status st) (x :: sel)).
Qed.

(** X3: when the store rejects the [bulkUpdateStatus] call of the outdating
    step, synchronize throws the store's error at once: no suggestion is
    saved and none is created, the opportunity's list of suggestions is as it
    was, and every suggestion object is as it was or, if the step had selected
    it, has the status that the step sets. *)
Theorem failed_outdating_aborts be p ctx da l w x selected e :
  context p = Some ctx →
  dataAccess ctx = Some da →
  works_on be p w l →
  existingOutdatedSuggestions (buildKey p) (heap w) l
    (list_to_set (List.map (buildKey p) (newData p))) (scrapedUrlsSet p)
  = x :: selected →
  bulkUpdateStatus_rejects be (x :: selected)
    (default OUTDATED (statusToSetForOutdated p)) = Some e →
  let run := syncSuggestions be p w in
  run.1 = Throw e
  ∧ (∀ r, heap run.2 !! r = heap w !! r
          ∨ (r ∈ x :: selected
             ∧ heap run.2 !! r
               = with_status (default OUTDATED (statusToSetForOutdated p))
                   <$> heap w !! r))
  ∧ stored run.2 = stored w
  ∧ ∃ t, trace run.2 = (trace w ++ t)%list ∧ Forall writes_nothing t.
Proof.
  intros Hctx Hda Hl Hsel Hrej run. subst run.
  unfold syncSuggestions. rewrite Hctx.
  rewrite (bind_Ok _ _ _ _ _ (works_on_run be p w l Hl)).
  rewrite run_gets_bind.
  set (w1 := set_trace _ w).
  assert (∃ t1, trace w1 = (trace w ++ t1)%list ∧ Forall writes_nothing t1)
    as (t1 & Ht1 & Hw1).
  { subst w1. destruct (existingSuggestions p); simpl.
    - exists []. by rewrite app_nil_r.
    - exists [EvGetSuggestions]. split; [done|]. by repeat constructor. }
  pose proof (handleOutdatedSuggestions_exact be (buildKey p) ctx da l
                (list_to_set (List.map (buildKey p) (newData p)))
                (statusToSetForOutdated p) (scrapedUrlsSet p) w1 Hda) as Hrun.
  cbv zeta in Hrun. change (heap w1) with (heap w) in Hrun.
  rewrite Hsel, Hrej in Hrun.
  rewrite (bind_Throw _ _ _ _ _ Hrun).
  assert (heap w1 = heap w ∧ stored w1 = stored w) as [Hh Hst] by done.
  clearbody w1. cbn [fst snd heap stored trace set_trace set_heap].
  split; [done|]. split; [intros r; by apply foldr_alter_part|].
  split; [done|].
  eexists. rewrite Ht1, <- app_assoc. split; [done|].
  apply Forall_app. split; [done|]. apply Forall_app. split.
  - eapply Forall_impl; [apply outdatingLogs_logs|].
    intros ev (lvl & msg & ->). by split.
  - by repeat constructor.
Qed.

(** ** The update of the matched suggestions *)

Lemma recorded_suggestions_blind e t0 : suggestions_blind (recorded e t0).
Proof. by intros w h l. Qed.

(** A loop reaches an element that occurs once in its list, and what the
    element's turn establishes lasts through the other turns. *)
Lemma mapM_reaches_once {A B} `{EqDecision A} (f : A → M B)
    (I J : world → Prop) l r :
  (∀ x w, ∃ o, (f x w).1 = Ok o) →
  (∀ x, x ≠ r → pres I (f x)) → (∀ x, x ≠ r → pres J (f x)) →
  (∀ w, I w → J (f r w).2) →
  NoDup l → ∀ w, I w → r ∈ l → J (mapM f l w).2.
Proof.
  intros Hok HI HJ Hr. induction l as [|x l IH]; intros Hnd w Hw Hin.
  { by apply elem_of_nil in Hin. }
  apply NoDup_cons in Hnd as [Hx Hnd].
  rewrite mapM_cons. destruct (decide (x = r)) as [->|Hne].
  - apply point_bind; [by apply Hr|].
    intros y. apply pres_bind; [|intros; apply pres_ret].
    apply pres_mapM. intros x' Hx'. apply HJ. by intros ->.
  - apply elem_of_cons in Hin as [->|Hin]; [done|].
    destruct (Hok x w) as [o Ho]. pose proof (HI x Hne w Hw) as Hx'.
    destruct (f x w) as [o' w1] eqn:E. simpl in *. subst o'.
    rewrite (bind_Ok _ _ _ _ _ E).
    apply point_bind; [by apply IH|]. intros; apply pres_ret.
Qed.

Lemma updateExisting_at be p ctx byKey r s w t0 t :
  heap w !! r = Some s →
  trace w = (t0 ++ t)%list →
  ∃ s',
    (keeps r s' (updateExisting be p ctx byKey r w).2
     ∧ recorded (EvSave r) t0 (updateExisting be p ctx byKey r w).2)
    ∧ merged_from p ctx s (byKey !! buildKey p (data s)) s'.
Proof.
  intros Hs Ht. unfold updateExisting, defaultMergeStatusFunction, save.
  unfold setData, setStatus, setUpdatedBy, getStatus, getData, keeps,
    merged_from.
  mrun. rewrite (getObject_lookup _ _ _ Hs).
  set (d := default defaultMergeDataFunction _ _ _).
  destruct (mergeStatusFunction p) as [f|] eqn:Hf.
  - mrun. rewrite (getObject_lookup _ _ (with_data d s))
      by (by rewrite list_lookup_alter_eq, Hs).
    destruct (f (with_data d s) _ ctx) as [st|] eqn:Hst; mrun;
      rewrite !list_lookup_alter_eq, Hs; simpl;
      (eexists; split; [split; [reflexivity|]|]);
      try (exists (t ++ [EvSave r])%list; simpl; rewrite Ht, app_assoc;
           split; [reflexivity|]; apply elem_of_app; right; by left);
      simpl; repeat split; try done;
      intros f' [= <-]; by rewrite Hst.
  - mrun. rewrite (getObject_lookup _ _ (with_data d s))
      by (by rewrite list_lookup_alter_eq, Hs).
    simpl status.
    destruct (decide (status s = REJECTED)) as [HR|HR];
      [|destruct (decide (status s = OUTDATED)) as [HO|HO]];
      mrun; rewrite !list_lookup_alter_eq, Hs; simpl;
      (eexists; split; [split; [reflexivity|]|]);
      try (eexists (t ++ _)%list; simpl; rewrite Ht, <- !app_assoc;
           split; [reflexivity|]; rewrite !elem_of_app; right;
           rewrite ?elem_of_app, ?list_elem_of_singleton; auto);
      simpl; repeat split; done.
Qed.

Lemma handleOutdatedSuggestions_Ok be buildKey ctx da l keys target urls w :
  dataAccess ctx = Some da →
  (existingOutdatedSuggestions buildKey (heap w) l keys urls ≠ [] →
   bulkUpdateStatus_rejects be
     (existingOutdatedSuggestions buildKey (heap w) l keys urls)
     (default OUTDATED target) = None) →
  (handleOutdatedSuggestions be buildKey ctx l keys target urls w).1 = Ok tt.
Proof.
  intros Hda Hacc.
  rewrite (handleOutdatedSuggestions_exact be buildKey ctx da l keys target
             urls w Hda).
  destruct (existingOutdatedSuggestions _ _ _ _ _) as [|x sel]; [done|].
  cbv zeta. by rewrite Hacc.
Qed.

Lemma emitted_trace_blind_update Q t0 f r : pres (emitted Q t0) (update f r).
Proof. apply pres_blind_update. apply emitted_heap_blind. Qed.

Section Matched.
Context (be : Backend) (p : SyncParams) (ctx : Context).
Context (r : nat) (s : suggestion) (t0 : list event).

#[local] Abbreviation byKey :=
  (js_Map (List.map (λ d, (buildKey p d, d)) (newData p))).

(** Before the turn of [r]. *)
Definition awaits_update (w : world) : Prop :=
  keeps r s w ∧ emitted (λ _, True) t0 w.

(** After the turn of [r]. *)
Definition was_updated (w : world) : Prop :=
  ∃ s', (keeps r s' w ∧ recorded (EvSave r) t0 w)
        ∧ merged_from p ctx s (byKey !! buildKey p (data s)) s'.

Lemma pres_recorded_updateExisting e x :
  pres (recorded e t0) (updateExisting be p ctx byKey x).
Proof.
  apply pres_effects_updateExisting; auto using recorded_blind,
    recorded_accepts.
Qed.

Lemma pres_awaits_update x :
  x ≠ r → pres awaits_update (updateExisting be p ctx byKey x).
Proof.
  intros Hne. apply pres_and; [by apply pres_updateExisting_ne|].
  apply pres_effects_updateExisting; auto.
Qed.

Lemma pres_was_updated_updateExisting x :
  x ≠ r → pres was_updated (updateExisting be p ctx byKey x).
Proof.
  intros Hne. apply pres_exists. intros s'.
  apply pres_and; [by apply pres_updateExisting_ne|].
  apply pres_recorded_updateExisting.
Qed.

Lemma updateExisting_updates w :
  awaits_update w → was_updated (updateExisting be p ctx byKey r w).2.
Proof.
  intros [Hs (t & Ht & _)]. by apply (updateExisting_at _ _ _ _ _ _ _ _ t).
Qed.

Lemma pres_was_updated_tail n keys (promises : list (outcome unit)) :
  pres was_updated
    (awaitAll promises ≫= λ _,
       log Debug (MsgUpdatedExisting n) ≫= λ _, createNew be p ctx keys).
Proof.
  apply pres_exists. intros s'. apply pres_and; [apply pres_sync_tail|].
  apply pres_bind; [apply pres_awaitAll|]. intros _.
  apply pres_bind.
  { apply pres_accepted_log. apply recorded_accepts. }
  intros _. apply pres_effects_createNew;
    auto using recorded_blind, recorded_accepts,
      recorded_suggestions_blind.
Qed.
End Matched.

(** X4: a suggestion that the run works on and whose key matches a finding is
    updated and saved, when the outdating step before the loop does not throw:
    its data is the merge function's result on its data and the finding with
    its key (the default merge function, or the one given), its status is
    what a given status function answers on it (or stays, on [null]), it is
    stamped as updated by "system", its identifier stays, and its [save] is
    called. *)
Theorem matched_suggestion_merged be p ctx da l w r s :
  context p = Some ctx →
  dataAccess ctx = Some da →
  works_on be p w l →
  (existingOutdatedSuggestions (buildKey p) (heap w) l
     (list_to_set (List.map (buildKey p) (newData p))) (scrapedUrlsSet p)
   ≠ [] →
   bulkUpdateStatus_rejects be
     (existingOutdatedSuggestions (buildKey p) (heap w) l
        (list_to_set (List.map (buildKey p) (newData p))) (scrapedUrlsSet p))
     (default OUTDATED (statusToSetForOutdated p)) = None) →
  NoDup l → r ∈ l →
  heap w !! r = Some s →
  buildKey p (data s) ∈ List.map (buildKey p) (newData p) →
  let item :=
    js_Map (List.map (λ d, (buildKey p d, d)) (newData p))
      !! buildKey p (data s) in
  let w' := (syncSuggestions be p w).2 in
  (∃ d, item = Some d ∧ d ∈ newData p ∧ buildKey p d = buildKey p (data s))
  ∧ ∃ s',
      heap w' !! r = Some s'
      ∧ merged_from p ctx s item s'
      ∧ ∃ t, trace w' = (trace w ++ t)%list ∧ EvSave r ∈ t.
Proof.
  intros Hctx Hda Hl Hacc Hnd Hr Hs Hkey item w'. split.
  { apply list_elem_of_In, in_map_iff in Hkey as (d0 & Hk0 & Hd0%list_elem_of_In).
    destruct (js_Map_lookup_is_Some (buildKey p) (newData p) d0 Hd0) as [d Hd].
    rewrite Hk0 in Hd. exists d. split; [done|].
    by apply js_Map_lookup_Some in Hd. }
  enough (was_updated p ctx r s (trace w) w') as (s' & [Hs' Hrec] & Hm)
    by (exists s'; split; [done|]; split; [done|]; exact Hrec).
  subst w'. unfold syncSuggestions. rewrite Hctx.
  rewrite (bind_Ok _ _ _ _ _ (works_on_run be p w l Hl)).
  rewrite run_gets_bind.
  set (w1 := set_trace _ w).
  assert (awaits_update r s (trace w) w1) as Hw1.
  { split; [done|]. subst w1. destruct (existingSuggestions p); simpl.
    - exists []. by rewrite app_nil_r.
    - eexists. split; [done|]. by repeat constructor. }
  assert (heap w1 = heap w) as Hh1 by done. clearbody w1.
  set (keys := list_to_set (List.map (buildKey p) (newData p)) : gset string).
  pose proof (handleOutdatedSuggestions_Ok be (buildKey p) ctx da l keys
                (statusToSetForOutdated p) (scrapedUrlsSet p) w1 Hda) as Hok.
  rewrite Hh1 in Hok. specialize (Hok Hacc).
  assert (awaits_update r s (trace w)
            (handleOutdatedSuggestions be (buildKey p) ctx l keys
               (statusToSetForOutdated p) (scrapedUrlsSet p) w1).2) as Hw2.
  { revert Hw1. generalize w1. apply pres_and.
    - apply pres_handleOutdatedSuggestions_matched.
      subst keys. by apply elem_of_list_to_set.
    - apply pres_effects_handleOutdatedSuggestions; auto. }
  destruct (handleOutdatedSuggestions _ _ _ _ _ _ _ w1) as [o w2] eqn:E2.
  simpl in Hok, Hw2. subst o. rewrite (bind_Ok _ _ _ _ _ E2).
  rewrite run_log_bind, run_gets_bind. world_simpl.
  set (w3 := set_trace _ w2).
  assert (awaits_update r s (trace w) w3) as Hw3.
  { destruct Hw2 as [? Hem]. split; [done|].
    subst w3. by apply (emitted_accepts (λ _, True)). }
  clearbody w3.
  apply (trans_bind (was_updated p ctx r s (trace w))); [|done|].
  - apply (mapM_reaches_once _ (awaits_update r s (trace w))
             (was_updated p ctx r s (trace w)) _ r); try done.
    + apply updateExisting_Ok.
    + intros. by apply pres_awaits_update.
    + intros. by apply pres_was_updated_updateExisting.
    + intros. by apply updateExisting_updates.
    + by apply NoDup_ListNoDup, List.NoDup_filter, NoDup_ListNoDup.
    + apply elem_of_List_filter. split; [done|].
      apply bool_decide_eq_true. destruct Hw2 as [Hs2 _]. unfold getData.
      rewrite (getObject_lookup _ _ _ Hs2). subst keys.
      by apply elem_of_list_to_set.
  - intros promises w4 Hw4. by apply pres_was_updated_tail.
Qed.

(** ** The batch create *)

Lemma not_addSuggestions_false e :
  not_addSuggestions e ↔ is_addSuggestions e = false.
Proof.
  split.
  - intros H. destruct e; try done. by destruct (H items).
  - intros H records ->. done.
Qed.

Lemma filter_not_addSuggestions t :
  Forall not_addSuggestions t → List.filter is_addSuggestions t = [].
Proof.
  induction 1 as [|e t He _ IH]; [done|]. simpl.
  apply not_addSuggestions_false in He. by rewrite He.
Qed.

(** What the creation of the new suggestions adds to the trace: one batch
    create at most, and the one of the new suggestions. *)
Lemma createNew_trace be p ctx keys w :
  ∃ t, trace (createNew be p ctx keys w).2 = (trace w ++ t)%list
       ∧ (Forall not_addSuggestions t
          ∨ newSuggestions p ctx keys ≠ []
            ∧ ∃ t1 t2,
                t = (t1 ++ EvAddSuggestions (newSuggestions p ctx keys) :: t2)%list
                ∧ Forall not_addSuggestions t1
                ∧ Forall not_addSuggestions t2).
Proof.
  unfold createNew. destruct (newSuggestions p ctx keys) as [|n ns] eqn:E.
  { exists []. rewrite app_nil_r. split; [done|]. by left. }
  change (0 <? length (n :: ns))%nat with true. cbv iota.
  rewrite run_log_bind. unfold addSuggestions.
  rewrite run_bind_assoc, run_emit_bind. world_simpl.
  set (w1 := set_trace _ _).
  set (rest := (_ ≫= _)).
  assert (emitted not_addSuggestions (trace w1) (rest w1).2)
    as (t2 & Ht2 & Hall).
  { assert (pres (emitted not_addSuggestions (trace w1)) rest) as Hp.
    { subst rest.
      assert (∀ lvl msg,
                accepts (emitted not_addSuggestions (trace w1))
                  (EvLog lvl msg)) by (intros; by apply emitted_accepts).
      effects_auto.
      - apply pres_modify. intros w0 Hw0.
        by apply emitted_suggestions_blind.
      - apply pres_effects_reportCreateErrors; auto. }
    apply Hp, emitted_start. }
  eexists. split.
  { rewrite Ht2. subst w1. simpl. rewrite <- !app_assoc. reflexivity. }
  right. split; [done|].
  eexists [_], t2. split; [reflexivity|]. split; [|done].
  by repeat constructor.
Qed.

(** A run with a context either never gets to the batch create, or ends as
    the creation of the suggestions for the keys that no suggestion has. *)
Lemma syncSuggestions_create_tail be p ctx l t0 w :
  context p = Some ctx →
  works_on be p w l →
  emitted not_addSuggestions t0 w →
  emitted not_addSuggestions t0 (syncSuggestions be p w).2
  ∨ ∃ wk,
      emitted not_addSuggestions t0 wk
      ∧ syncSuggestions be p w
        = createNew be p ctx
            (list_to_set
               (List.map (λ s, buildKey p (getData (heap w) s)) l)) wk.
Proof.
  intros Hctx Hl Hw. unfold syncSuggestions. rewrite Hctx.
  rewrite (bind_Ok _ _ _ _ _ (works_on_run be p w l Hl)).
  rewrite run_gets_bind. world_simpl.
  set (w1 := set_trace _ w).
  assert (emitted not_addSuggestions t0 w1) as Hw1.
  { subst w1. destruct (existingSuggestions p).
    - by destruct w.
    - by apply emitted_accepts. }
  clearbody w1.
  set (keys := list_to_set (List.map (λ s, buildKey p (getData (heap w) s)) l)).
  set (Φ := λ x : outcome unit * world,
         emitted not_addSuggestions t0 x.2
         ∨ ∃ wk, emitted not_addSuggestions t0 wk
                 ∧ x = createNew be p ctx keys wk).
  assert (∀ e w1, emitted not_addSuggestions t0 w1 → Φ (Throw e, w1)) as HT
    by (by left).
  apply (tail_bind (emitted not_addSuggestions t0) Φ); [|done|].
  { apply pres_effects_handleOutdatedSuggestions; auto;
      intros; by apply emitted_accepts. }
  intros _ w2 Hw2.
  apply (tail_bind (emitted not_addSuggestions t0) Φ); [|done|].
  { apply pres_accepted_log; [by apply emitted_accepts|done]. }
  intros _ w3 Hw3. rewrite run_gets_bind.
  apply (tail_bind (emitted not_addSuggestions t0) Φ); [|done|].
  { apply pres_mapM; [|done]. intros x _.
    apply pres_effects_updateExisting; auto; intros; by apply emitted_accepts. }
  intros promises w4 Hw4.
  apply (tail_bind (emitted not_addSuggestions t0) Φ); [|done|].
  { by apply pres_awaitAll. }
  intros _ w5 Hw5.
  apply (tail_bind (emitted not_addSuggestions t0) Φ); [|done|].
  { apply pres_accepted_log; [by apply emitted_accepts|done]. }
  intros _ w6 Hw6. right. eauto.
Qed.

(** X5: synchronize sends at most one batch to [addSuggestions], never an
    empty one, and the batch holds one record for each finding whose key no
    existing suggestion has, in the order of the findings: the record that
    the builder makes of the finding, with its status set to NEW, or to
    PENDING_VALIDATION when the site requires validation. *)
Theorem creates_only_missing be p ctx l w :
  context p = Some ctx →
  works_on be p w l →
  let existingKeys : gset string :=
    list_to_set (List.map (λ r, buildKey p (getData (heap w) r)) l) in
  let st := if siteRequiresValidation ctx then PENDING_VALIDATION else NEW in
  ∃ t,
    trace (syncSuggestions be p w).2 = (trace w ++ t)%list
    ∧ (length (List.filter is_addSuggestions t) ≤ 1)%nat
    ∧ ∀ records, EvAddSuggestions records ∈ t →
        records ≠ []
        ∧ records
          = List.map (λ d, with_ns_status st (mapNewSuggestion p d))
              (List.filter
                 (λ d, negb (bool_decide (buildKey p d ∈ existingKeys)))
                 (newData p)).
Proof.
  intros Hctx Hl existingKeys st.
  destruct (syncSuggestions_create_tail be p ctx l (trace w) w Hctx Hl
              (emitted_start _ w)) as [(t & Ht & Hall)|(wk & (ta & Hta & Ha) & ->)].
  - exists t. split; [done|]. split.
    + rewrite filter_not_addSuggestions by done. simpl. lia.
    + intros records Hin. eapply Forall_forall in Hall; [|done].
      by destruct (Hall records).
  - fold existingKeys.
    destruct (createNew_trace be p ctx existingKeys wk)
      as (tb & Htb & [Hb|(Hne & t1 & t2 & -> & H1 & H2)]).
    + exists (ta ++ tb)%list. rewrite Htb, Hta, <- app_assoc.
      split; [done|]. split.
      * rewrite filter_not_addSuggestions; [simpl; lia|].
        by apply Forall_app.
      * intros records Hin.
        assert (not_addSuggestions (EvAddSuggestions records)) as Hno.
        { apply elem_of_app in Hin as [Hin|Hin];
            [eapply Forall_forall in Ha|eapply Forall_forall in Hb]; done. }
        by destruct (Hno records).
    + exists (ta ++ t1 ++ EvAddSuggestions (newSuggestions p ctx existingKeys)
                :: t2)%list.
      rewrite Htb, Hta, <- app_assoc. split; [done|]. split.
      * rewrite !List.filter_app. simpl.
        rewrite !filter_not_addSuggestions by done. simpl. lia.
      * intros records Hin.
        assert (records = newSuggestions p ctx existingKeys) as ->.
        { rewrite !elem_of_app, elem_of_cons in Hin.
          destruct Hin as [Hin|[Hin|[Hin|Hin]]].
          - eapply Forall_forall in Ha; [|done]. by destruct (Ha records).
          - eapply Forall_forall in H1; [|done]. by destruct (H1 records).
          - by injection Hin.
          - eapply Forall_forall in H2; [|done]. by destruct (H2 records). }
        done.
Qed.

(** ** What the stages call and change *)

(** The calls and changes of the fix publication pipeline. *)
Section EffectsOfPublish.
Context (be : Backend) (I : world → Prop).
Context (Hblind : fixHeap_blind I).
Context (Hlog : ∀ lvl msg, accepts I (EvLog lvl msg)).
Context (Hall : ∀ id st, accepts I (EvAllByOpportunityIdAndStatus id st)).
Context (Hget : ∀ id, accepts I (EvGetFixEntitiesBySuggestionId id)).
Context (Hresolved : ∀ s, accepts I (EvIsIssueResolvedOnProduction s)).
Context (Hsave : ∀ f, accepts I (EvSaveFix f)).

Lemma pres_effects_callIsIssueResolved p s : pres I (callIsIssueResolved p s).
Proof. unfold callIsIssueResolved. effects_auto. Qed.

Lemma pres_effects_checkFixEntity p keys f :
  pres I (checkFixEntity be p keys f).
Proof.
  unfold checkFixEntity, getFixEntitiesBySuggestionId.
  effects_auto; auto using pres_effects_callIsIssueResolved.
Qed.

Lemma pres_effects_publishResult result : pres I (publishResult be result).
Proof.
  unfold publishResult, setFixStatus, saveFix. effects_auto.
  apply pres_modify. intros w Hw. by apply Hblind.
Qed.

Lemma pres_effects_publishDeployedFixEntities p :
  pres I (publishDeployedFixEntities be p).
Proof.
  unfold publishDeployedFixEntities, allByOpportunityIdAndStatus.
  effects_auto; auto using pres_effects_checkFixEntity,
    pres_effects_publishResult.
Qed.
End EffectsOfPublish.

Lemma emitted_fixHeap_blind Q t0 : fixHeap_blind (emitted Q t0).
Proof. by intros w fh. Qed.

(** A run on suggestions that were fetched before does not fetch them. *)
Lemma pres_effects_syncSuggestions_prefetched be I p l :
  existingSuggestions p = Some l →
  heap_blind I → suggestions_blind I →
  (∀ lvl msg, accepts I (EvLog lvl msg)) →
  (∀ refs st, accepts I (EvBulkUpdateStatus refs st)) →
  (∀ r, accepts I (EvSave r)) →
  (∀ records, accepts I (EvAddSuggestions records)) →
  pres I (syncSuggestions be p).
Proof.
  intros Hl. intros. unfold syncSuggestions. rewrite Hl.
  effects_auto; auto using pres_effects_handleOutdatedSuggestions,
    pres_effects_updateExisting, pres_effects_createNew.
Qed.

(** X6: a synchronize call that is given the existing suggestions never
    fetches them from the store, and the orchestrator, which passes on the
    suggestions it fetched, fetches them exactly once: its first call is
    [getSuggestions] and no other follows. *)
Theorem suggestions_fetched_once be :
  (∀ p l w,
     existingSuggestions p = Some l →
     ∃ t, trace (syncSuggestions be p w).2 = (trace w ++ t)%list
          ∧ Forall (λ e, e ≠ EvGetSuggestions) t)
  ∧ (∀ p ctx w,
       context (sync p) = Some ctx →
       ∃ t, trace (syncSuggestionsWithPublishDetection be p w).2
            = (trace w ++ EvGetSuggestions :: t)%list
            ∧ Forall (λ e, e ≠ EvGetSuggestions) t).
Proof.
  split.
  - intros p l w Hl.
    apply (pres_effects_syncSuggestions_prefetched be
             (emitted (λ e, e ≠ EvGetSuggestions) (trace w)) p l Hl); auto.
    apply emitted_start.
  - intros p ctx w Hctx.
    unfold syncSuggestionsWithPublishDetection. rewrite Hctx.
    unfold getSuggestions. rewrite !run_bind_assoc, run_emit_bind.
    set (w1 := set_trace _ w). set (rest := (_ ≫= _)).
    enough (emitted (λ e, e ≠ EvGetSuggestions) (trace w1) (rest w1).2)
      as (t & Ht & Hall).
    { exists t. split; [|done]. rewrite Ht. subst w1. simpl.
      by rewrite <- app_assoc. }
    assert (pres (emitted (λ e, e ≠ EvGetSuggestions) (trace w1)) rest) as Hp;
      [|apply Hp, emitted_start].
    subst rest.
    assert (∀ lvl msg,
              accepts (emitted (λ e, e ≠ EvGetSuggestions) (trace w1))
                (EvLog lvl msg)) by (intros; by apply emitted_accepts).
    effects_auto.
    all: try (apply pres_effects_reconcileDisappearedSuggestions; auto).
    all: try (apply pres_effects_publishDeployedFixEntities;
              auto using emitted_fixHeap_blind).
    all: try (by eapply pres_effects_syncSuggestions_prefetched; auto).
Qed.

(** ** A save that the store rejects *)

Lemma has_sid_trace_blind r id : trace_blind (has_sid r id).
Proof. by intros w t. Qed.
#[export] Hint Resolve has_sid_trace_blind : core.

Lemma pres_has_sid_update r id f x :
  (∀ s, sid (f s) = sid s) → pres (has_sid r id) (update f x).
Proof.
  intros Hf. apply pres_modify. intros w (s & Hs & Hid). unfold has_sid.
  simpl. destruct (decide (x = r)) as [->|Hne].
  - exists (f s). rewrite list_lookup_alter_eq, Hs. split; [done|].
    by rewrite Hf.
  - exists s. by rewrite list_lookup_alter_ne.
Qed.

Lemma pres_has_sid_updateExisting be p ctx byKey r id x :
  pres (has_sid r id) (updateExisting be p ctx byKey x).
Proof.
  unfold updateExisting, setData, setStatus, setUpdatedBy.
  pres_auto; auto using pres_has_sid_update, pres_save,
    pres_defaultMergeStatusFunction.
Qed.

(** The promise that the turn of a suggestion gives is the promise of its
    [save], called on the object as the turn leaves it. *)
Lemma updateExisting_promise be p ctx byKey x w :
  (updateExisting be p ctx byKey x w).1
  = Ok (match save_rejects be
                (getObject (heap (updateExisting be p ctx byKey x w).2) x) with
        | Some e => Throw e
        | None => Ok tt
        end).
Proof.
  unfold updateExisting, defaultMergeStatusFunction, save, setData, setStatus,
    setUpdatedBy.
  destruct (mergeStatusFunction p) as [f|]; mrun;
    [destruct (f _ _ _); mrun
    |destruct (decide _); [|destruct (decide _)]; mrun];
    rewrite ?snd_settle; world_simpl; by destruct (save_rejects be _).
Qed.

Lemma mapM_updateExisting_promises be p ctx byKey r id e l :
  (∀ s', sid s' = id → save_rejects be s' = Some e) →
  ∀ w promises w',
    mapM (updateExisting be p ctx byKey) l w = (Ok promises, w') →
    Forall (save_promise be) promises
    ∧ (has_sid r id w → r ∈ l → Exists (λ o, ∃ e', o = Throw e') promises).
Proof.
  intros Hrej. induction l as [|x l IH]; intros w promises w' Hrun.
  { injection Hrun as <- <-. split; [done|].
    intros _ Hin. by apply elem_of_nil in Hin. }
  rewrite mapM_cons in Hrun.
  apply bind_Ok_inv in Hrun as (o & w1 & Hx & Hrun).
  apply bind_Ok_inv in Hrun as (os & w2 & Hl & Hrun).
  injection Hrun as <- <-.
  destruct (IH _ _ _ Hl) as [Hall Hex].
  pose proof (updateExisting_promise be p ctx byKey x w) as Ho.
  rewrite Hx in Ho. simpl in Ho. injection Ho as Ho.
  split.
  - constructor; [|done]. rewrite Ho.
    destruct (save_rejects be _) as [e'|] eqn:E; [right|by left]. eauto.
  - intros Hsid Hin.
    assert (has_sid r id w1) as Hsid1.
    { pose proof (pres_has_sid_updateExisting be p ctx byKey r id x w Hsid)
        as H1. by rewrite Hx in H1. }
    apply elem_of_cons in Hin as [->|Hin].
    + apply Exists_cons_hd. destruct Hsid1 as (s1 & Hs1 & Hid).
      rewrite (getObject_lookup _ _ _ Hs1), (Hrej _ Hid) in Ho. eauto.
    + apply Exists_cons_tl. by apply Hex.
Qed.

Lemma awaitAll_rejected be (promises : list (outcome unit)) w :
  Forall (save_promise be) promises →
  Exists (λ o, ∃ e', o = Throw e') promises →
  ∃ s' e', save_rejects be s' = Some e'
           ∧ awaitAll promises w = (Throw e', w).
Proof.
  induction 1 as [|o promises Ho _ IH]; intros Hex.
  { by apply Exists_nil in Hex. }
  destruct Ho as [->|(s' & e' & Hs' & ->)].
  - apply Exists_cons in Hex as [(e' & [=])|Hex].
    destruct (IH Hex) as (s' & e' & Hs' & Hrun). exists s', e'.
    split; [done|]. simpl. by rewrite (bind_Throw _ _ _ _ _ Hrun).
  - by exists s', e'.
Qed.

Lemma updateExisting_records_save be p ctx byKey x w t0 t :
  trace w = (t0 ++ t)%list →
  recorded (EvSave x) t0 (updateExisting be p ctx byKey x w).2.
Proof.
  intros Ht.
  unfold updateExisting, defaultMergeStatusFunction, save, setData, setStatus,
    setUpdatedBy.
  destruct (mergeStatusFunction p) as [f|]; mrun;
    [destruct (f _ _ _); mrun
    |destruct (decide _); [|destruct (decide _)]; mrun];
    rewrite ?snd_settle; world_simpl;
    eexists (t ++ _)%list; rewrite Ht, <- ?app_assoc;
    (split; [reflexivity|]);
    rewrite !elem_of_app, ?list_elem_of_singleton; auto.
Qed.

Lemma getData_foldr_alter_status st refs h x :
  getData (foldr (alter (with_status st)) h refs) x = getData h x.
Proof.
  unfold getData, getObject. rewrite !list_lookup_total_alt.
  destruct (decide (x ∈ refs)).
  - rewrite foldr_alter_in by done. by destruct (h !! x).
  - by rewrite foldr_alter_notin.
Qed.

Lemma handleOutdatedSuggestions_getData be buildKey ctx l keys target urls w x :
  getData
    (heap (handleOutdatedSuggestions be buildKey ctx l keys target urls w).2) x
  = getData (heap w) x.
Proof.
  destruct (handleOutdatedSuggestions_heap be buildKey ctx l keys target urls w)
    as (transitioned & _ & ->). apply getData_foldr_alter_status.
Qed.

(** X7: the saves of the matched suggestions are all started before any is
    awaited. When the store rejects the save of a matched suggestion,
    synchronize throws an error of a rejected save, every matched suggestion
    has been saved all the same, and no suggestion is created. *)
Theorem rejected_save_aborts_creation be p ctx da l w r s e :
  context p = Some ctx →
  dataAccess ctx = Some da →
  works_on be p w l →
  (existingOutdatedSuggestions (buildKey p) (heap w) l
     (list_to_set (List.map (buildKey p) (newData p))) (scrapedUrlsSet p)
   ≠ [] →
   bulkUpdateStatus_rejects be
     (existingOutdatedSuggestions (buildKey p) (heap w) l
        (list_to_set (List.map (buildKey p) (newData p))) (scrapedUrlsSet p))
     (default OUTDATED (statusToSetForOutdated p)) = None) →
  r ∈ l →
  heap w !! r = Some s →
  buildKey p (data s) ∈ List.map (buildKey p) (newData p) →
  (∀ s', sid s' = sid s → save_rejects be s' = Some e) →
  let run := syncSuggestions be p w in
  (∃ s' e', save_rejects be s' = Some e' ∧ run.1 = Throw e')
  ∧ ∃ t,
      trace run.2 = (trace w ++ t)%list
      ∧ Forall not_addSuggestions t
      ∧ ∀ x, x ∈ l →
             buildKey p (getData (heap w) x)
             ∈ List.map (buildKey p) (newData p) →
             EvSave x ∈ t.
Proof.
  intros Hctx Hda Hl Hacc Hr Hs Hkey Hrej run. subst run.
  unfold syncSuggestions. rewrite Hctx.
  rewrite (bind_Ok _ _ _ _ _ (works_on_run be p w l Hl)).
  rewrite run_gets_bind.
  set (w1 := set_trace _ w).
  assert (emitted not_addSuggestions (trace w) w1) as Hw1.
  { subst w1. destruct (existingSuggestions p); simpl.
    - exists []. by rewrite app_nil_r.
    - eexists. split; [done|]. by repeat constructor. }
  assert (heap w1 = heap w) as Hh1 by done. clearbody w1.
  set (keys := list_to_set (List.map (buildKey p) (newData p)) : gset string).
  pose proof (handleOutdatedSuggestions_Ok be (buildKey p) ctx da l keys
                (statusToSetForOutdated p) (scrapedUrlsSet p) w1 Hda) as Hok.
  rewrite Hh1 in Hok. specialize (Hok Hacc).
  pose proof (handleOutdatedSuggestions_getData be (buildKey p) ctx l keys
                (statusToSetForOutdated p) (scrapedUrlsSet p) w1) as Hdata.
  assert (emitted not_addSuggestions (trace w)
            (handleOutdatedSuggestions be (buildKey p) ctx l keys
               (statusToSetForOutdated p) (scrapedUrlsSet p) w1).2) as Hw2.
  { revert Hw1. generalize w1.
    apply pres_effects_handleOutdatedSuggestions; auto;
      intros; by apply emitted_accepts. }
  assert (keeps r s
            (handleOutdatedSuggestions be (buildKey p) ctx l keys
               (statusToSetForOutdated p) (scrapedUrlsSet p) w1).2) as Hs2.
  { apply pres_handleOutdatedSuggestions_matched.
    - subst keys. by apply elem_of_list_to_set.
    - unfold keeps. by rewrite Hh1. }
  destruct (handleOutdatedSuggestions _ _ _ _ _ _ _ w1) as [o w2] eqn:E2.
  simpl in Hok, Hw2, Hs2, Hdata. subst o. rewrite (bind_Ok _ _ _ _ _ E2).
  rewrite run_log_bind, run_gets_bind. world_simpl.
  set (w3 := set_trace _ w2).
  assert (emitted not_addSuggestions (trace w) w3) as Hw3.
  { subst w3. by apply emitted_accepts. }
  assert (heap w3 = heap w2) as Hh3 by done. clearbody w3.
  set (byKey := js_Map _).
  set (matched := List.filter _ l).
  destruct (mapM_total (updateExisting be p ctx byKey) matched w3)
    as [promises Hp]; [apply updateExisting_Ok|].
  assert (emitted not_addSuggestions (trace w)
            (mapM (updateExisting be p ctx byKey) matched w3).2) as Hw4.
  { revert Hw3. generalize w3. apply pres_mapM. intros x _.
    apply pres_effects_updateExisting; auto; intros; by apply emitted_accepts. }
  assert (∀ x, x ∈ matched →
            recorded (EvSave x) (trace w)
              (mapM (updateExisting be p ctx byKey) matched w3).2) as Hsaved.
  { intros x Hx.
    apply (mapM_reaches _ (emitted (λ _, True) (trace w))
             (recorded (EvSave x) (trace w)) _ x); try done.
    - apply updateExisting_Ok.
    - intros. apply pres_effects_updateExisting; auto.
    - intros. apply pres_effects_updateExisting;
        auto using recorded_blind, recorded_accepts.
    - intros w0 (t & Ht & _). by apply (updateExisting_records_save _ _ _ _ _ _ _ t).
    - eapply emitted_weaken; [|exact Hw3]. done. }
  destruct (mapM _ matched w3) as [o w4] eqn:E3. simpl in Hp, Hw4, Hsaved.
  subst o. rewrite (bind_Ok _ _ _ _ _ E3).
  assert (r ∈ matched) as Hrm.
  { apply elem_of_List_filter. split; [done|]. apply bool_decide_eq_true.
    unfold getData. rewrite (getObject_lookup _ _ _ Hs2). subst keys.
    by apply elem_of_list_to_set. }
  destruct (mapM_updateExisting_promises be p ctx byKey r (sid s) e matched
              Hrej w3 promises w4 E3) as [Hall Hex].
  destruct (awaitAll_rejected be promises w4 Hall) as (s' & e' & Hs' & Hrun).
  { apply Hex; [|done]. exists s. by rewrite Hh3. }
  rewrite (bind_Throw _ _ _ _ _ Hrun). simpl. split; [by eauto|].
  destruct Hw4 as (t & Ht & Hnone). exists t. split; [done|]. split; [done|].
  intros x Hx Hkx.
  destruct (Hsaved x) as (t' & Ht' & Hin).
  { apply elem_of_List_filter. split; [done|]. apply bool_decide_eq_true.
    rewrite Hdata, Hh1. subst keys. by apply elem_of_list_to_set. }
  rewrite Ht in Ht'. by apply app_inv_head in Ht' as ->.
Qed.

(** ** What the reconciler changes *)

Lemma markFixed_heap be p acc x w :
  heap (markFixed be p acc x w).2
  = alter (with_updatedBy "system") x (alter (with_status FIXED) x (heap w)).
Proof.
  unfold markFixed. rewrite run_gets_bind, run_log_bind.
  set (h' := alter _ x (alter _ x (heap w))).
  assert (trace_blind (λ w0, heap w0 = h')) by (by intros w0 t).
  apply (point_bind (λ w0, heap w0 = h')).
  - apply tryCatch_post.
    + unfold setStatus, setUpdatedBy, save. mrun.
      by destruct (save_rejects be _); mrun.
    + intros e. by apply pres_log.
  - intros marked.
    repeat first [by apply pres_log | by apply pres_emit | pres_step].
Qed.

Section ReconcileOnly.
Context (be : Backend) (p : ReconcileParams) (r : nat) (s : suggestion).

(** The object behind [r] is as it was, or it was found fixed and is
    marked. *)
Definition kept_or_fixed (w : world) : Prop :=
  heap w !! r = Some s
  ∨ (heap w !! r = Some (with_updatedBy "system" (with_status FIXED s))
     ∧ r ∈ disappearedSuggestions p
     ∧ found_fixed p s).

Lemma kept_or_fixed_trace_blind : trace_blind kept_or_fixed.
Proof. by intros w t. Qed.

Lemma pres_kept_or_fixed_markFixed acc x :
  (x = r → r ∈ disappearedSuggestions p ∧ found_fixed p s) →
  pres kept_or_fixed (markFixed be p acc x).
Proof.
  intros Hx w Hw. unfold kept_or_fixed. rewrite markFixed_heap.
  destruct (decide (x = r)) as [->|Hne].
  - rewrite !list_lookup_alter_eq. right.
    destruct Hw as [->|(-> & _)]; (split; [done|by apply Hx]).
  - by rewrite !list_lookup_alter_ne.
Qed.
End ReconcileOnly.

Lemma reconcile_kept_or_fixed be p w r s :
  heap w !! r = Some s →
  kept_or_fixed p r s (reconcileDisappearedSuggestions be p w).2.
Proof.
  intros Hs.
  unfold reconcileDisappearedSuggestions. apply tryCatch_post.
  2:{ intros e. apply pres_log, kept_or_fixed_trace_blind. }
  rewrite run_gets_bind.
  set (candidates := List.filter _ (disappearedSuggestions p)).
  destruct (length candidates =? 0)%nat eqn:Elen; [by left|].
  destruct (limitConcurrencyAllSettled_spec
              (λ w1, heap w1 = heap w)
              (λ x res, res = settled (fixedAnswer p (heap w) x))
              (λ suggestion,
                 callIsIssueFixed p suggestion ≫= λ isFixed,
                   ret (suggestion, isFixed))
              candidates MAX_CONCURRENT_CHECKS w)
    as (results & w1 & Hrun & Hheap & Hall); [done| |].
  { intros x w0 _ Hh. rewrite checkTask_run. simpl. rewrite Hh.
    split; [|done]. by destruct (isIssueFixedWithAISuggestion p). }
  rewrite (bind_Ok _ _ _ _ _ Hrun).
  apply point_bind.
  - apply pres_foldM; [|left; by rewrite Hheap].
    intros acc x Hx. apply pres_kept_or_fixed_markFixed. intros ->.
    destruct (fixedSuggestions_found p (heap w) candidates results r Hall Hx)
      as (Hcand & isFixed & answer & Hpred & Hans & Htruthy).
    apply elem_of_List_filter in Hcand as [Hin Hnew].
    apply bool_decide_eq_true in Hnew. unfold getStatus in Hnew.
    rewrite (getObject_lookup _ _ _ Hs) in Hnew, Hans.
    split; [done|]. split; [done|]. by exists isFixed, answer.
  - intros objs. pose proof kept_or_fixed_trace_blind.
    unfold addFixEntities.
    repeat first [by apply pres_log | by apply pres_emit | pres_step].
Qed.

(** X8: the reconciler changes a suggestion object only to mark it fixed
    (status FIXED, updated by "system"), and only a suggestion that is among
    the disappeared ones, is in status NEW, and on which the given
    [isIssueFixedWithAISuggestion] answered a truthy value; every other
    object is left as it was. *)
Theorem reconcile_marks_only_fixed be p w r s :
  heap w !! r = Some s →
  let w' := (reconcileDisappearedSuggestions be p w).2 in
  heap w' !! r ≠ Some s →
  heap w' !! r = Some (with_updatedBy "system" (with_status FIXED s))
  ∧ r ∈ disappearedSuggestions p
  ∧ status s = NEW
  ∧ ∃ isFixed answer,
      isIssueFixedWithAISuggestion p = Some isFixed
      ∧ isFixed s = Ok answer
      ∧ truthy answer = true.
Proof.
  intros Hs w' Hne.
  destruct (reconcile_kept_or_fixed be p w r s Hs)
    as [Hkept|(Hfixed & Hin & Hnew & Hfound)]; done.
Qed.

(** ** The fix entities that the reconciler records *)

Lemma fixCheckCalls_quiet p candidates :
  Forall (λ e, is_addFixEntities e = false) (fixCheckCalls p candidates).
Proof.
  unfold fixCheckCalls. destruct (isIssueFixedWithAISuggestion p); [|done].
  apply Forall_forall. by intros e (x & <- & _)%list_elem_of_In%in_map_iff.
Qed.

Lemma markFixedTrace_quiet be p h x :
  Forall (λ e, is_addFixEntities e = false) (markFixedTrace be p h x).
Proof.
  unfold markFixedTrace. repeat case_match; by repeat constructor.
Qed.

Lemma Forall_concat_map {A B} (P : B → Prop) (g : A → list B) (l : list A) :
  (∀ x, x ∈ l → Forall P (g x)) → Forall P (concat (List.map g l)).
Proof.
  intros Hg. apply Forall_forall. intros y (x & Hx & Hy)%elem_of_concat_map.
  eapply Forall_forall in Hy; [done|]. by apply Hg.
Qed.

Lemma markFixedPayload_built be p h r payload :
  r ∈ fixedSuggestionsOf p h →
  is_Some (h !! r) →
  markFixedPayload be p h r = Some payload →
  built_from_saved be p h (markFixedTrace be p h r) payload.
Proof.
  intros (Hcand & isFixed & answer & Hpred & Hans & Htruthy)
           %elem_of_fixedSuggestionsOf [s Hs].
  apply elem_of_candidatesOf in Hcand as [Hin Hnew].
  unfold getStatus in Hnew. rewrite (getObject_lookup _ _ _ Hs) in Hnew, Hans.
  unfold markFixedPayload, markFixedTrace.
  rewrite (markedObject_lookup _ _ _ Hs).
  change (fixedObject s) with (with_updatedBy "system" (with_status FIXED s)).
  destruct (save_rejects be _) eqn:Hsave; [done|].
  destruct (buildFixEntityPayload p) as [build|] eqn:Hb; [|done].
  destruct (build _ _ _) as [[payload'|]|] eqn:Hbuild; try done.
  intros [= ->]. exists build, r, s.
  split; [done|]. split; [done|]. split; [done|].
  split; [split; [done|by exists isFixed, answer]|].
  split; [right; by left|]. by split.
Qed.

Lemma built_from_saved_weaken be p h saves saves' payload :
  (∀ e, e ∈ saves → e ∈ saves') →
  built_from_saved be p h saves payload →
  built_from_saved be p h saves' payload.
Proof.
  intros Hsub (build & r & s & ? & ? & ? & ? & Hsave & ? & ?).
  exists build, r, s. repeat (split; [done|]). split; [by apply Hsub|done].
Qed.

(** X9: when every disappeared suggestion is an object of the store, the
    reconciler sends at most one batch to [addFixEntities], only to an
    opportunity that has the operation and never an empty one; every payload
    of the batch was built by the given [buildFixEntityPayload], with the
    opportunity and the author-only flag, from a disappeared suggestion that
    was in status NEW and that the fix check found fixed, as it is once marked
    as fixed, after a save of it that the store accepted. *)
Theorem fix_entities_only_for_saved be p w :
  (∀ r, r ∈ disappearedSuggestions p → is_Some (heap w !! r)) →
  ∃ t,
    trace (reconcileDisappearedSuggestions be p w).2 = (trace w ++ t)%list
    ∧ (Forall (λ e, is_addFixEntities e = false) t
       ∨ ∃ before records after,
           t = (before ++ EvAddFixEntities records :: after)%list
           ∧ Forall (λ e, is_addFixEntities e = false) before
           ∧ Forall (λ e, is_addFixEntities e = false) after
           ∧ records ≠ []
           ∧ hasAddFixEntities (r_opportunity p) = true
           ∧ Forall (built_from_saved be p (heap w) before) records).
Proof.
  intros Hvalid.
  destruct (reconcileDisappearedSuggestions_run be p w)
    as (w' & -> & Htrace & _).
  cbn [snd]. eexists. split; [exact Htrace|].
  unfold reconcileTrace.
  destruct (length (candidatesOf p (heap w)) =? 0)%nat; [by left|].
  set (fixedSuggestions := fixedSuggestionsOf p (heap w)).
  set (payloads := omap (markFixedPayload be p (heap w)) fixedSuggestions).
  set (before := (fixCheckCalls p (candidatesOf p (heap w))
                  ++ concat (List.map (markFixedTrace be p (heap w))
                               fixedSuggestions))%list).
  assert (Forall (λ e, is_addFixEntities e = false) before) as Hbefore.
  { apply Forall_app. split; [apply fixCheckCalls_quiet|].
    apply Forall_concat_map. intros x _. apply markFixedTrace_quiet. }
  rewrite app_assoc. fold before. unfold addFixEntitiesTrace.
  destruct ((0 <? length payloads)%nat && hasAddFixEntities (r_opportunity p))
    eqn:Hcond.
  2:{ left. by rewrite app_nil_r. }
  apply andb_true_iff in Hcond as [Hlen Hhas].
  right. eexists before, payloads, [_]. split; [done|].
  split; [done|]. split.
  { constructor; [|done]. by destruct (addFixEntities_rejects be payloads). }
  split; [by destruct payloads|]. split; [done|].
  apply Forall_forall. intros payload (r & Hr & Hpayload)%list_elem_of_omap.
  assert (is_Some (heap w !! r)) as Hobject.
  { apply Hvalid.
    apply elem_of_fixedSuggestionsOf in Hr as [Hcand _].
    by apply elem_of_candidatesOf in Hcand as [? _]. }
  apply (built_from_saved_weaken be p (heap w)
           (markFixedTrace be p (heap w) r)).
  - intros e He. apply elem_of_app. right. apply elem_of_concat_map.
    by exists r.
  - by apply markFixedPayload_built.
Qed.

(** ** The stages of the orchestrator *)

(** X10: the two stages keep to their own objects. The reconciler changes no
    fix entity object and not the opportunity's list of suggestions, and calls
    nothing but the fix check, [save] on suggestions, the payload builder and
    [addFixEntities]; the publication pipeline changes no suggestion object
    and not the list of suggestions, and calls nothing but the fix entity
    lookup, the suggestion lookup, the production check and [save] on fix
    entities. *)
Theorem stages_keep_to_their_objects be :
  (∀ p w,
     let w' := (reconcileDisappearedSuggestions be p w).2 in
     fixHeap w' = fixHeap w ∧ stored w' = stored w
     ∧ ∃ t, trace w' = (trace w ++ t)%list
            ∧ Forall (λ e, reconcile_event e = true) t)
  ∧ (∀ p w,
       let w' := (publishDeployedFixEntities be p w).2 in
       heap w' = heap w ∧ stored w' = stored w
       ∧ ∃ t, trace w' = (trace w ++ t)%list
              ∧ Forall (λ e, publish_event e = true) t).
Proof.
  split.
  - intros p w.
    set (I := λ w0, fixHeap w0 = fixHeap w ∧ stored w0 = stored w
                    ∧ emitted (λ e, reconcile_event e = true) (trace w) w0).
    assert (∀ e, reconcile_event e = true → accepts I e) as Hacc.
    { intros e He w0 (? & ? & ?). split; [done|]. split; [done|].
      by apply emitted_accepts. }
    assert (heap_blind I) as Hblind by (by intros w0 h (? & ? & ?)).
    enough (pres I (reconcileDisappearedSuggestions be p)) as Hp.
    { apply Hp. split; [done|]. split; [done|]. apply emitted_start. }
    apply pres_effects_reconcileDisappearedSuggestions; auto.
  - intros p w.
    set (I := λ w0, heap w0 = heap w ∧ stored w0 = stored w
                    ∧ emitted (λ e, publish_event e = true) (trace w) w0).
    assert (∀ e, publish_event e = true → accepts I e) as Hacc.
    { intros e He w0 (? & ? & ?). split; [done|]. split; [done|].
      by apply emitted_accepts. }
    assert (fixHeap_blind I) as Hblind by (by intros w0 h (? & ? & ?)).
    enough (pres I (publishDeployedFixEntities be p)) as Hp.
    { apply Hp. split; [done|]. split; [done|]. apply emitted_start. }
    apply pres_effects_publishDeployedFixEntities; auto.
Qed.

Lemma publishes_isAuthorOnly o :
  publishes o →
  match opportunityType o with
  | Some t => includes AUTHOR_ONLY_OPPORTUNITY_TYPES t
  | None => false
  end = false.
Proof.
  intros Hp. destruct (opportunityType o) as [t|] eqn:E; [|done].
  unfold includes. apply bool_decide_eq_false. by apply Hp.
Qed.

(** X11: without the callbacks of the two stages (no fix check or no payload
    builder, and no production check), on an opportunity whose type is not
    author-only, the orchestrator is synchronize itself: same result, same
    changes, same calls in the same order. *)
Theorem orchestrator_without_callbacks be p w :
  existingSuggestions (sync p) = None →
  publishes (opportunity (sync p)) →
  d_isIssueFixedWithAISuggestion p = None ∨ d_buildFixEntityPayload p = None →
  d_isIssueResolvedOnProduction p = None →
  syncSuggestionsWithPublishDetection be p w = syncSuggestions be (sync p) w.
Proof.
  intros Hex Hpub Hfix Hres.
  unfold syncSuggestionsWithPublishDetection, syncSuggestions.
  destruct (context (sync p)) as [ctx|] eqn:Hctx; [|done].
  rewrite Hex, (publishes_isAuthorOnly _ Hpub), Hres.
  destruct (getSuggestions be w) as [[l|e] w1] eqn:E.
  2:{ by rewrite !(bind_Throw _ _ _ _ _ E). }
  rewrite !(bind_Ok _ _ _ _ _ E). rewrite !run_gets_bind.
  assert ((match d_isIssueFixedWithAISuggestion p, d_buildFixEntityPayload p
           with
           | Some isFixed, Some build =>
               reconcileDisappearedSuggestions be
                 {| r_opportunity := opportunity (sync p);
                    disappearedSuggestions :=
                      getDisappearedSuggestions (heap w1) l
                        (list_to_set
                           (List.map (buildKey (sync p)) (newData (sync p))))
                        (buildKey (sync p));
                    isIssueFixedWithAISuggestion := Some isFixed;
                    buildFixEntityPayload := Some build;
                    isAuthorOnly := false |}
           | _, _ => ret tt
           end) = ret tt) as ->.
  { destruct Hfix as [-> | ->]; [done|].
    by destruct (d_isIssueFixedWithAISuggestion p). }
  mrun. simpl. rewrite Hctx. by mrun.
Qed.

Lemma keeps_fixHeap_blind r s : fixHeap_blind (keeps r s).
Proof. by intros w fh. Qed.

Lemma pres_keeps_publishDeployedFixEntities be p r s :
  pres (keeps r s) (publishDeployedFixEntities be p).
Proof.
  apply pres_effects_publishDeployedFixEntities;
    auto using keeps_fixHeap_blind;
    intros; by apply trace_blind_accepts.
Qed.

(** X12: the orchestrator reconciles before it synchronizes, so that a
    suggestion in status NEW whose key is gone from the findings and that the
    fix check finds fixed ends marked as fixed (status FIXED, updated by
    "system"), and is not marked outdated by the synchronization that
    follows. *)
Theorem fixed_before_outdated be p ctx w r s isFixed build answer :
  context (sync p) = Some ctx →
  d_isIssueFixedWithAISuggestion p = Some isFixed →
  d_buildFixEntityPayload p = Some build →
  getSuggestions_rejects be = None →
  r ∈ stored w →
  heap w !! r = Some s →
  status s = NEW →
  buildKey (sync p) (data s)
  ∉ List.map (buildKey (sync p)) (newData (sync p)) →
  isFixed s = Ok answer →
  truthy answer = true →
  heap (syncSuggestionsWithPublishDetection be p w).2 !! r
  = Some (with_updatedBy "system" (with_status FIXED s)).
Proof.
  intros Hctx Hfix Hbuild Hget Hr Hs Hnew Hkey Hans Htruthy.
  set (fixed := with_updatedBy "system" (with_status FIXED s)).
  change (keeps r fixed (syncSuggestionsWithPublishDetection be p w).2).
  unfold syncSuggestionsWithPublishDetection. rewrite Hctx, Hfix, Hbuild.
  unfold getSuggestions. rewrite Hget. mrun.
  set (w1 := set_trace _ w).
  set (rp := {| r_opportunity := _ |}).
  assert (heap w1 !! r = Some s) as Hs1 by done.
  assert (r ∈ disappearedSuggestions rp) as Hdis.
  { simpl. unfold getDisappearedSuggestions. apply elem_of_List_filter.
    split; [done|]. apply negb_true_iff, bool_decide_eq_false.
    unfold getData. rewrite (getObject_lookup _ _ _ Hs).
    by rewrite elem_of_list_to_set. }
  assert (keeps r fixed (reconcileDisappearedSuggestions be rp w1).2) as Hw2.
  { destruct (reconcile_reaches be rp w1 r s isFixed answer Hdis Hs1 Hnew
                eq_refl Hans Htruthy) as [(s' & Hs' & Hst) _].
    destruct (reconcile_kept_or_fixed be rp w1 r s Hs1) as [Hkept|[Hf _]];
      [|done].
    rewrite Hkept in Hs'. injection Hs' as <-. by rewrite Hnew in Hst. }
  apply (point_bind (keeps r fixed)); [done|]. intros _.
  apply pres_bind.
  { destruct (match opportunityType _ with Some _ => _ | None => _ end);
      [by apply pres_log|].
    destruct (d_isIssueResolvedOnProduction p); [|apply pres_ret].
    apply pres_keeps_publishDeployedFixEntities. }
  intros _. apply pres_keeps_unmatched_sync; [|done].
  intros ctx' l'. by apply pres_handleOutdatedSuggestions_protected; set_solver.
Qed.

(** ** The check of a fix entity *)

Lemma no_suggestion_fetched be id :
  no_suggestion be id → (∃ e, fetched be id = Throw e) ∨ fetched be id = Ok None.
Proof.
  unfold fetched. intros [[e ->]|[-> | ->]]; eauto.
Qed.

Lemma awaitAll_Throw {A} (ps : list (outcome A)) e w :
  Throw e ∈ ps → ∃ e', awaitAll ps w = (Throw e', w).
Proof.
  induction ps as [|[a|e0] ps IH]; intros Hin.
  - by apply elem_of_nil in Hin.
  - apply elem_of_cons in Hin as [[=]|Hin]. destruct (IH Hin) as [e' He'].
    exists e'. simpl. by rewrite (bind_Throw _ _ _ _ _ He').
  - by exists e0.
Qed.

(** X13: the check of a fix entity that has no linked suggestion identifier,
    or a linked identifier for which the store has no suggestion, never calls
    the production check, and never answers that the fix entity is
    resolved. *)
Theorem missing_suggestion_skips_production_check be p keys fixEntity w :
  default [] (suggestionIds (fixHeap w !!! fixEntity)) = []
  ∨ (∃ id, id ∈ default [] (suggestionIds (fixHeap w !!! fixEntity))
           ∧ no_suggestion be id) →
  let run := checkFixEntity be p keys fixEntity w in
  (∀ result, run.1 = Ok result → result = (fixEntity, false))
  ∧ ∃ t, trace run.2 = (trace w ++ t)%list
         ∧ ∀ e s', e ∈ t → e ≠ EvIsIssueResolvedOnProduction s'.
Proof.
  intros Hmissing run. subst run.
  unfold checkFixEntity. rewrite run_gets_bind.
  set (ids := default [] (suggestionIds (fixHeap w !!! fixEntity))) in *.
  destruct (length ids =? 0)%nat eqn:Elen.
  { simpl. split; [by intros ? [= <-]|]. exists []. rewrite app_nil_r.
    split; [done|]. intros e s' He. by apply elem_of_nil in He. }
  destruct Hmissing as [Hnil|(id & Hid & Hno)].
  { rewrite Hnil in Elen. done. }
  rewrite (bind_Ok _ _ _ _ _ (fetch_all_run be ids w)).
  set (w1 := set_trace _ w).
  assert (∀ e s', e ∈ List.map EvGetFixEntitiesBySuggestionId ids →
                  e ≠ EvIsIssueResolvedOnProduction s') as Hfetch.
  { intros e s' He. apply list_elem_of_In, in_map_iff in He as (? & <- & _).
    done. }
  assert (fetched be id ∈ List.map (fetched be) ids) as Hin.
  { apply list_elem_of_In, in_map. by apply list_elem_of_In. }
  destruct (no_suggestion_fetched be id Hno) as [[e He]|Hnone].
  - rewrite He in Hin. destruct (awaitAll_Throw _ e w1 Hin) as [e' Hrun].
    rewrite (bind_Throw _ _ _ _ _ Hrun). simpl. split; [done|]. eauto.
  - destruct (awaitAll (List.map (fetched be) ids) w1) as [[results|e] w2] eqn:E.
    + pose proof (awaitAll_snd (List.map (fetched be) ids) w1) as Hw2.
      pose proof (awaitAll_Ok (List.map (fetched be) ids) w1 results) as Hres.
      rewrite E in Hw2, Hres. simpl in Hw2. subst w2.
      specialize (Hres eq_refl). rewrite (bind_Ok _ _ _ _ _ E).
      assert (fastPathStops p keys results = true) as ->.
      { unfold fastPathStops. apply existsb_exists. exists None. split; [|done].
        rewrite Hnone, Hres in Hin.
        apply list_elem_of_In, in_map_iff in Hin as (? & [= ->] & ?). done. }
      simpl. split; [by intros ? [= <-]|]. eauto.
    + pose proof (awaitAll_snd (List.map (fetched be) ids) w1) as Hw2.
      rewrite E in Hw2. simpl in Hw2. subst w2.
      rewrite (bind_Throw _ _ _ _ _ E). simpl. split; [done|]. eauto.
Qed.

(** ** Sample runs for the further properties *)

(** X1 on a sample run. *)
Lemma protected_status_never_outdated_witness :
  heap (syncSuggestions healthy
          (sample_params "broken-backlinks" [sample_finding] wholeFinding None)
          (world_of [fixed_suggestion])).2 !! 0
  = Some fixed_suggestion.
Proof.
  apply (protected_status_never_outdated healthy
           (sample_params "broken-backlinks" [sample_finding] wholeFinding
              None)
           (world_of [fixed_suggestion]) 0 fixed_suggestion).
  - reflexivity.
  - unfold notOutdatable. simpl. set_solver.
  - intros Hin%list_elem_of_singleton. vm_compute in Hin. discriminate.
Defined.

(** X2 on a sample run. *)
Lemma outdating_marks_selection_witness :
  (handleOutdatedSuggestions healthy keyOf sample_context [0; 1] ∅ None
     (Some scraped) (world_of [suggestion_a; suggestion_b])).1 = Ok tt
  ∧ heap (handleOutdatedSuggestions healthy keyOf sample_context [0; 1] ∅
            None (Some scraped) (world_of [suggestion_a; suggestion_b])).2
    = [with_status OUTDATED suggestion_a; suggestion_b].
Proof.
  destruct (outdating_marks_selection healthy keyOf sample_context
              {| hasAllByOpportunityIdAndStatus := true;
                 hasGetFixEntitiesBySuggestionId := true |}
              [0; 1] ∅ None (Some scraped)
              (world_of [suggestion_a; suggestion_b]) eq_refl)
    as (_ & _ & _ & Hsel).
  destruct Hsel as [_ [Hok Hheap]].
  - vm_compute. discriminate.
  - split; [exact Hok|]. apply list_eq. intros [|[|i]].
    + rewrite (Hheap 0). reflexivity.
    + rewrite (Hheap 1). reflexivity.
    + rewrite (Hheap (S (S i))). reflexivity.
Defined.

(** X3 on a sample run. *)
Lemma failed_outdating_aborts_witness :
  (syncSuggestions refusing_status_updates
     (sample_params "broken-backlinks" [sample_finding] wholeFinding None)
     (world_of [suggestion_a])).1 = Throw "bulk update failed"
  ∧ stored (syncSuggestions refusing_status_updates
              (sample_params "broken-backlinks" [sample_finding] wholeFinding
                 None)
              (world_of [suggestion_a])).2 = [0].
Proof.
  destruct (failed_outdating_aborts refusing_status_updates
              (sample_params "broken-backlinks" [sample_finding] wholeFinding
                 None)
              sample_context
              {| hasAllByOpportunityIdAndStatus := true;
                 hasGetFixEntitiesBySuggestionId := true |}
              [0] (world_of [suggestion_a]) 0 [] "bulk update failed")
    as (Hthrow & _ & Hstored & _); try reflexivity.
  - split; reflexivity.
  - split; [exact Hthrow|exact Hstored].
Defined.

(** X4 on a sample run. *)
Lemma matched_suggestion_merged_witness :
  ∃ s',
    heap (syncSuggestions healthy
            (sample_params "broken-backlinks" [sample_finding] wholeFinding
               None)
            (world_of [titled_suggestion])).2 !! 0 = Some s'
    ∧ data s' = sample_finding
    ∧ updatedBy s' = Some "system".
Proof.
  destruct (matched_suggestion_merged healthy
              (sample_params "broken-backlinks" [sample_finding] wholeFinding
                 None)
              sample_context
              {| hasAllByOpportunityIdAndStatus := true;
                 hasGetFixEntitiesBySuggestionId := true |}
              [0] (world_of [titled_suggestion]) 0 titled_suggestion)
    as (_ & s' & Hs' & (Hdata & Hby & _) & _); try reflexivity.
  - split; reflexivity.
  - apply NoDup_singleton.
  - by apply list_elem_of_singleton.
  - by apply list_elem_of_singleton.
  - exists s'. split; [exact Hs'|]. split; [|exact Hby].
    rewrite Hdata. vm_compute. reflexivity.
Defined.

(** X5 on a sample run. *)
Lemma creates_only_missing_witness :
  ∃ t,
    trace (syncSuggestions healthy
             (sample_params "broken-backlinks" [sample_finding; other_finding]
                wholeFinding None)
             (world_of [titled_suggestion])).2 = ([] ++ t)%list
    ∧ (length (List.filter is_addSuggestions t) ≤ 1)%nat
    ∧ ∀ records, EvAddSuggestions records ∈ t →
        records ≠ []
        ∧ records = [NewSuggestion "123" "TYPE" 123 other_finding (Some NEW)].
Proof.
  destruct (creates_only_missing healthy
              (sample_params "broken-backlinks" [sample_finding; other_finding]
                 wholeFinding None)
              sample_context [0] (world_of [titled_suggestion]))
    as (t & Ht & Hlen & Hall); try reflexivity.
  - split; reflexivity.
  - exists t. split; [exact Ht|]. split; [exact Hlen|].
    intros records Hin. destruct (Hall records Hin) as [Hne ->].
    split; [exact Hne|]. vm_compute. reflexivity.
Defined.

(** X6 on a sample run. *)
Lemma suggestions_fetched_once_witness :
  ∃ t,
    trace (syncSuggestionsWithPublishDetection (with_deployed_fix None)
             (detection_params "broken-backlinks") world_with_fix).2
    = (trace world_with_fix ++ EvGetSuggestions :: t)%list
    ∧ Forall (λ e, e ≠ EvGetSuggestions) t.
Proof.
  destruct (suggestions_fetched_once (with_deployed_fix None)) as [_ Hdet].
  apply (Hdet (detection_params "broken-backlinks") sample_context
           world_with_fix).
  reflexivity.
Defined.

(** X7 on a sample run. *)
Lemma rejected_save_aborts_creation_witness :
  (syncSuggestions (with_deployed_fix (Some "save failed"))
     (sample_params "broken-backlinks" [sample_finding; other_finding]
        wholeFinding None)
     (world_of [titled_suggestion])).1 = Throw "save failed"
  ∧ ∃ t,
      trace (syncSuggestions (with_deployed_fix (Some "save failed"))
               (sample_params "broken-backlinks"
                  [sample_finding; other_finding] wholeFinding None)
               (world_of [titled_suggestion])).2 = ([] ++ t)%list
      ∧ Forall not_addSuggestions t
      ∧ EvSave 0 ∈ t.
Proof.
  destruct (rejected_save_aborts_creation
              (with_deployed_fix (Some "save failed"))
              (sample_params "broken-backlinks" [sample_finding; other_finding]
                 wholeFinding None)
              sample_context
              {| hasAllByOpportunityIdAndStatus := true;
                 hasGetFixEntitiesBySuggestionId := true |}
              [0] (world_of [titled_suggestion]) 0 titled_suggestion
              "save failed")
    as ((s' & e' & Hs' & Hthrow) & t & Ht & Hnone & Hsaved);
    try reflexivity.
  - split; reflexivity.
  - by apply list_elem_of_singleton.
  - apply list_elem_of_In. vm_compute. auto.
  - split.
    + rewrite Hthrow. simpl in Hs'. by injection Hs' as <-.
    + exists t. split; [exact Ht|]. split; [exact Hnone|].
      apply Hsaved; [by apply list_elem_of_singleton|].
      apply list_elem_of_In. vm_compute. auto.
Defined.

(** X8 on a sample run. *)
Lemma reconcile_marks_only_fixed_witness :
  heap (reconcileDisappearedSuggestions healthy reconcile_params
          (world_of [sample_suggestion NEW sample_finding])).2 !! 0
  = Some (with_updatedBy "system"
            (with_status FIXED (sample_suggestion NEW sample_finding)))
  ∧ status (sample_suggestion NEW sample_finding) = NEW.
Proof.
  destruct (reconcile_marks_only_fixed healthy reconcile_params
              (world_of [sample_suggestion NEW sample_finding]) 0
              (sample_suggestion NEW sample_finding) eq_refl)
    as (Hfixed & _ & Hnew & _).
  - vm_compute. discriminate.
  - split; [exact Hfixed|exact Hnew].
Defined.

(** The reconciler on a suggestion that is found fixed: its payload is sent
    after its save. *)
Lemma reconcile_with_builder_run :
  trace (reconcileDisappearedSuggestions healthy
           reconcile_params_with_builder
           (world_of [sample_suggestion NEW sample_finding])).2
  = [EvIsIssueFixedWithAISuggestion 0;
     EvLog Debug (MsgMarkingFixed "suggestion-1");
     EvSave 0;
     EvBuildFixEntityPayload 0;
     EvAddFixEntities
       [FixPayload "opportunity-id" PUBLISHED ["suggestion-1"]];
     EvLog Info (MsgAddedFixEntities 1 "opportunity-id")].
Proof. reflexivity. Qed.

(** X9 on a sample run. *)
Lemma fix_entities_only_for_saved_witness :
  ∃ t,
    trace (reconcileDisappearedSuggestions healthy
             reconcile_params_with_builder
             (world_of [sample_suggestion NEW sample_finding])).2
    = ([] ++ t)%list
    ∧ (Forall (λ e, is_addFixEntities e = false) t
       ∨ ∃ before records after,
           t = (before ++ EvAddFixEntities records :: after)%list
           ∧ Forall (λ e, is_addFixEntities e = false) before
           ∧ Forall (λ e, is_addFixEntities e = false) after
           ∧ records ≠ []
           ∧ hasAddFixEntities (r_opportunity reconcile_params_with_builder)
             = true
           ∧ Forall (built_from_saved healthy reconcile_params_with_builder
                       [sample_suggestion NEW sample_finding] before)
               records).
Proof.
  apply (fix_entities_only_for_saved healthy reconcile_params_with_builder
           (world_of [sample_suggestion NEW sample_finding])).
  intros r ->%list_elem_of_singleton. by eexists.
Defined.

(** X10 on a sample run. *)
Lemma stages_keep_to_their_objects_witness :
  fixHeap (reconcileDisappearedSuggestions healthy
             reconcile_params_with_builder
             (world_of [sample_suggestion NEW sample_finding])).2 = []
  ∧ heap (publishDeployedFixEntities (with_deployed_fix None)
            (publish_params None) world_with_fix).2 = [].
Proof.
  destruct (stages_keep_to_their_objects healthy) as [Hreconcile _].
  destruct (stages_keep_to_their_objects (with_deployed_fix None))
    as [_ Hpublish].
  split.
  - by destruct (Hreconcile reconcile_params_with_builder
                   (world_of [sample_suggestion NEW sample_finding]))
      as [? _].
  - by destruct (Hpublish (publish_params None) world_with_fix) as [? _].
Defined.

(** X11 on a sample run. *)
Lemma orchestrator_without_callbacks_witness :
  syncSuggestionsWithPublishDetection healthy plain_params
    (world_of [titled_suggestion])
  = syncSuggestions healthy (sync plain_params) (world_of [titled_suggestion]).
Proof.
  apply (orchestrator_without_callbacks healthy plain_params
           (world_of [titled_suggestion])).
  - reflexivity.
  - intros type [= <-]. unfold AUTHOR_ONLY_OPPORTUNITY_TYPES.
    intros Hin%list_elem_of_In. simpl in Hin. by destruct Hin as [|[|[]]].
  - by left.
  - reflexivity.
Defined.

(** X12 on a sample run. *)
Lemma fixed_before_outdated_witness :
  heap (syncSuggestionsWithPublishDetection healthy reconciling_params
          (world_of [no_url_suggestion])).2 !! 0
  = Some (with_updatedBy "system" (with_status FIXED no_url_suggestion)).
Proof.
  apply (fixed_before_outdated healthy reconciling_params sample_context
           (world_of [no_url_suggestion]) 0 no_url_suggestion
           (λ _, Ok (VBool true)) sample_payload (VBool true));
    try reflexivity.
  - by apply list_elem_of_singleton.
  - intros Hin%list_elem_of_singleton. vm_compute in Hin. discriminate.
Defined.

(** X13 on a sample run. *)
Lemma missing_suggestion_skips_production_check_witness :
  (∀ result,
     (checkFixEntity missing_linked_suggestion (publish_params None) None 0
        world_with_fix).1 = Ok result →
     result = (0, false))
  ∧ ∃ t,
      trace (checkFixEntity missing_linked_suggestion (publish_params None)
               None 0 world_with_fix).2
      = (trace world_with_fix ++ t)%list
      ∧ ∀ e s', e ∈ t → e ≠ EvIsIssueResolvedOnProduction s'.
Proof.
  apply (missing_suggestion_skips_production_check missing_linked_suggestion
           (publish_params None) None 0 world_with_fix).
  right. exists "1". split.
  - by apply list_elem_of_singleton.
  - right. right. reflexivity.
Defined.

(** * Properties of the guidance handler *)

Ltac unfold_HM :=
  unfold glog, record, answer, getOpportunities, updateOpportunity,
    updateOpportunities, onSuggestions, mbind, HM_bind, mret, HM_ret in *.

Lemma validSuggestions_run entries hw :
  ∃ logs,
    validSuggestions entries hw
    = (Ok (validData entries), set_calls (calls hw ++ logs) hw)
    ∧ Forall (λ e, e = GLog Warn GSkipping) logs.
Proof.
  revert hw. induction entries as [|s entries IH]; intros hw.
  { exists []. rewrite app_nil_r. by destruct hw. }
  simpl. unfold validData. simpl. fold (validData entries).
  destruct s as [d|]; simpl.
  - destruct (truthy (prop d "imageUrl") && truthy (prop d "semanticHtml")).
    + destruct (IH hw) as (logs & Hrun & Hlogs). exists logs.
      unfold_HM. by rewrite Hrun.
    + unfold_HM. destruct (IH (set_calls (calls hw ++ [GLog Warn GSkipping]) hw))
        as (logs & Hrun & Hlogs).
      exists (GLog Warn GSkipping :: logs). rewrite Hrun. simpl.
      rewrite <- app_assoc. split; [done|]. by constructor.
  - unfold_HM. destruct (IH (set_calls (calls hw ++ [GLog Warn GSkipping]) hw))
      as (logs & Hrun & Hlogs).
    exists (GLog Warn GSkipping :: logs). rewrite Hrun. simpl.
    rewrite <- app_assoc. split; [done|]. by constructor.
Qed.

Lemma validData_valid entries d :
  d ∈ validData entries →
  Some d ∈ entries
  ∧ truthy (prop d "imageUrl") = true
  ∧ truthy (prop d "semanticHtml") = true.
Proof.
  unfold validData. intros (s & Hs & Hd)%list_elem_of_omap.
  destruct (hasRequiredFields s) eqn:E; [|done]. subst s.
  split; [done|]. simpl in E. by apply andb_true_iff in E.
Qed.

Lemma validData_nil entries :
  Forall (λ s, hasRequiredFields s = false) entries → validData entries = [].
Proof.
  induction 1 as [|s entries Hs _ IH]; [done|].
  unfold validData. simpl. rewrite Hs. exact IH.
Qed.

(** Every batch that a synchronize call sends is made of the records of
    findings. *)
Lemma syncSuggestions_batches be p w :
  ∃ t,
    trace (syncSuggestions be p w).2 = (trace w ++ t)%list
    ∧ ∀ records, EvAddSuggestions records ∈ t →
        ∃ ctx keys, records = newSuggestions p ctx keys.
Proof.
  destruct (syncSuggestions_reaches_create be p (trace w) w (emitted_start _ w))
    as [(t & Ht & Hall)|(ctx & keys & wk & (ta & Hta & Ha) & ->)].
  - exists t. split; [done|]. intros records Hin.
    eapply Forall_forall in Hall; [|done]. by destruct (Hall records).
  - destruct (createNew_trace be p ctx keys wk)
      as (tb & Htb & [Hb|(Hne & t1 & t2 & -> & H1 & H2)]).
    + exists (ta ++ tb)%list. rewrite Htb, Hta, <- app_assoc.
      split; [done|]. intros records Hin.
      assert (not_addSuggestions (EvAddSuggestions records)) as Hno.
      { apply elem_of_app in Hin as [Hin|Hin];
          [eapply Forall_forall in Ha|eapply Forall_forall in Hb]; done. }
      by destruct (Hno records).
    + eexists. rewrite Htb, Hta, <- app_assoc. split; [done|].
      intros records Hin. exists ctx, keys.
      rewrite !elem_of_app, elem_of_cons in Hin.
      destruct Hin as [Hin|[Hin|[Hin|Hin]]].
      * eapply Forall_forall in Ha; [|done]. by destruct (Ha records).
      * eapply Forall_forall in H1; [|done]. by destruct (H1 records).
      * by injection Hin.
      * eapply Forall_forall in H2; [|done]. by destruct (H2 records).
Qed.

Lemma newSuggestions_guidance message context opportunity ctx keys :
  Forall (from_valid_entry message)
    (newSuggestions
       (guidanceSync context opportunity (validData (entriesOf message)))
       ctx keys).
Proof.
  apply Forall_forall. intros n Hn. unfold newSuggestions in Hn.
  apply list_elem_of_In, in_map_iff in Hn as (d & <- & Hd).
  apply filter_In in Hd as [Hd%list_elem_of_In _]. simpl in Hd.
  destruct (validData_valid _ _ Hd) as (Hin & Himg & Hhtml).
  repeat split; try done. simpl.
  destruct (siteRequiresValidation ctx); auto.
Qed.

(** The handler up to the choice of its branch. *)
Lemma handler_validated sv OPPORTUNITY_TYPE message context da hw :
  dataAccess context = Some da →
  Site_findById sv (m_siteId message) = Ok true →
  well_formed message →
  ∃ logs,
    Forall (λ e, e = GLog Warn GSkipping) logs
    ∧ handler sv OPPORTUNITY_TYPE message context hw
      = (if (length (validData (entriesOf message)) =? 0)%nat
         then removeStaleOpportunity sv OPPORTUNITY_TYPE (m_siteId message)
         else syncValidSuggestions sv context (urlOf message)
                (m_siteId message) (m_auditId message)
                (validData (entriesOf message)))
          (set_calls
             (calls hw ++ GFindSite (m_siteId message) :: logs
                ++ [GLog Info (GReceived (length (validData (entriesOf message)))
                                 (m_siteId message))])
             hw).
Proof.
  intros Hda Hsite Hwf. unfold handler. rewrite Hda.
  unfold mbind at 1 2. unfold HM_bind at 1 2. unfold record at 1.
  unfold answer at 1. rewrite Hsite. cbn [negb].
  fold (urlOf message).
  set (hw1 := set_calls _ hw).
  destruct (validSuggestions_run (entriesOf message) hw1)
    as (logs & Hrun & Hlogs).
  exists logs. split; [done|].
  assert (∀ k : list Data → HM response,
            (validSuggestions (entriesOf message) ≫= k) hw1
            = k (validData (entriesOf message))
                (set_calls (calls hw1 ++ logs) hw1)) as Hbind.
  { intros k. unfold mbind, HM_bind. by rewrite Hrun. }
  unfold entriesOf in *.
  destruct (m_data message) as [data|] eqn:Hdata.
  - specialize (Hwf data Hdata).
    destruct (md_suggestions data) as [|entries|] eqn:Hs; [| |done];
      rewrite Hbind; unfold glog, record, mbind, HM_bind; simpl.
    all: f_equal; unfold hw1, set_calls; simpl; f_equal;
      by rewrite <- !app_assoc.
  - rewrite Hbind. unfold glog, record, mbind, HM_bind. simpl.
    f_equal. unfold hw1, set_calls. simpl. f_equal. by rewrite <- !app_assoc.
Qed.

Lemma removeStaleOpportunity_base sv OPPORTUNITY_TYPE siteId hw :
  base (removeStaleOpportunity sv OPPORTUNITY_TYPE siteId hw).2 = base hw.
Proof.
  unfold removeStaleOpportunity. unfold_HM. simpl.
  destruct (Opportunity_allBySiteIdAndStatus sv siteId "NEW"); [|done]. simpl.
  destruct (staleOpportunity _ _ _); [|done]. simpl.
  by destruct (opportunity_save_rejects sv _).
Qed.

(** What the branch with valid suggestions does to the suggestions: nothing,
    or what the synchronization does. *)
Lemma syncValidSuggestions_base sv context url siteId auditId valid hw :
  base (syncValidSuggestions sv context url siteId auditId valid hw).2 = base hw
  ∨ ∃ opportunity,
      base (syncValidSuggestions sv context url siteId auditId valid hw).2
      = (syncSuggestions (suggestions_store sv)
           (guidanceSync context opportunity valid) (base hw)).2.
Proof.
  unfold syncValidSuggestions. unfold_HM. simpl.
  destruct (convertToOpportunity_reply sv url siteId auditId)
    as [[opportunity|]|e]; [|by left..]. simpl.
  right. exists opportunity.
  by destruct (syncSuggestions _ _ _) as [[[]|e] w'].
Qed.

Lemma handler_base sv OPPORTUNITY_TYPE message context hw :
  base (handler sv OPPORTUNITY_TYPE message context hw).2 = base hw
  ∨ ∃ opportunity,
      base (handler sv OPPORTUNITY_TYPE message context hw).2
      = (syncSuggestions (suggestions_store sv)
           (guidanceSync context opportunity (validData (entriesOf message)))
           (base hw)).2.
Proof.
  destruct (dataAccess context) as [da|] eqn:Hda.
  2:{ left. unfold handler. by rewrite Hda. }
  destruct (Site_findById sv (m_siteId message)) as [[|]|e] eqn:Hsite.
  2,3: left; unfold handler; rewrite Hda; unfold_HM; by rewrite Hsite.
  destruct (m_data message) as [data|] eqn:Hdata.
  - assert (md_suggestions data = NotAnArray
            ∨ md_suggestions data ≠ NotAnArray) as [Hs|Hs]
      by (destruct (md_suggestions data); auto).
    { left. unfold handler. rewrite Hda. unfold_HM. rewrite Hsite, Hdata, Hs.
      done. }
    destruct (handler_validated sv OPPORTUNITY_TYPE message context da hw
                Hda Hsite) as (logs & _ & ->).
    { intros data' Hd. rewrite Hdata in Hd. by injection Hd as <-. }
    set (hw' := set_calls _ hw). change (base hw) with (base hw').
    destruct (length _ =? 0)%nat.
    + left. by rewrite removeStaleOpportunity_base.
    + apply syncValidSuggestions_base.
  - destruct (handler_validated sv OPPORTUNITY_TYPE message context da hw
                Hda Hsite) as (logs & _ & ->).
    { intros data' Hd. by rewrite Hdata in Hd. }
    set (hw' := set_calls _ hw). change (base hw) with (base hw').
    destruct (length _ =? 0)%nat.
    + left. by rewrite removeStaleOpportunity_base.
    + apply syncValidSuggestions_base.
Qed.

(** X14: whatever the message, the store and the services answer, every
    record that the guidance handler sends to [addSuggestions] is made of an
    entry of [data.suggestions] whose data has a truthy [imageUrl] and a
    truthy [semanticHtml]: the record's data is the entry's data, its type is
    SUGGESTION_CODE, its rank 0, and its status NEW or PENDING_VALIDATION. *)
Theorem guidance_creates_only_valid sv OPPORTUNITY_TYPE message context hw :
  ∃ t,
    trace (base (handler sv OPPORTUNITY_TYPE message context hw).2)
    = (trace (base hw) ++ t)%list
    ∧ ∀ records, EvAddSuggestions records ∈ t →
        Forall (from_valid_entry message) records.
Proof.
  destruct (handler_base sv OPPORTUNITY_TYPE message context hw)
    as [-> | [opportunity ->]].
  - exists []. rewrite app_nil_r. split; [done|].
    intros records Hin. by apply elem_of_nil in Hin.
  - destruct (syncSuggestions_batches (suggestions_store sv)
                (guidanceSync context opportunity
                   (validData (entriesOf message))) (base hw))
      as (t & Ht & Hall).
    exists t. split; [done|]. intros records Hin.
    destruct (Hall records Hin) as (ctx & keys & ->).
    apply newSuggestions_guidance.
Qed.

Lemma removeStaleOpportunity_run sv OPPORTUNITY_TYPE siteId hw :
  ∃ t,
    calls (removeStaleOpportunity sv OPPORTUNITY_TYPE siteId hw).2
    = (calls hw ++ t)%list
    ∧ Forall (λ e, ¬ is_convertToOpportunity e) t
    ∧ (opportunities (removeStaleOpportunity sv OPPORTUNITY_TYPE siteId hw).2
       = opportunities hw
       ∨ ∃ existing stale,
           Opportunity_allBySiteIdAndStatus sv siteId "NEW" = Ok existing
           ∧ staleOpportunity OPPORTUNITY_TYPE (opportunities hw) existing
             = Some stale
           ∧ opportunities
               (removeStaleOpportunity sv OPPORTUNITY_TYPE siteId hw).2
             = alter resolve stale (opportunities hw)).
Proof.
  assert (∀ e, (∀ url s a, e ≠ GConvertToOpportunity url s a) →
               ¬ is_convertToOpportunity e) as Hno.
  { intros e He (url & s & a & ->). by eapply He. }
  unfold removeStaleOpportunity. unfold_HM. simpl.
  destruct (Opportunity_allBySiteIdAndStatus sv siteId "NEW")
    as [existing|e] eqn:Hex; simpl.
  2:{ eexists. rewrite <- app_assoc. split; [done|].
      split; [|by left]. repeat constructor; by apply Hno. }
  destruct (staleOpportunity _ _ _) as [stale|] eqn:Hstale; simpl.
  2:{ eexists. rewrite <- app_assoc. split; [done|].
      split; [|by left]. repeat constructor; by apply Hno. }
  destruct (opportunity_save_rejects sv _); simpl.
  all: eexists; rewrite <- !app_assoc; split; [done|].
  all: split; [repeat constructor; by apply Hno|].
  all: right; by exists existing, stale.
Qed.

Lemma staleOpportunity_Some OPPORTUNITY_TYPE objects existing stale :
  staleOpportunity OPPORTUNITY_TYPE objects existing = Some stale →
  stale ∈ existing ∧ o_type (objects !!! stale) = OPPORTUNITY_TYPE.
Proof.
  unfold staleOpportunity. intros [Hin Ht]%find_some.
  split; [by apply list_elem_of_In|]. by apply String.eqb_eq.
Qed.

(** X15: when the site is found and no entry
    of [data.suggestions] has both a truthy [imageUrl] and a truthy
    [semanticHtml], the handler leaves the suggestions and their store alone,
    does not call [convertToOpportunity], and changes at most one opportunity:
    one of the NEW opportunities of the site that has the audit's type, which
    becomes RESOLVED, updated by system, with its id and type kept. *)
Theorem no_valid_suggestion_resolves_stale
    sv OPPORTUNITY_TYPE message context da hw :
  dataAccess context = Some da →
  Site_findById sv (m_siteId message) = Ok true →
  well_formed message →
  Forall (λ s, hasRequiredFields s = false) (entriesOf message) →
  base (handler sv OPPORTUNITY_TYPE message context hw).2 = base hw
  ∧ (∃ t,
       calls (handler sv OPPORTUNITY_TYPE message context hw).2
       = (calls hw ++ t)%list
       ∧ Forall (λ e, ¬ is_convertToOpportunity e) t)
  ∧ (opportunities (handler sv OPPORTUNITY_TYPE message context hw).2
     = opportunities hw
     ∨ ∃ existing stale o,
         Opportunity_allBySiteIdAndStatus sv (m_siteId message) "NEW"
         = Ok existing
         ∧ stale ∈ existing
         ∧ opportunities hw !! stale = Some o
         ∧ o_type o = OPPORTUNITY_TYPE
         ∧ opportunities (handler sv OPPORTUNITY_TYPE message context hw).2
           = <[stale := OpportunityEntity (o_id o) (o_type o) "RESOLVED"
                          (Some "system")]> (opportunities hw)).
Proof.
  intros Hda Hsite Hwf Hnone.
  destruct (handler_validated sv OPPORTUNITY_TYPE message context da hw
              Hda Hsite Hwf) as (logs & Hlogs & ->).
  rewrite (validData_nil _ Hnone). simpl.
  set (hw1 := set_calls _ hw).
  destruct (removeStaleOpportunity_run sv OPPORTUNITY_TYPE (m_siteId message)
              hw1) as (t & Ht & Hno & Hopp).
  split; [by rewrite removeStaleOpportunity_base|]. split.
  - eexists. rewrite Ht. unfold hw1. simpl. rewrite <- app_assoc.
    split; [done|]. constructor.
    { by intros (? & ? & ? & ?). }
    apply Forall_app. split; [|done]. apply Forall_app. split.
    + eapply Forall_impl; [exact Hlogs|]. intros e -> (? & ? & ? & ?). done.
    + constructor; [|done]. by intros (? & ? & ? & ?).
  - destruct Hopp as [Hopp|(existing & stale & Hex & Hstale & Hopp)];
      [by left|].
    apply staleOpportunity_Some in Hstale as [Hin Htype].
    change (opportunities hw1) with (opportunities hw) in *.
    destruct (opportunities hw !! stale) as [o|] eqn:Ho.
    + right. exists existing, stale, o.
      rewrite (list_lookup_total_correct _ _ _ Ho) in Htype.
      repeat split; try done. rewrite Hopp.
      apply list_eq. intros i. destruct (decide (i = stale)) as [->|Hi].
      * rewrite list_lookup_alter_eq, Ho. simpl.
        by rewrite list_lookup_insert_eq by by eapply lookup_lt_Some.
      * by rewrite list_lookup_alter_ne, list_lookup_insert_ne.
    + left. rewrite Hopp. apply list_eq. intros i.
      destruct (decide (i = stale)) as [->|Hi].
      * by rewrite list_lookup_alter_eq, Ho.
      * by rewrite list_lookup_alter_ne.
Qed.

Lemma removeStaleOpportunity_response sv OPPORTUNITY_TYPE siteId hw r :
  (removeStaleOpportunity sv OPPORTUNITY_TYPE siteId hw).1 = Ok r → r = ok.
Proof.
  unfold removeStaleOpportunity. unfold_HM. simpl.
  destruct (Opportunity_allBySiteIdAndStatus sv siteId "NEW"); [|done]. simpl.
  destruct (staleOpportunity _ _ _); simpl; [|congruence].
  destruct (opportunity_save_rejects sv _); simpl; congruence.
Qed.

Lemma syncValidSuggestions_response sv context url siteId auditId valid hw r :
  (syncValidSuggestions sv context url siteId auditId valid hw).1 = Ok r →
  r = ok
  ∨ r = badRequest "Failed to create opportunity"
    ∧ convertToOpportunity_reply sv url siteId auditId = Ok None
    ∧ base (syncValidSuggestions sv context url siteId auditId valid hw).2
      = base hw
    ∧ opportunities
        (syncValidSuggestions sv context url siteId auditId valid hw).2
      = convertToOpportunity_effect sv url siteId auditId (opportunities hw).
Proof.
  unfold syncValidSuggestions. unfold_HM. simpl.
  destruct (convertToOpportunity_reply sv url siteId auditId)
    as [[opportunity|]|e]; simpl; [| |done].
  - destruct (syncSuggestions _ _ _) as [[[]|e] w']; simpl; [|done].
    intros [= <-]. by left.
  - intros [= <-]. by right.
Qed.

(** X16: when the handler answers with a response other than [ok], it has
    changed no suggestion and made no call to the suggestions' store. The
    response is [notFound] when the site lookup gave nothing, and a
    [badRequest] when the site was found: "Suggestions must be an array"
    when [data.suggestions] is not an array, and in these two cases no
    opportunity was changed and [convertToOpportunity] was not called;
    "Failed to create opportunity" when [convertToOpportunity] resolved to
    nothing, and then the opportunities are as [convertToOpportunity] left
    them. *)
Theorem refusal_changes_nothing sv OPPORTUNITY_TYPE message context hw r :
  (handler sv OPPORTUNITY_TYPE message context hw).1 = Ok r →
  r ≠ ok →
  let hw' := (handler sv OPPORTUNITY_TYPE message context hw).2 in
  base hw' = base hw
  ∧ (r = notFound "Site not found"
     ∧ Site_findById sv (m_siteId message) = Ok false
     ∧ opportunities_kept hw hw'
     ∨ r = badRequest "Suggestions must be an array"
       ∧ Site_findById sv (m_siteId message) = Ok true
       ∧ (∃ data, m_data message = Some data
                  ∧ md_suggestions data = NotAnArray)
       ∧ opportunities_kept hw hw'
     ∨ r = badRequest "Failed to create opportunity"
       ∧ Site_findById sv (m_siteId message) = Ok true
       ∧ convertToOpportunity_reply sv (urlOf message) (m_siteId message)
           (m_auditId message) = Ok None
       ∧ opportunities hw'
         = convertToOpportunity_effect sv (urlOf message) (m_siteId message)
             (m_auditId message) (opportunities hw)).
Proof.
  intros Hr Hnot hw'. subst hw'.
  assert (∀ e : guidance_event,
            (∀ url s a, e ≠ GConvertToOpportunity url s a) →
            ¬ is_convertToOpportunity e) as Hno.
  { intros e He (url & s & a & ->). by eapply He. }
  destruct (dataAccess context) as [da|] eqn:Hda.
  2:{ unfold handler in Hr. by rewrite Hda in Hr. }
  destruct (Site_findById sv (m_siteId message)) as [[|]|e] eqn:Hsite.
  - assert (well_formed message ∨ ∃ data, m_data message = Some data
              ∧ md_suggestions data = NotAnArray) as [Hwf|(data & Hd & Hs)].
    { destruct (m_data message) as [data|] eqn:Hd.
      - destruct (md_suggestions data) eqn:Hs.
        + left. intros data' Hd'. rewrite Hd in Hd'. injection Hd' as <-.
          by rewrite Hs.
        + left. intros data' Hd'. rewrite Hd in Hd'. injection Hd' as <-.
          by rewrite Hs.
        + right. by exists data.
      - left. intros data' Hd'. by rewrite Hd in Hd'. }
    + destruct (handler_validated sv OPPORTUNITY_TYPE message context da hw
                  Hda Hsite Hwf) as (logs & _ & Hrun).
      rewrite Hrun in *. set (hw1 := set_calls _ hw) in *.
      change (base hw) with (base hw1).
      change (opportunities hw) with (opportunities hw1).
      destruct (length _ =? 0)%nat.
      * by apply removeStaleOpportunity_response in Hr.
      * apply syncValidSuggestions_response in Hr
          as [->|(-> & Hreply & Hb & Ho)]; [done|].
        split; [done|]. right. right. done.
    + revert Hr. unfold handler. rewrite Hda. unfold_HM.
      rewrite Hsite, Hd, Hs. simpl. intros [= <-].
      split; [done|]. right. left. split; [done|]. split; [done|].
      split; [by exists data|]. split; [done|]. simpl.
      eexists. rewrite <- app_assoc. split; [done|].
      repeat constructor; by apply Hno.
  - revert Hr. unfold handler. rewrite Hda. unfold_HM. rewrite Hsite. simpl.
    intros [= <-]. split; [done|]. left. split; [done|]. split; [done|].
    split; [done|]. simpl.
    eexists. rewrite <- app_assoc. split; [done|].
    repeat constructor; by apply Hno.
  - revert Hr. unfold handler. rewrite Hda. unfold_HM. by rewrite Hsite.
Qed.

(** ** Sample runs of the guidance handler *)

(** A message with one valid entry and two entries that are dropped: the
    handler answers [ok] and sends one batch, of the record of the valid
    entry. *)
Lemma handler_sample_run :
  (handler
     (sample_services true []
        (Some (sample_opportunity "semantic-value-visibility")))
     "semantic-value-visibility"
     (sample_message [Some bare_entry; Some hero_entry; None])
     sample_context (handler_world [])).1 = Ok ok
  ∧ omap (λ e, match e with EvAddSuggestions records => Some records
                          | _ => None end)
      (trace (base (handler
                      (sample_services true []
                         (Some (sample_opportunity "semantic-value-visibility")))
                      "semantic-value-visibility"
                      (sample_message [Some bare_entry; Some hero_entry; None])
                      sample_context (handler_world [])).2))
    = [[NewSuggestion "opportunity-id" "SUGGESTION_CODE" 0 hero_entry
          (Some NEW)]].
Proof. split; vm_compute; reflexivity. Qed.

(** X15 on a sample run. *)
Lemma no_valid_suggestion_resolves_stale_witness :
  opportunities
    (handler (sample_services true [0; 1] None) "semantic-value-visibility"
       (sample_message [None; Some bare_entry]) sample_context
       (handler_world two_opportunities)).2
  = [OpportunityEntity "oppty-1" "broken-backlinks" "NEW" None;
     OpportunityEntity "oppty-2" "semantic-value-visibility" "RESOLVED"
       (Some "system")].
Proof.
  destruct (no_valid_suggestion_resolves_stale
              (sample_services true [0; 1] None) "semantic-value-visibility"
              (sample_message [None; Some bare_entry]) sample_context
              {| hasAllByOpportunityIdAndStatus := true;
                 hasGetFixEntitiesBySuggestionId := true |}
              (handler_world two_opportunities))
    as (_ & _ & [Hsame|(existing & stale & o & Hex & Hin & Ho & Ht & ->)]).
  - reflexivity.
  - reflexivity.
  - intros data [= <-]. discriminate.
  - repeat constructor.
  - vm_compute in Hsame. discriminate.
  - injection Hex as <-.
    destruct stale as [|[|stale]]; simpl in Ho; [| |discriminate Ho];
      injection Ho as <-; [discriminate Ht|reflexivity].
Defined.

(** A run in which [convertToOpportunity] adds an opportunity and resolves
    to nothing. *)
Lemma failed_conversion_run :
  (handler failing_conversion "semantic-value-visibility"
     (sample_message [Some hero_entry]) sample_context
     (handler_world two_opportunities)).1
  = Ok (badRequest "Failed to create opportunity").
Proof. reflexivity. Qed.

(** A message whose suggestions are not an array. *)
Lemma malformed_message_run :
  handler (sample_services true [] None) "semantic-value-visibility"
    malformed_message sample_context (handler_world two_opportunities)
  = (Ok (badRequest "Suggestions must be an array"),
     HWorld empty_world two_opportunities
       [GFindSite "site-id"; GLog Error (GInvalidFormat "site-id")]).
Proof. reflexivity. Qed.

(** X16 on a sample run. *)
Lemma refusal_changes_nothing_witness :
  base (handler failing_conversion "semantic-value-visibility"
          (sample_message [Some hero_entry]) sample_context
          (handler_world two_opportunities)).2 = empty_world
  ∧ opportunities
      (handler failing_conversion "semantic-value-visibility"
         (sample_message [Some hero_entry]) sample_context
         (handler_world two_opportunities)).2
    = (two_opportunities
       ++ [OpportunityEntity "oppty-3" "semantic-value-visibility" "NEW"
             None])%list.
Proof.
  destruct (refusal_changes_nothing failing_conversion
              "semantic-value-visibility" (sample_message [Some hero_entry])
              sample_context (handler_world two_opportunities)
              (badRequest "Failed to create opportunity"))
    as (Hbase & [(Hr & _)|[(Hr & _)|(_ & _ & _ & Hopp)]]).
  - reflexivity.
  - discriminate.
  - discriminate Hr.
  - discriminate Hr.
  - split; [exact Hbase|exact Hopp].
Defined.
